(** * Museum heist path planner: a shallow embedding of [solveHeist]

    The repository holds three near-duplicate implementations of the same
    planner:

    - the multi-source variant (one Dijkstra search seeded with every root),
      embedded in [Module MultiRoot];
    - the per-root variant (one single-source search per root, best root
      chosen afterwards), embedded in [Module PerRoot];
    - the linear-scan variant (risk store scanned edge by edge, frontier kept
      in a re-sorted array, lenient graph construction), embedded in
      [Module Scan].

    Modelling conventions.

    - Sensor identifiers are natural numbers ([N]); they are printed in
      decimal when they are turned into strings (map keys, joined paths).
      JavaScript prints an integer digit by digit as long as it is below
      2^53 ([decimalIds]); statements that depend on the printed form of
      an arbitrary identifier carry that bound.
    - Risks are integers ([Z]), so sums are exact; the JavaScript value
      [Infinity] that initialises the best-known table is the constructor
      [Infinity] of [Num]. The numbers of the code are binary64 values,
      and the exact sums are the sums of the code as long as every sum the
      search can form is a safe integer, which holds when the magnitudes
      of the stored risks sum to less than 2^53 ([safeRisks],
      [safeRiskList], [safeScanRisks]). Statements about the risk of a
      path carry that bound. Outside it the code rounds and overflows:
      [Module Double] embeds the same searches over binary64 numbers, and
      the inputs of [Module LargeRisks] are run on it.
    - [Map<number, _>] is a [gmap N _], [Map<string, number>] a
      [gmap string Z], [Set<number>] used only for membership a [gset N];
      the pending-target [Set], which is iterated, is a duplicate-free list
      in insertion order.
    - [localeCompare] on comma-joined decimal paths is the code-point order
      of strings ([String.compare]): over the alphabet of digits and commas
      the two coincide.
    - The priority queue of the external library is an interface
      ([MinPriorityQueue]) with its contract ([MinPriorityQueueLaws]); the
      searches are written against the interface, and two implementations
      ([listQueue], [stackQueue]) are given to run them.
    - A [TypeError] raised by the code is the [Threw] outcome.
    - The two [while] loops take fuel; the fuel each caller passes is shown
      to be enough ([searchLoop_fuel], [heistLoop_fuel]).

    The file has three parts: the embedding of the code with the vocabulary
    of the specification; the properties, ending with one theorem per claim;
    and further properties of the code (the risk stores, the graph builder,
    the linear-scan variant, the run as a whole). *)

From Stdlib Require Import ZArith Lia Ascii.
From Stdlib Require PrimFloat.
From stdpp Require Import base gmap sets list strings pretty sorting.

Set Warnings "-clear-no-such-hyp,-inexact-float".

(** ** Data model *)

Record Sensor := { id : N; dependencies : list N }.

Record Risk := { fromSensor : N; toSensor : N; risk : Z }.

(** [TargetPathInfo]. The per-root variant also stores the chosen root in
    this record; that component is written but never read, and is left
    out. *)
Record TargetPathInfo := { tpi_target : N; tpi_path : list N; tpi_risk : Z }.

(** A JavaScript number that is either an integer or [Infinity]. *)
Inductive Num := Finite (z : Z) | Infinity.

(** [a < b] and [a === b] for a finite [a]. *)
Definition num_lt (a : Z) (b : Num) : bool :=
  match b with Finite z => (a <? z)%Z | Infinity => true end.

Definition num_eq (a : Z) (b : Num) : bool :=
  match b with Finite z => (a =? z)%Z | Infinity => false end.

Inductive JsError := TypeError.

Inductive Outcome (A : Type) := Returned (a : A) | Threw (e : JsError).
Arguments Returned {A} a.
Arguments Threw {A} e.

Definition bindOutcome {A B} (o : Outcome A) (k : A → Outcome B) : Outcome B :=
  match o with Returned a => k a | Threw e => Threw e end.

(** ** Risk store: [riskMap], [getRisk], [setRisk] *)

(** The template literal [`${from},${to}`]. *)
Definition riskKey (from to : N) : string := pretty from +:+ "," +:+ pretty to.

Definition buildRiskMap (risks : list Risk) : gmap string Z :=
  foldl (λ m r, <[riskKey (fromSensor r) (toSensor r) := risk r]> m) ∅ risks.

Definition getRisk (riskMap : gmap string Z) (from to : N) : Z :=
  default 0%Z (riskMap !! riskKey from to).

Definition setRisk (riskMap : gmap string Z) (from to : N) (value : Z) : gmap string Z :=
  <[riskKey from to := value]> riskMap.

(** ** Graph builder *)

Definition emptyGraph (sensors : list Sensor) : gmap N (list N) :=
  foldl (λ g s, <[id s := []]> g) ∅ sensors.

(** [graph.get(dep).push(sensor.id)]: a [TypeError] when [dep] is not a key. *)
Definition addDependent (sid : N) (og : Outcome (gmap N (list N))) (dep : N)
    : Outcome (gmap N (list N)) :=
  bindOutcome og (λ g,
    match g !! dep with
    | Some l => Returned (<[dep := l ++ [sid]]> g)
    | None => Threw TypeError
    end).

Definition addSensorEdges (og : Outcome (gmap N (list N))) (s : Sensor)
    : Outcome (gmap N (list N)) :=
  foldl (addDependent (id s)) og (dependencies s).

Definition buildGraph (sensors : list Sensor) : Outcome (gmap N (list N)) :=
  foldl addSensorEdges (Returned (emptyGraph sensors)) sensors.

(** [sensors.filter(s => s.dependencies.length === 0).map(s => s.id).sort((a, b) => a - b)] *)
Definition findRoots (sensors : list Sensor) : list N :=
  merge_sort N.le
    (id <$> filter (λ s, length (dependencies s) = 0%nat) sensors).

(** ** Paths of the adjacency structure and their risk *)

(** [v] is listed among the dependents of [u]. *)
Definition isEdge (graph : gmap N (list N)) (u v : N) : bool :=
  bool_decide (v ∈ default [] (graph !! u)).

(** Every consecutive pair is an edge. *)
Fixpoint isChain (graph : gmap N (list N)) (p : list N) : bool :=
  match p with
  | a :: (b :: _) as rest => isEdge graph a b && isChain graph rest
  | _ => true
  end.

(** [p] starts at one of [starts], ends at [t], and is a chain of edges. *)
Definition isPathFrom (graph : gmap N (list N)) (starts : list N)
    (p : list N) (t : N) : bool :=
  match head p with
  | Some r => bool_decide (r ∈ starts)
  | None => false
  end && bool_decide (last p = Some t) && isChain graph p.

(** Sum of the current risks of the consecutive pairs of [p]. *)
Fixpoint pathRisk (riskMap : gmap string Z) (p : list N) : Z :=
  match p with
  | a :: (b :: _) as rest => (getRisk riskMap a b + pathRisk riskMap rest)%Z
  | _ => 0%Z
  end.

(** The consecutive pairs of a path. *)
Fixpoint pathEdges (p : list N) : list (N * N) :=
  match p with
  | a :: (b :: _) as rest => (a, b) :: pathEdges rest
  | _ => []
  end.

(** Every stored risk is non-negative. *)
Definition nonNegative (riskMap : gmap string Z) : Prop :=
  map_Forall (λ _ v, (0 ≤ v)%Z) riskMap.

(** ** Frontier entries and their order *)

Record Entry := { e_risk : Z; e_node : N; e_path : list N }.

(** [path.join(',')] *)
Definition joinPath (p : list N) : string := String.concat "," (pretty <$> p).

(** The [compare] callback handed to the queue; only its sign is used. *)
Definition compareEntries (a b : Entry) : comparison :=
  if decide (e_risk a ≠ e_risk b) then (e_risk a ?= e_risk b)%Z
  else String.compare (joinPath (e_path a)) (joinPath (e_path b)).

(** The queue of the external library, as an interface. [pq_items] is the
    multiset of entries held, as a list up to permutation. *)
Class MinPriorityQueue (Q : Type) := {
  pq_new : Q;
  enqueue : Entry → Q → Q;
  dequeue : Q → option (Entry * Q);
  pq_items : Q → list Entry
}.

Class MinPriorityQueueLaws (Q : Type) `{MinPriorityQueue Q} : Prop := {
  pq_new_items : pq_items pq_new = [];
  enqueue_items e q : pq_items (enqueue e q) ≡ₚ e :: pq_items q;
  dequeue_None q : dequeue q = None ↔ pq_items q = [];
  dequeue_items q e q' : dequeue q = Some (e, q') → pq_items q ≡ₚ e :: pq_items q';
  dequeue_min q e q' x :
    dequeue q = Some (e, q') → x ∈ pq_items q → compareEntries e x ≠ Gt
}.

(** Reference implementation: an unordered list; [dequeue] removes the first
    entry that no other entry beats. *)
Fixpoint extractMin (l : list Entry) : option (Entry * list Entry) :=
  match l with
  | [] => None
  | x :: l' =>
      match extractMin l' with
      | None => Some (x, [])
      | Some (m, rest) =>
          match compareEntries x m with
          | Gt => Some (m, x :: rest)
          | _ => Some (x, l')
          end
      end
  end.

#[export] Instance listQueue : MinPriorityQueue (list Entry) := {
  pq_new := [];
  enqueue e q := q ++ [e];
  dequeue := extractMin;
  pq_items q := q
}.

(** ** The search loop shared by [multiRootDijkstra] and [dijkstra] *)

Section Search.
Context {Q : Type} `{MinPriorityQueue Q}.
Variable graph : gmap N (list N).
Variable riskMap : gmap string Z.

(** Body of [for (const n of neighbors)]. *)
Definition relax (visited : gset N) (risk : Z) (node : N) (path : list N)
    (acc : gmap N Num * Q) (n : N) : gmap N Num * Q :=
  if decide (n ∈ visited) then acc
  else
    let newRisk := (getRisk riskMap node n + risk)%Z in
    match acc.1 !! n with
    | Some r =>
        if num_lt newRisk r then
          (<[n := Finite newRisk]> acc.1,
           enqueue {| e_risk := newRisk; e_node := n; e_path := path ++ [n] |} acc.2)
        else if num_eq newRisk r then
          (acc.1,
           enqueue {| e_risk := newRisk; e_node := n; e_path := path ++ [n] |} acc.2)
        else acc
    | None => acc
    end.

(** Body of [while (!pq.isEmpty())]. The outer [option] is [None] only
    when [fuel] runs out. *)
Fixpoint searchLoop (fuel : nat) (target : N)
    (risks : gmap N Num) (visited : gset N) (pq : Q)
    : option (option TargetPathInfo) :=
  match fuel with
  | O => None
  | S fuel' =>
      match dequeue pq with
      | None => Some None
      | Some (e, pq') =>
          if decide (e_node e ∈ visited) then
            searchLoop fuel' target risks visited pq'
          else
            let visited' := {[e_node e]} ∪ visited in
            if decide (e_node e = target) then
              Some (Some {| tpi_target := target;
                            tpi_path := e_path e;
                            tpi_risk := e_risk e |})
            else
              let neighbors := default [] (graph !! e_node e) in
              let acc := foldl (relax visited' (e_risk e) (e_node e) (e_path e))
                               (risks, pq') neighbors in
              searchLoop fuel' target acc.1 visited' acc.2
      end
  end.

(** Number of neighbour slots of the nodes not yet finalised. *)
Definition edgeBudget (visited : gset N) : nat :=
  sum_list_with (λ kv : N * list N,
                   if decide (kv.1 ∈ visited) then 0%nat else length kv.2)
                (map_to_list graph).

(** [sensors.forEach(sensor => risks.set(sensor.id, Infinity))] *)
Definition initRisks (sensors : list Sensor) : gmap N Num :=
  foldl (λ m s, <[id s := Infinity]> m) ∅ sensors.
End Search.

(** ** Target selection loop, generic in the engine *)

Record Best := {
  minPath : option TargetPathInfo;
  minRisk : Num;
  bestTarget : option N
}.

(** [target < bestTarget!]; [null] coerces to [0]. *)
Definition targetBelow (target : N) (bestTarget : option N) : bool :=
  match bestTarget with
  | Some b => (target <? b)%N
  | None => false
  end.

(** [new Set(targetSensors)], in insertion order. *)
Definition setOfList (l : list N) : list N :=
  foldl (λ acc x, if decide (x ∈ acc) then acc else acc ++ [x]) [] l.

Section Selection.
Context {Store : Type}.
Variable setRisk : Store → N → N → Z → Store.
Variable engine : Store → N → option TargetPathInfo.

(** [for (let i = 0; i < path.length - 1; i++) setRisk(path[i], path[i + 1], 0)] *)
Fixpoint zeroPath (riskMap : Store) (path : list N) : Store :=
  match path with
  | a :: (b :: _) as rest => zeroPath (setRisk riskMap a b 0%Z) rest
  | _ => riskMap
  end.

(** Body of [for (const target of remainingTargets)]. *)
Definition consider (riskMap : Store) (b : Best) (target : N) : Best :=
  match engine riskMap target with
  | Some pathInfo =>
      if num_lt (tpi_risk pathInfo) (minRisk b)
         || (num_eq (tpi_risk pathInfo) (minRisk b)
             && targetBelow target (bestTarget b))
      then {| minPath := Some pathInfo;
              minRisk := Finite (tpi_risk pathInfo);
              bestTarget := Some target |}
      else b
  | None => b
  end.

Definition selectBest (riskMap : Store) (remaining : list N) : Best :=
  foldl (consider riskMap)
        {| minPath := None; minRisk := Infinity; bestTarget := None |}
        remaining.

(** The variables the outer loop mutates. *)
Record LoopState := {
  ls_riskMap : Store;
  ls_remaining : list N;
  ls_paths : list (list N)
}.

(** The winner of an iteration: [minPath] after the inner [for], when the
    loop condition [remainingTargets.size > 0] holds. *)
Definition winner (st : LoopState) : option TargetPathInfo :=
  match ls_remaining st with
  | [] => None
  | _ :: _ => minPath (selectBest (ls_riskMap st) (ls_remaining st))
  end.

(** One iteration of [while (remainingTargets.size > 0)]; [None] when the
    loop exits (condition false, or [break]). *)
Definition heistStep (st : LoopState) : option LoopState :=
  match winner st with
  | Some mp =>
      Some {| ls_riskMap := zeroPath (ls_riskMap st) (tpi_path mp);
              ls_remaining := filter (λ t, t ≠ tpi_target mp) (ls_remaining st);
              ls_paths := ls_paths st ++ [tpi_path mp] |}
  | None => None
  end.

(** The loop; [None] only when [fuel] runs out. *)
Fixpoint heistLoop (fuel : nat) (st : LoopState) : option (list (list N)) :=
  match fuel with
  | O => None
  | S fuel' =>
      match heistStep st with
      | Some st' => heistLoop fuel' st'
      | None => Some (ls_paths st)
      end
  end.

(** The successive iterations that record a path: the state each started
    in and its winner (ghost view of [heistLoop]). *)
Fixpoint resolutions (fuel : nat) (st : LoopState)
    : list (LoopState * TargetPathInfo) :=
  match fuel with
  | O => []
  | S fuel' =>
      match winner st, heistStep st with
      | Some mp, Some st' => (st, mp) :: resolutions fuel' st'
      | _, _ => []
      end
  end.

Definition initialState (riskMap : Store) (targetSensors : list N) : LoopState :=
  {| ls_riskMap := riskMap;
     ls_remaining := setOfList targetSensors;
     ls_paths := [] |}.

Definition runHeist (riskMap : Store) (targetSensors : list N)
    : list (list N) :=
  let st := initialState riskMap targetSensors in
  default [] (heistLoop (S (length (ls_remaining st))) st).
End Selection.

(** ** Multi-source variant *)

Module MultiRoot.
Section WithQueue.
Context {Q : Type} `{MinPriorityQueue Q}.

(** [for (const root of roots) { pq.enqueue(...); risks.set(root, 0) }] *)
Definition seedRoots (roots : list N) (acc : gmap N Num * Q) : gmap N Num * Q :=
  foldl (λ acc root,
           (<[root := Finite 0]> acc.1,
            enqueue {| e_risk := 0; e_node := root; e_path := [root] |} acc.2))
        acc roots.

Definition multiRootDijkstra (sensors : list Sensor) (graph : gmap N (list N))
    (roots : list N) (riskMap : gmap string Z) (target : N)
    : option TargetPathInfo :=
  let init := seedRoots roots (initRisks sensors, pq_new) in
  default None
    (searchLoop graph riskMap (S (length roots + edgeBudget graph ∅))
                target init.1 ∅ init.2).

Definition solveHeist (sensors : list Sensor) (risks : list Risk)
    (targetSensors : list N) : Outcome (list (list N)) :=
  bindOutcome (buildGraph sensors) (λ graph,
    let riskMap := buildRiskMap risks in
    let roots := findRoots sensors in
    Returned (runHeist setRisk (multiRootDijkstra sensors graph roots)
                       riskMap targetSensors)).
End WithQueue.
End MultiRoot.

(** ** Per-root variant *)

Module PerRoot.
Section WithQueue.
Context {Q : Type} `{MinPriorityQueue Q}.

(** Single-source search; the start is enqueued but its best-known risk is
    left at [Infinity]. *)
Definition dijkstra (sensors : list Sensor) (graph : gmap N (list N))
    (riskMap : gmap string Z) (start target : N) : option TargetPathInfo :=
  default None
    (searchLoop graph riskMap (S (1 + edgeBudget graph ∅)) target
       (initRisks sensors) ∅
       (enqueue {| e_risk := 0; e_node := start; e_path := [start] |} pq_new)).

Record BestRoot := {
  bestPath : option (list N);
  bestRisk : Num;
  bestRoot : option N
}.

(** Body of [for (const root of roots)]. *)
Definition considerRoot (sensors : list Sensor) (graph : gmap N (list N))
    (riskMap : gmap string Z) (target : N) (b : BestRoot) (root : N) : BestRoot :=
  match dijkstra sensors graph riskMap root target with
  | Some result =>
      if num_lt (tpi_risk result) (bestRisk b)
         || (num_eq (tpi_risk result) (bestRisk b)
             && targetBelow root (bestRoot b))
      then {| bestPath := Some (tpi_path result);
              bestRisk := Finite (tpi_risk result);
              bestRoot := Some root |}
      else b
  | None => b
  end.

Definition findBestPathToTarget (sensors : list Sensor) (graph : gmap N (list N))
    (roots : list N) (riskMap : gmap string Z) (target : N)
    : option TargetPathInfo :=
  let b := foldl (considerRoot sensors graph riskMap target)
                 {| bestPath := None; bestRisk := Infinity; bestRoot := None |}
                 roots in
  match bestPath b, bestRisk b with
  | Some p, Finite r => Some {| tpi_target := target; tpi_path := p; tpi_risk := r |}
  | _, _ => None
  end.

Definition solveHeist (sensors : list Sensor) (risks : list Risk)
    (targetSensors : list N) : Outcome (list (list N)) :=
  bindOutcome (buildGraph sensors) (λ graph,
    let riskMap := buildRiskMap risks in
    let roots := findRoots sensors in
    Returned (runHeist setRisk (findBestPathToTarget sensors graph roots)
                       riskMap targetSensors)).
End WithQueue.
End PerRoot.

(** ** Linear-scan variant *)

Module Scan.
Record Edge := { from : N; to : N }.

(** [Map<Edge, number>] keyed by object identity: every inserted edge
    object is a key of its own, so the store is an association list in
    insertion order. *)
Definition buildRiskMap (risks : list Risk) : list (Edge * Z) :=
  (λ r, ({| from := fromSensor r; to := toSensor r |}, risk r)) <$> risks.

Fixpoint getRisk (riskMap : list (Edge * Z)) (from_ to_ : N) : Z :=
  match riskMap with
  | [] => 0%Z
  | (edge, r) :: riskMap' =>
      if decide (from edge = from_ ∧ to edge = to_) then r
      else getRisk riskMap' from_ to_
  end.

Fixpoint setRisk (riskMap : list (Edge * Z)) (from_ to_ : N) (value : Z)
    : list (Edge * Z) :=
  match riskMap with
  | [] => [({| from := from_; to := to_ |}, value)]
  | (edge, r) :: riskMap' =>
      if decide (from edge = from_ ∧ to edge = to_) then (edge, value) :: riskMap'
      else (edge, r) :: setRisk riskMap' from_ to_ value
  end.

(** [graph.get(dep)?.push(sensor.id)]: an unknown [dep] is skipped. *)
Definition addDependent (sid : N) (g : gmap N (list N)) (dep : N)
    : gmap N (list N) :=
  match g !! dep with
  | Some l => <[dep := l ++ [sid]]> g
  | None => g
  end.

Definition buildGraph (sensors : list Sensor) : gmap N (list N) :=
  foldl (λ g s, foldl (addDependent (id s)) g (dependencies s))
        (emptyGraph sensors) sensors.

(** [pq.sort(...)]: a stable sort of the frontier array. *)
Fixpoint insertEntry (x : Entry) (l : list Entry) : list Entry :=
  match l with
  | [] => [x]
  | y :: l' =>
      match compareEntries x y with
      | Gt => y :: insertEntry x l'
      | _ => x :: l
      end
  end.

Definition sortEntries (l : list Entry) : list Entry :=
  foldr insertEntry [] l.

Definition relax (riskMap : list (Edge * Z)) (visited : gset N) (dist : Z)
    (node : N) (path : list N) (acc : gmap N Num * list Entry) (neighbor : N)
    : gmap N Num * list Entry :=
  if decide (neighbor ∈ visited) then acc
  else
    let newDist := (dist + getRisk riskMap node neighbor)%Z in
    match acc.1 !! neighbor with
    | Some r =>
        if num_lt newDist r then
          (<[neighbor := Finite newDist]> acc.1,
           acc.2 ++ [{| e_risk := newDist; e_node := neighbor;
                        e_path := path ++ [neighbor] |}])
        else if num_eq newDist r then
          (acc.1,
           acc.2 ++ [{| e_risk := newDist; e_node := neighbor;
                        e_path := path ++ [neighbor] |}])
        else acc
    | None => acc
    end.

Fixpoint searchLoop (graph : gmap N (list N)) (riskMap : list (Edge * Z))
    (fuel : nat) (target : N) (distances : gmap N Num) (visited : gset N)
    (pq : list Entry) : option (option TargetPathInfo) :=
  match fuel with
  | O => None
  | S fuel' =>
      match sortEntries pq with
      | [] => Some None
      | e :: pq' =>
          if decide (e_node e ∈ visited) then
            searchLoop graph riskMap fuel' target distances visited pq'
          else
            let visited' := {[e_node e]} ∪ visited in
            if decide (e_node e = target) then
              Some (Some {| tpi_target := target;
                            tpi_path := e_path e;
                            tpi_risk := e_risk e |})
            else
              let neighbors := default [] (graph !! e_node e) in
              let acc := foldl (relax riskMap visited' (e_risk e) (e_node e) (e_path e))
                               (distances, pq') neighbors in
              searchLoop graph riskMap fuel' target acc.1 visited' acc.2
      end
  end.

Definition dijkstra (sensors : list Sensor) (graph : gmap N (list N))
    (riskMap : list (Edge * Z)) (start target : N) : option TargetPathInfo :=
  default None
    (searchLoop graph riskMap (S (1 + edgeBudget graph ∅)) target
       (<[start := Finite 0]> (initRisks sensors)) ∅
       [{| e_risk := 0; e_node := start; e_path := [start] |}]).

Definition considerRoot (sensors : list Sensor) (graph : gmap N (list N))
    (riskMap : list (Edge * Z)) (target : N) (b : PerRoot.BestRoot) (root : N)
    : PerRoot.BestRoot :=
  match dijkstra sensors graph riskMap root target with
  | Some result =>
      if num_lt (tpi_risk result) (PerRoot.bestRisk b)
         || (num_eq (tpi_risk result) (PerRoot.bestRisk b)
             && targetBelow root (PerRoot.bestRoot b))
      then {| PerRoot.bestPath := Some (tpi_path result);
              PerRoot.bestRisk := Finite (tpi_risk result);
              PerRoot.bestRoot := Some root |}
      else b
  | None => b
  end.

Definition findBestPathToTarget (sensors : list Sensor) (graph : gmap N (list N))
    (roots : list N) (riskMap : list (Edge * Z)) (target : N)
    : option TargetPathInfo :=
  let b := foldl (considerRoot sensors graph riskMap target)
                 {| PerRoot.bestPath := None; PerRoot.bestRisk := Infinity;
                    PerRoot.bestRoot := None |}
                 roots in
  match PerRoot.bestPath b, PerRoot.bestRisk b with
  | Some p, Finite r => Some {| tpi_target := target; tpi_path := p; tpi_risk := r |}
  | _, _ => None
  end.

Definition solveHeist (sensors : list Sensor) (risks : list Risk)
    (targetSensors : list N) : list (list N) :=
  let graph := buildGraph sensors in
  let riskMap := buildRiskMap risks in
  let roots := findRoots sensors in
  runHeist setRisk (findBestPathToTarget sensors graph roots)
           riskMap targetSensors.
End Scan.

(** ** The same searches on the numbers of the code

    A JavaScript number is an IEEE 754 binary64 value, and so is Rocq's
    primitive [float], with the same rounding to nearest, ties to even. The
    searches of this module are those of [MultiRoot] and [PerRoot] with the
    risks kept as such numbers: sums round, and a sum too large is
    [infinity]. Each loop takes fuel and answers [None] only when the fuel
    runs out. *)

Module Double.
Import PrimFloat.
Record Risk := { fromSensor : N; toSensor : N; risk : PrimFloat.float }.

Record TargetPathInfo := { tpi_target : N; tpi_path : list N; tpi_risk : PrimFloat.float }.

Record Entry := { e_risk : PrimFloat.float; e_node : N; e_path : list N }.

(** The number an integer of the input is read as; it is that integer up
    to magnitude 2^53. *)
Fixpoint ofPositive (p : positive) : PrimFloat.float :=
  match p with
  | xH => 1%float
  | xO p' => (2 * ofPositive p')%float
  | xI p' => (2 * ofPositive p' + 1)%float
  end.

Definition ofInteger (z : Z) : PrimFloat.float :=
  match z with
  | Z0 => 0%float
  | Zpos p => ofPositive p
  | Zneg p => (- ofPositive p)%float
  end.

(** The number the literal [1e308] is read as. *)
Definition huge : PrimFloat.float := 1e308%float.

Definition buildRiskMap (risks : list Risk) : gmap string PrimFloat.float :=
  foldl (λ m r, <[riskKey (fromSensor r) (toSensor r) := risk r]> m) ∅ risks.

Definition getRisk (riskMap : gmap string PrimFloat.float) (from to : N) : PrimFloat.float :=
  default 0%float (riskMap !! riskKey from to).

Definition setRisk (riskMap : gmap string PrimFloat.float) (from to : N) (value : PrimFloat.float)
    : gmap string PrimFloat.float :=
  <[riskKey from to := value]> riskMap.

(** The [compare] callback: [a.risk - b.risk] when the risks differ, else
    the order of the joined paths. *)
Definition compareEntries (a b : Entry) : comparison :=
  if negb (e_risk a =? e_risk b)%float then
    let d := (e_risk a - e_risk b)%float in
    if (d <? 0)%float then Lt else if (0 <? d)%float then Gt else Eq
  else String.compare (joinPath (e_path a)) (joinPath (e_path b)).

(** The queue as an unordered list; [dequeue] removes an entry that no
    other entry beats. *)
Fixpoint extractMin (l : list Entry) : option (Entry * list Entry) :=
  match l with
  | [] => None
  | x :: l' =>
      match extractMin l' with
      | None => Some (x, [])
      | Some (m, rest) =>
          match compareEntries x m with
          | Gt => Some (m, x :: rest)
          | _ => Some (x, l')
          end
      end
  end.

(** Body of [for (const n of neighbors)]. *)
Definition relax (riskMap : gmap string PrimFloat.float) (visited : gset N) (risk : PrimFloat.float)
    (node : N) (path : list N) (acc : gmap N PrimFloat.float * list Entry) (n : N)
    : gmap N PrimFloat.float * list Entry :=
  if decide (n ∈ visited) then acc
  else
    let newRisk := (getRisk riskMap node n + risk)%float in
    match acc.1 !! n with
    | Some r =>
        if (newRisk <? r)%float then
          (<[n := newRisk]> acc.1,
           acc.2 ++ [{| e_risk := newRisk; e_node := n; e_path := path ++ [n] |}])
        else if (newRisk =? r)%float then
          (acc.1,
           acc.2 ++ [{| e_risk := newRisk; e_node := n; e_path := path ++ [n] |}])
        else acc
    | None => acc
    end.

(** Body of [while (!pq.isEmpty())]. *)
Fixpoint searchLoop (graph : gmap N (list N)) (riskMap : gmap string PrimFloat.float)
    (fuel : nat) (target : N) (risks : gmap N PrimFloat.float) (visited : gset N)
    (pq : list Entry) : option (option TargetPathInfo) :=
  match fuel with
  | O => None
  | S fuel' =>
      match extractMin pq with
      | None => Some None
      | Some (e, pq') =>
          if decide (e_node e ∈ visited) then
            searchLoop graph riskMap fuel' target risks visited pq'
          else
            let visited' := {[e_node e]} ∪ visited in
            if decide (e_node e = target) then
              Some (Some {| tpi_target := target;
                            tpi_path := e_path e;
                            tpi_risk := e_risk e |})
            else
              let neighbors := default [] (graph !! e_node e) in
              let acc := foldl (relax riskMap visited' (e_risk e) (e_node e) (e_path e))
                               (risks, pq') neighbors in
              searchLoop graph riskMap fuel' target acc.1 visited' acc.2
      end
  end.

(** [sensors.forEach(sensor => risks.set(sensor.id, Infinity))] *)
Definition initRisks (sensors : list Sensor) : gmap N PrimFloat.float :=
  foldl (λ m s, <[id s := PrimFloat.infinity]> m) ∅ sensors.

Record Best := {
  minPath : option TargetPathInfo;
  minRisk : PrimFloat.float;
  bestTarget : option N
}.

Section Selection.
Variable engine : gmap string PrimFloat.float → N → option (option TargetPathInfo).

(** Body of [for (const target of remainingTargets)]. *)
Definition consider (riskMap : gmap string PrimFloat.float) (ob : option Best) (target : N)
    : option Best :=
  b ← ob;
  res ← engine riskMap target;
  match res with
  | Some pathInfo =>
      if (tpi_risk pathInfo <? minRisk b)%float
         || ((tpi_risk pathInfo =? minRisk b)%float
             && targetBelow target (bestTarget b))
      then Some {| minPath := Some pathInfo;
                   minRisk := tpi_risk pathInfo;
                   bestTarget := Some target |}
      else Some b
  | None => Some b
  end.

Fixpoint zeroPath (riskMap : gmap string PrimFloat.float) (path : list N)
    : gmap string PrimFloat.float :=
  match path with
  | a :: (b :: _) as rest => zeroPath (setRisk riskMap a b 0%float) rest
  | _ => riskMap
  end.

(** [while (remainingTargets.size > 0)] *)
Fixpoint heistLoop (fuel : nat) (riskMap : gmap string PrimFloat.float)
    (remaining : list N) (paths : list (list N)) : option (list (list N)) :=
  match fuel with
  | O => None
  | S fuel' =>
      match remaining with
      | [] => Some paths
      | _ :: _ =>
          b ← foldl (consider riskMap)
                    (Some {| minPath := None; minRisk := PrimFloat.infinity;
                             bestTarget := None |})
                    remaining;
          match minPath b with
          | Some mp =>
              heistLoop fuel' (zeroPath riskMap (tpi_path mp))
                        (filter (λ t, t ≠ tpi_target mp) remaining)
                        (paths ++ [tpi_path mp])
          | None => Some paths
          end
      end
  end.
End Selection.

Module MultiRoot.
Definition multiRootDijkstra (fuel : nat) (sensors : list Sensor)
    (graph : gmap N (list N)) (roots : list N) (riskMap : gmap string PrimFloat.float)
    (target : N) : option (option TargetPathInfo) :=
  let init :=
    foldl (λ acc root,
             (<[root := 0%float]> acc.1,
              acc.2 ++ [{| e_risk := 0%float; e_node := root; e_path := [root] |}]))
          (initRisks sensors, []) roots in
  searchLoop graph riskMap fuel target init.1 ∅ init.2.

Definition solveHeist (fuel : nat) (sensors : list Sensor) (risks : list Risk)
    (targetSensors : list N) : Outcome (option (list (list N))) :=
  bindOutcome (buildGraph sensors) (λ graph,
    Returned (heistLoop (multiRootDijkstra fuel sensors graph (findRoots sensors))
                        fuel (buildRiskMap risks) (setOfList targetSensors) [])).
End MultiRoot.

Module PerRoot.
Definition dijkstra (fuel : nat) (sensors : list Sensor) (graph : gmap N (list N))
    (riskMap : gmap string PrimFloat.float) (start target : N)
    : option (option TargetPathInfo) :=
  searchLoop graph riskMap fuel target (initRisks sensors) ∅
    [{| e_risk := 0%float; e_node := start; e_path := [start] |}].

Record BestRoot := {
  bestPath : option (list N);
  bestRisk : PrimFloat.float;
  bestRoot : option N
}.

(** Body of [for (const root of roots)]. *)
Definition considerRoot (fuel : nat) (sensors : list Sensor)
    (graph : gmap N (list N)) (riskMap : gmap string PrimFloat.float) (target : N)
    (ob : option BestRoot) (root : N) : option BestRoot :=
  b ← ob;
  res ← dijkstra fuel sensors graph riskMap root target;
  match res with
  | Some result =>
      if (tpi_risk result <? bestRisk b)%float
         || ((tpi_risk result =? bestRisk b)%float
             && targetBelow root (bestRoot b))
      then Some {| bestPath := Some (tpi_path result);
                   bestRisk := tpi_risk result;
                   bestRoot := Some root |}
      else Some b
  | None => Some b
  end.

Definition findBestPathToTarget (fuel : nat) (sensors : list Sensor)
    (graph : gmap N (list N)) (roots : list N) (riskMap : gmap string PrimFloat.float)
    (target : N) : option (option TargetPathInfo) :=
  b ← foldl (considerRoot fuel sensors graph riskMap target)
            (Some {| bestPath := None; bestRisk := PrimFloat.infinity;
                     bestRoot := None |})
            roots;
  Some match bestPath b with
       | Some p => Some {| tpi_target := target; tpi_path := p;
                           tpi_risk := bestRisk b |}
       | None => None
       end.

Definition solveHeist (fuel : nat) (sensors : list Sensor) (risks : list Risk)
    (targetSensors : list N) : Outcome (option (list (list N))) :=
  bindOutcome (buildGraph sensors) (λ graph,
    Returned (heistLoop (findBestPathToTarget fuel sensors graph (findRoots sensors))
                        fuel (buildRiskMap risks) (setOfList targetSensors) [])).
End PerRoot.
End Double.

(** A risk of the input list as the code reads it. *)
Definition toDouble (r : Risk) : Double.Risk :=
  {| Double.fromSensor := fromSensor r;
     Double.toSensor := toSensor r;
     Double.risk := Double.ofInteger (risk r) |}.

(** ** A second queue implementation: entries pushed on a stack *)

Record StackQueue := { sq_items : list Entry }.

#[export] Instance stackQueue : MinPriorityQueue StackQueue := {
  pq_new := {| sq_items := [] |};
  enqueue e q := {| sq_items := e :: sq_items q |};
  dequeue q :=
    match extractMin (sq_items q) with
    | Some (e, rest) => Some (e, {| sq_items := rest |})
    | None => None
    end;
  pq_items := sq_items
}.

(** ** Vocabulary of the specification *)

(** Some path leads from one of [roots] to [t]. *)
Definition reachable (graph : gmap N (list N)) (roots : list N) (t : N) : Prop :=
  ∃ p, isPathFrom graph roots p t = true.

(** Position-by-position numeric comparison of node identifiers; a proper
    prefix comes first. *)
Fixpoint pathBefore (p q : list N) : bool :=
  match p, q with
  | [], _ :: _ => true
  | x :: p', y :: q' => (x <? y)%N || ((x =? y)%N && pathBefore p' q')
  | _, _ => false
  end.

(** [info] is a path from one of [roots] to [target] whose reported risk is
    the sum of its edge risks and is least among all such paths. *)
Definition minimumRiskPath (graph : gmap N (list N)) (roots : list N)
    (riskMap : gmap string Z) (target : N) (info : TargetPathInfo) : Prop :=
  tpi_target info = target ∧
  isPathFrom graph roots (tpi_path info) target = true ∧
  tpi_risk info = pathRisk riskMap (tpi_path info) ∧
  ∀ p, isPathFrom graph roots p target = true →
       (tpi_risk info ≤ pathRisk riskMap p)%Z.

(** Every edge leads to a node of higher rank. *)
Definition rankedGraph (rank : N → nat) (graph : gmap N (list N)) : Prop :=
  map_Forall (λ u l, Forall (λ v, (rank u < rank v)%nat) l) graph.

Definition acyclic (graph : gmap N (list N)) : Prop :=
  ∃ rank, rankedGraph rank graph.

(** Roots are ordered as numbers the way the paths that start at them are
    ordered as joined strings. *)
Definition rootsSortAsStrings (roots : list N) : Prop :=
  ∀ r1 r2 p q, r1 ∈ roots → r2 ∈ roots → (r1 < r2)%N →
    (joinPath (r1 :: p) ?= joinPath (r2 :: q))%string = Lt.

(** Some declared dependency is not the id of any node. *)
Definition unknownDependency (sensors : list Sensor) : Prop :=
  ∃ s d, s ∈ sensors ∧ d ∈ dependencies s ∧ d ∉ id <$> sensors.

(** Sum of the magnitudes of a list of integers. *)
Definition absSum (l : list Z) : Z := foldr (λ v acc, (Z.abs v + acc)%Z) 0%Z l.

(** The range in which the code's numbers are the integers of this
    development: the magnitudes of the risks sum to less than 2^53, so every
    sum of risks of distinct edges is an integer that a JavaScript number
    holds exactly, and the additions of the code do not round. *)
Definition safeRiskList (risks : list Risk) : Prop :=
  (absSum (risk <$> risks) < 2 ^ 53)%Z.

Definition safeRisks (riskMap : gmap string Z) : Prop :=
  (absSum (map_to_list riskMap).*2 < 2 ^ 53)%Z.

Definition safeScanRisks (riskMap : list (Scan.Edge * Z)) : Prop :=
  (absSum riskMap.*2 < 2 ^ 53)%Z.

(** Identifiers below 2^53 are printed by the code digit by digit, as
    [joinPath] prints them. From 2^53 on the code prints the shortest digits
    that identify the number, filled up with zeros, and from 10^21 on it
    prints an exponent. *)
Definition decimalIds (sensors : list Sensor) : Prop :=
  Forall (λ s, (id s < 2 ^ 53)%N) sensors.

(** [u] is a declared dependency of a sensor with identifier [v]. *)
Definition declares (sensors : list Sensor) (u v : N) : Prop :=
  ∃ s, s ∈ sensors ∧ id s = v ∧ u ∈ dependencies s.

(** [t] is the identifier of a sensor without dependencies, or comes after
    one along declared dependencies: reachability read off the input. *)
Inductive reaches (sensors : list Sensor) : N → Prop :=
  | reaches_root s :
      s ∈ sensors → dependencies s = [] → reaches sensors (id s)
  | reaches_step u v :
      reaches sensors u → declares sensors u v → reaches sensors v.

(** ** Scenarios of the test suite, and three more *)

Module Scenario.
Definition sensor (i : N) (deps : list N) : Sensor :=
  {| id := i; dependencies := deps |}.
Definition edgeRisk (a b : N) (r : Z) : Risk :=
  {| fromSensor := a; toSensor := b; risk := r |}.

(** "Find best paths in small test case" *)
Definition smallSensors : list Sensor :=
  [sensor 0 []; sensor 1 []; sensor 2 [0; 1]; sensor 3 [0; 1];
   sensor 4 [2; 3]; sensor 5 [2; 3]; sensor 6 [4; 5]]%N.
Definition smallRisks : list Risk :=
  [edgeRisk 0 2 5; edgeRisk 1 2 3; edgeRisk 0 3 4; edgeRisk 1 3 6;
   edgeRisk 2 4 2; edgeRisk 3 4 3; edgeRisk 2 5 4; edgeRisk 3 5 2;
   edgeRisk 4 6 1; edgeRisk 5 6 1].
Definition smallGraph : gmap N (list N) :=
  list_to_map [(0, [2; 3]); (1, [2; 3]); (2, [4; 5]); (3, [4; 5]);
               (4, [6]); (5, [6]); (6, [])]%N.

(** "should use smaller ID when paths have equal cost" *)
Definition tieSensors : list Sensor :=
  [sensor 0 []; sensor 1 []; sensor 2 [0; 1]]%N.
Definition tieRisks : list Risk := [edgeRisk 0 2 5; edgeRisk 1 2 5].

(** Two equal-risk paths whose second nodes are 2 and 10. *)
Definition wideSensors : list Sensor :=
  [sensor 0 []; sensor 2 [0]; sensor 10 [0]; sensor 11 [2; 10]]%N.
Definition wideGraph : gmap N (list N) :=
  list_to_map [(0, [2; 10]); (2, [11]); (10, [11]); (11, [])]%N.

(** Two roots, 2 and 10, one edge each into the target. *)
Definition twoRootSensors : list Sensor :=
  [sensor 2 []; sensor 10 []; sensor 11 [2; 10]]%N.

(** Sensor 1 depends on 7, which is not a sensor. *)
Definition danglingSensors : list Sensor :=
  [sensor 0 []; sensor 1 [0; 7]]%N.
Definition danglingRisks : list Risk := [edgeRisk 0 1 3].
End Scenario.

(** Inputs with risks near the limits of the code's numbers. *)
Module LargeRisks.
(** Two paths from 0 to 3; the risks along [0,1,3] sum to 2^53 + 1, those
    along [0,2,3] to 2^53. *)
Definition forkSensors : list Sensor :=
  [Scenario.sensor 0 []; Scenario.sensor 1 [0]; Scenario.sensor 2 [0];
   Scenario.sensor 3 [1; 2]]%N.
Definition forkRisks : list Risk :=
  [Scenario.edgeRisk 0 1 (2 ^ 53); Scenario.edgeRisk 1 3 1;
   Scenario.edgeRisk 0 2 (2 ^ 53); Scenario.edgeRisk 2 3 0].
Definition forkGraph : gmap N (list N) :=
  list_to_map [(0, [1; 2]); (1, [3]); (2, [3]); (3, [])]%N.

(** A chain 0, 1, 2 whose two edges have risk 1e308 each. *)
Definition chainSensors : list Sensor :=
  [Scenario.sensor 0 []; Scenario.sensor 1 [0]; Scenario.sensor 2 [1]]%N.
Definition hugeRisks : list Double.Risk :=
  [{| Double.fromSensor := 0; Double.toSensor := 1; Double.risk := Double.huge |};
   {| Double.fromSensor := 1; Double.toSensor := 2; Double.risk := Double.huge |}]%N.
Definition chainGraph : gmap N (list N) :=
  list_to_map [(0, [1]); (1, [2]); (2, [])]%N.

(** Roots 0 and 2 into node 3, which leads to 4: the risks along [0,3,4]
    sum to 2^53 + 1, those along [2,3,4] to 2^53. *)
Definition joinSensors : list Sensor :=
  [Scenario.sensor 0 []; Scenario.sensor 2 []; Scenario.sensor 3 [0; 2];
   Scenario.sensor 4 [3]]%N.
Definition joinRisks : list Risk :=
  [Scenario.edgeRisk 0 3 1; Scenario.edgeRisk 3 4 (2 ^ 53)].
End LargeRisks.

(** * Properties *)

(** ** Paths as walks grown at the end *)

Inductive walk (graph : gmap N (list N)) (starts : list N) : list N → N → Prop :=
  | walk_start r : r ∈ starts → walk graph starts [r] r
  | walk_step p u v :
      walk graph starts p u → isEdge graph u v = true →
      walk graph starts (p ++ [v]) v.

Lemma walk_last graph starts p t : walk graph starts p t → last p = Some t.
Proof. induction 1; [done | by rewrite last_snoc]. Qed.

Lemma walk_head graph starts p t :
  walk graph starts p t → ∃ r, head p = Some r ∧ r ∈ starts.
Proof.
  induction 1 as [r Hr | p u v _ (r & Hh & Hr) _]; [by exists r |].
  exists r. split; [| done]. destruct p; [done | exact Hh].
Qed.

Lemma isChain_snoc graph p u v :
  last p = Some u →
  isChain graph (p ++ [v]) = isChain graph p && isEdge graph u v.
Proof.
  induction p as [| a [| b p] IH]; intros Hl; simplify_eq/=.
  - by rewrite andb_true_r.
  - rewrite IH; [by rewrite andb_assoc | done].
Qed.

Lemma pathRisk_snoc riskMap p u v :
  last p = Some u →
  pathRisk riskMap (p ++ [v]) = (pathRisk riskMap p + getRisk riskMap u v)%Z.
Proof.
  induction p as [| a [| b p] IH]; intros Hl; simplify_eq/=.
  - lia.
  - rewrite IH; [lia | done].
Qed.

Lemma walk_isPathFrom graph starts p t :
  walk graph starts p t ↔ isPathFrom graph starts p t = true.
Proof.
  unfold isPathFrom. split.
  - induction 1 as [r Hr | p u v Hw IH He].
    + simpl. rewrite !bool_decide_eq_true_2; done.
    + apply andb_true_iff in IH as [IH Hc]. apply andb_true_iff in IH as [Hh Hl].
      apply bool_decide_eq_true in Hl.
      rewrite last_snoc, (isChain_snoc _ _ u) by done.
      rewrite Hc, He. destruct p; [done |]. simpl in *. rewrite Hh.
      by rewrite bool_decide_eq_true_2.
  - revert t. induction p as [| v p IH] using rev_ind; intros t Hp; [done |].
    apply andb_true_iff in Hp as [Hp Hc]. apply andb_true_iff in Hp as [Hh Hl].
    apply bool_decide_eq_true in Hl. rewrite last_snoc in Hl. simplify_eq.
    destruct (last p) as [u |] eqn:Hu.
    + rewrite (isChain_snoc _ _ u) in Hc by done.
      apply andb_true_iff in Hc as [Hc He].
      apply walk_step with u; [| done]. apply IH.
      rewrite Hc, andb_true_r. rewrite bool_decide_eq_true_2 by done.
      rewrite andb_true_r. destruct p; [done | exact Hh].
    + apply last_None in Hu as ->. simpl in *.
      apply walk_start. by apply bool_decide_eq_true in Hh.
Qed.

(** ** Risk store basics *)

Lemma getRisk_nonneg riskMap u v : nonNegative riskMap → (0 ≤ getRisk riskMap u v)%Z.
Proof.
  intros Hnn. unfold getRisk.
  destruct (riskMap !! riskKey u v) as [r |] eqn:Hr; simpl; [| lia].
  exact (map_Forall_lookup_1 _ _ _ _ Hnn Hr).
Qed.

Lemma compareEntries_risk_le a b :
  compareEntries a b ≠ Gt → (e_risk a ≤ e_risk b)%Z.
Proof.
  unfold compareEntries. case_decide as Hne.
  - intros Hc. by apply Z.compare_le_iff.
  - intros _. destruct (decide (e_risk a = e_risk b)); [lia | done].
Qed.

Lemma isEdge_neighbors graph u v :
  isEdge graph u v = true ↔ v ∈ default [] (graph !! u).
Proof. unfold isEdge. apply bool_decide_eq_true. Qed.

(** ** The order on frontier entries and the reference queue *)

Lemma compareEntries_le_iff a b :
  compareEntries a b ≠ Gt ↔
  (e_risk a < e_risk b)%Z ∨
  (e_risk a = e_risk b ∧
   String.le (joinPath (e_path a)) (joinPath (e_path b))).
Proof.
  unfold compareEntries, String.le, String.leb. case_decide as Hne.
  - rewrite Z.compare_le_iff. split; [intros ?; left; lia | intros [? | [? _]]; lia].
  - assert (e_risk a = e_risk b) as Heq
      by (destruct (decide (e_risk a = e_risk b)); done).
    destruct (joinPath (e_path a) ?= joinPath (e_path b))%string; simpl;
      split; try done; try (intros _; right; done); intros [? | [_ []]]; lia.
Qed.

Lemma compareEntries_refl a : compareEntries a a ≠ Gt.
Proof. apply compareEntries_le_iff. right. done. Qed.

Lemma compareEntries_trans a b c :
  compareEntries a b ≠ Gt → compareEntries b c ≠ Gt → compareEntries a c ≠ Gt.
Proof.
  rewrite !compareEntries_le_iff.
  intros [? | [? Hab]] [? | [? Hbc]]; [left; lia.. |].
  right. split; [lia |]. by etrans.
Qed.

Lemma compareEntries_antisym a b :
  compareEntries b a = CompOpp (compareEntries a b).
Proof.
  unfold compareEntries. repeat case_decide; try congruence.
  - apply Z.compare_antisym.
  - apply String.compare_antisym.
Qed.

Lemma compareEntries_flip a b :
  compareEntries a b = Gt → compareEntries b a ≠ Gt.
Proof. intros Hgt. by rewrite compareEntries_antisym, Hgt. Qed.

Lemma extractMin_None l : extractMin l = None ↔ l = [].
Proof.
  destruct l as [| x l]; simpl; [done |]. split; [| done].
  destruct (extractMin l) as [[m rest] |]; [| done].
  by destruct (compareEntries x m).
Qed.

Lemma extractMin_perm l : ∀ e rest, extractMin l = Some (e, rest) → l ≡ₚ e :: rest.
Proof.
  induction l as [| x l IH]; intros e rest Hex; simpl in Hex; [done |].
  destruct (extractMin l) as [[m r] |] eqn:Hl.
  - specialize (IH _ _ eq_refl).
    destruct (compareEntries x m); simplify_eq; [done | done |].
    rewrite IH. apply Permutation_swap.
  - apply extractMin_None in Hl as ->. by simplify_eq.
Qed.

Lemma extractMin_min l : ∀ e rest x,
  extractMin l = Some (e, rest) → x ∈ l → compareEntries e x ≠ Gt.
Proof.
  induction l as [| y l IH]; intros e rest x Hex Hx; simpl in Hex; [done |].
  assert (∀ z, compareEntries z z ≠ Gt) as Hrefl.
  { intros z. apply compareEntries_le_iff. right. done. }
  destruct (extractMin l) as [[m r] |] eqn:Hl.
  - specialize (IH _ _ x eq_refl).
    destruct (compareEntries y m) eqn:Hym; simplify_eq.
    + apply elem_of_cons in Hx as [-> | Hx]; [done |].
      eapply compareEntries_trans; [| by apply IH]. congruence.
    + apply elem_of_cons in Hx as [-> | Hx]; [done |].
      eapply compareEntries_trans; [| by apply IH]. congruence.
    + apply elem_of_cons in Hx as [-> | Hx]; [by apply compareEntries_flip | by apply IH].
  - apply extractMin_None in Hl as ->. simplify_eq.
    apply elem_of_cons in Hx as [-> | Hx]; [done | by apply elem_of_nil in Hx].
Qed.

#[export] Instance listQueue_laws : MinPriorityQueueLaws (list Entry).
Proof.
  split; simpl.
  - done.
  - intros e q. symmetry. apply Permutation_cons_append.
  - apply extractMin_None.
  - intros q e q'. apply extractMin_perm.
  - intros q e q' x. apply extractMin_min.
Qed.

(** ** Queue contract: derived facts *)

Section QueueFacts.
Context {Q : Type} `{MinPriorityQueueLaws Q}.

Lemma dequeue_subset (q q' : Q) e x :
  dequeue q = Some (e, q') → x ∈ pq_items q' → x ∈ pq_items q.
Proof. intros Hd Hx. rewrite (dequeue_items _ _ _ Hd). by right. Qed.

Lemma dequeue_head (q q' : Q) e :
  dequeue q = Some (e, q') → e ∈ pq_items q.
Proof. intros Hd. rewrite (dequeue_items _ _ _ Hd). by left. Qed.

Lemma dequeue_other (q q' : Q) e x :
  dequeue q = Some (e, q') → x ∈ pq_items q → x ≠ e → x ∈ pq_items q'.
Proof.
  intros Hd Hx Hne. rewrite (dequeue_items _ _ _ Hd) in Hx.
  apply elem_of_cons in Hx as [? | ?]; done.
Qed.

Lemma dequeue_length (q q' : Q) e :
  dequeue q = Some (e, q') → length (pq_items q) = S (length (pq_items q')).
Proof. intros Hd. by rewrite (dequeue_items _ _ _ Hd). Qed.

Lemma enqueue_elem (q : Q) e x :
  x ∈ pq_items (enqueue e q) ↔ x = e ∨ x ∈ pq_items q.
Proof. rewrite enqueue_items. apply elem_of_cons. Qed.

Lemma enqueue_length (q : Q) e :
  length (pq_items (enqueue e q)) = S (length (pq_items q)).
Proof. by rewrite enqueue_items. Qed.
End QueueFacts.

(** ** Invariants of the search loop *)

Section SearchProofs.
Context {Q : Type} `{MinPriorityQueueLaws Q}.
Variable graph : gmap N (list N).
Variable riskMap : gmap string Z.
Variable starts : list N.
Variable target : N.

(** What every frontier state satisfies, whatever has been relaxed. *)
Record baseInv (risks : gmap N Num) (visited : gset N) (pq : Q) : Prop := {
  base_entries : ∀ e, e ∈ pq_items pq →
    walk graph starts (e_path e) (e_node e) ∧
    pathRisk riskMap (e_path e) = e_risk e;
  base_starts : ∀ r, r ∈ starts → r ∉ visited →
    {| e_risk := 0; e_node := r; e_path := [r] |} ∈ pq_items pq;
  base_best : ∀ n c, risks !! n = Some (Finite c) → n ∉ visited →
    ∃ e, e ∈ pq_items pq ∧ e_node e = n ∧ e_risk e = c;
  base_dom : ∀ u v, isEdge graph u v = true → is_Some (risks !! v)
}.

(** Every finalised node has a bound [D] below all its walks, and each of
    its pending neighbours has a frontier entry within [D] plus the edge. *)
Definition frontier (visited : gset N) (pq : Q) : Prop :=
  ∀ x, x ∈ visited → ∃ D : Z,
    (nonNegative riskMap →
     ∀ p, walk graph starts p x → (D ≤ pathRisk riskMap p)%Z) ∧
    ∀ z, isEdge graph x z = true → z ∉ visited →
      ∃ e, e ∈ pq_items pq ∧ e_node e = z ∧
           (e_risk e ≤ D + getRisk riskMap x z)%Z.

Record searchInv (risks : gmap N Num) (visited : gset N) (pq : Q) : Prop := {
  inv_base : baseInv risks visited pq;
  inv_frontier : frontier visited pq;
  inv_target : target ∉ visited
}.

Lemma frontier_entry risks visited pq p y :
  searchInv risks visited pq → walk graph starts p y → y ∉ visited →
  ∃ e, e ∈ pq_items pq ∧
       (nonNegative riskMap → (e_risk e ≤ pathRisk riskMap p)%Z).
Proof.
  intros Hinv Hw. induction Hw as [r Hr | p u v Hw IH He]; intros Hy.
  - exists {| e_risk := 0; e_node := r; e_path := [r] |}.
    split; [by apply (base_starts _ _ _ (inv_base _ _ _ Hinv)) |].
    intros _. simpl. lia.
  - pose proof (walk_last _ _ _ _ Hw) as Hl.
    destruct (decide (u ∈ visited)) as [Hu | Hu].
    + destruct (inv_frontier _ _ _ Hinv u Hu) as (D & HD & Hz).
      destruct (Hz v He Hy) as (e & Hin & _ & Hle).
      exists e. split; [done |]. intros Hnn.
      rewrite (pathRisk_snoc _ _ u) by done.
      specialize (HD Hnn p Hw). lia.
    + destruct (IH Hu) as (e & Hin & Hle).
      exists e. split; [done |]. intros Hnn.
      rewrite (pathRisk_snoc _ _ u) by done.
      specialize (Hle Hnn). pose proof (getRisk_nonneg _ u v Hnn). lia.
Qed.

(** *** One neighbour *)

Lemma relax_cases vis risk node path risks (pq : Q) n :
  let e := {| e_risk := getRisk riskMap node n + risk;
              e_node := n; e_path := path ++ [n] |} in
  relax riskMap vis risk node path (risks, pq) n = (risks, pq) ∨
  ((n ∉ vis) ∧ is_Some (risks !! n) ∧
   (relax riskMap vis risk node path (risks, pq) n
      = (<[n := Finite (e_risk e)]> risks, enqueue e pq) ∨
    relax riskMap vis risk node path (risks, pq) n = (risks, enqueue e pq))).
Proof.
  intros e. unfold relax. simpl. case_decide; [by left |].
  destruct (risks !! n) as [r |] eqn:Hr; [| by left].
  destruct (num_lt _ r); [right; eauto |].
  destruct (num_eq _ r); [right; eauto | by left].
Qed.

Lemma relax_mono vis risk node path risks (pq : Q) n x :
  x ∈ pq_items pq →
  x ∈ pq_items (relax riskMap vis risk node path (risks, pq) n).2.
Proof.
  intros Hx.
  destruct (relax_cases vis risk node path risks pq n)
    as [-> | (_ & _ & [-> | ->])]; simpl; [done | |];
    apply enqueue_elem; by right.
Qed.

Lemma relax_length vis risk node path risks (pq : Q) n :
  length (pq_items (relax riskMap vis risk node path (risks, pq) n).2)
  ≤ S (length (pq_items pq)).
Proof.
  destruct (relax_cases vis risk node path risks pq n)
    as [-> | (_ & _ & [-> | ->])]; simpl; rewrite ?enqueue_length; lia.
Qed.

Lemma relax_base vis risk node path risks (pq : Q) n :
  baseInv risks vis pq →
  walk graph starts path node → pathRisk riskMap path = risk →
  isEdge graph node n = true →
  baseInv (relax riskMap vis risk node path (risks, pq) n).1 vis
          (relax riskMap vis risk node path (risks, pq) n).2.
Proof.
  intros [Hent Hst Hbest Hdom] Hw Hrisk He.
  assert (walk graph starts (path ++ [n]) n ∧
          pathRisk riskMap (path ++ [n]) = (getRisk riskMap node n + risk)%Z)
    as Hnew.
  { split; [by eapply walk_step |].
    rewrite (pathRisk_snoc _ _ node) by (by eapply walk_last). lia. }
  destruct (relax_cases vis risk node path risks pq n)
    as [-> | (Hn & _ & [-> | ->])]; simpl; [done | |].
  - split.
    + intros x [-> | Hx]%enqueue_elem; [exact Hnew | by apply Hent].
    + intros r Hr Hv. apply enqueue_elem. right. by apply Hst.
    + intros k c Hk Hv. destruct (decide (k = n)) as [-> | Hkn].
      * rewrite lookup_insert_eq in Hk. simplify_eq.
        eexists. split; [apply enqueue_elem; by left | done].
      * rewrite lookup_insert_ne in Hk by done.
        destruct (Hbest k c Hk Hv) as (x & Hx & ?).
        exists x. split; [apply enqueue_elem; by right | done].
    + intros u v Huv. destruct (decide (v = n)) as [-> | Hvn].
      * rewrite lookup_insert_eq. by eexists.
      * rewrite lookup_insert_ne by done. by eapply Hdom.
  - split; [| | | done].
    + intros x [-> | Hx]%enqueue_elem; [exact Hnew | by apply Hent].
    + intros r Hr Hv. apply enqueue_elem. right. by apply Hst.
    + intros k c Hk Hv. destruct (Hbest k c Hk Hv) as (x & Hx & ?).
      exists x. split; [apply enqueue_elem; by right | done].
Qed.

Lemma relax_covers vis risk node path risks (pq : Q) n :
  baseInv risks vis pq → n ∉ vis → is_Some (risks !! n) →
  ∃ e, e ∈ pq_items (relax riskMap vis risk node path (risks, pq) n).2 ∧
       e_node e = n ∧
       compareEntries e {| e_risk := getRisk riskMap node n + risk;
                           e_node := n; e_path := path ++ [n] |} ≠ Gt.
Proof.
  intros Hb Hn [r Hr]. unfold relax. simpl.
  rewrite decide_False by done. rewrite Hr.
  destruct (num_lt _ r) eqn:Hlt; simpl.
  { eexists. split; [apply enqueue_elem; by left |].
    split; [done | apply compareEntries_refl]. }
  destruct (num_eq _ r) eqn:Heq; simpl.
  { eexists. split; [apply enqueue_elem; by left |].
    split; [done | apply compareEntries_refl]. }
  destruct r as [c |]; [| done]. simpl in *.
  destruct (base_best _ _ _ Hb n c Hr Hn) as (x & Hx & Hxn & Hxr).
  exists x. split; [done |]. split; [done |].
  apply compareEntries_le_iff. left. simpl. lia.
Qed.

(** *** All the neighbours *)

Lemma relaxAll_mono vis risk node path ns : ∀ risks (pq : Q) x,
  x ∈ pq_items pq →
  x ∈ pq_items (foldl (relax riskMap vis risk node path) (risks, pq) ns).2.
Proof.
  induction ns as [| n ns IH]; intros risks pq x Hx; [done |]. simpl.
  destruct (relax riskMap vis risk node path (risks, pq) n) as [risks' pq'] eqn:E.
  apply IH. change pq' with (risks', pq').2. rewrite <- E. by apply relax_mono.
Qed.

Lemma relaxAll_length vis risk node path ns : ∀ risks (pq : Q),
  length (pq_items (foldl (relax riskMap vis risk node path) (risks, pq) ns).2)
  ≤ length ns + length (pq_items pq).
Proof.
  induction ns as [| n ns IH]; intros risks pq; [simpl; lia |]. simpl.
  pose proof (relax_length vis risk node path risks pq n) as Hl.
  destruct (relax riskMap vis risk node path (risks, pq) n) as [risks' pq'].
  specialize (IH risks' pq'). simpl in Hl. lia.
Qed.

Lemma relaxAll_base vis risk node path ns : ∀ risks (pq : Q),
  baseInv risks vis pq →
  walk graph starts path node → pathRisk riskMap path = risk →
  (∀ n, n ∈ ns → isEdge graph node n = true) →
  baseInv (foldl (relax riskMap vis risk node path) (risks, pq) ns).1 vis
          (foldl (relax riskMap vis risk node path) (risks, pq) ns).2.
Proof.
  induction ns as [| n ns IH]; intros risks pq Hb Hw Hr He; [done |]. simpl.
  pose proof (relax_base vis risk node path risks pq n Hb Hw Hr) as Hb'.
  destruct (relax riskMap vis risk node path (risks, pq) n) as [risks' pq'].
  apply IH; [| done.. |].
  - apply Hb', He. by left.
  - intros m Hm. apply He. by right.
Qed.

Lemma relaxAll_covers vis risk node path ns : ∀ risks (pq : Q) n,
  baseInv risks vis pq →
  walk graph starts path node → pathRisk riskMap path = risk →
  (∀ n, n ∈ ns → isEdge graph node n = true) →
  n ∈ ns → n ∉ vis →
  ∃ e, e ∈ pq_items (foldl (relax riskMap vis risk node path) (risks, pq) ns).2 ∧
       e_node e = n ∧
       compareEntries e {| e_risk := getRisk riskMap node n + risk;
                           e_node := n; e_path := path ++ [n] |} ≠ Gt.
Proof.
  induction ns as [| m ns IH]; intros risks pq n Hb Hw Hr He Hn Hv;
    [by apply elem_of_nil in Hn |]. simpl.
  pose proof (relax_base vis risk node path risks pq m Hb Hw Hr) as Hb'.
  pose proof (relax_covers vis risk node path risks pq m Hb) as Hc.
  destruct (relax riskMap vis risk node path (risks, pq) m) as [risks' pq'].
  simpl in *.
  assert (isEdge graph node m = true) as Hm by (apply He; by left).
  apply elem_of_cons in Hn as [-> | Hn].
  - destruct Hc as (e & Hin & ? & ?); [done | by eapply base_dom |].
    exists e. split; [by apply relaxAll_mono | done].
  - apply IH; [by apply Hb' | done.. | | done | done].
    intros k Hk. apply He. by right.
Qed.

(** *** One iteration of the loop *)

Lemma baseInv_dequeue risks visited vis' (pq pq' : Q) e :
  baseInv risks visited pq → dequeue pq = Some (e, pq') →
  visited ⊆ vis' → e_node e ∈ vis' →
  baseInv risks vis' pq'.
Proof.
  intros [Hent Hst Hbest Hdom] Hd Hsub He. split; [| | | done].
  - intros x Hx. apply Hent. by eapply dequeue_subset.
  - intros r Hr Hv. eapply dequeue_other; [done | |].
    + apply Hst; [done |]. intros ?. by apply Hv, Hsub.
    + intros Heq. apply Hv. by rewrite <- Heq in He.
  - intros n c Hn Hv. destruct (Hbest n c Hn) as (x & Hx & Hxn & ?);
      [intros ?; by apply Hv, Hsub |].
    exists x. split; [| done]. eapply dequeue_other; [done.. |].
    intros ->. congruence.
Qed.

Lemma step_stale risks visited (pq pq' : Q) e :
  searchInv risks visited pq → dequeue pq = Some (e, pq') →
  e_node e ∈ visited → searchInv risks visited pq'.
Proof.
  intros [Hb Hf Ht] Hd He. split; [by eapply baseInv_dequeue | | done].
  intros x Hx. destruct (Hf x Hx) as (D & HD & Hz).
  exists D. split; [done |]. intros z Hxz Hv.
  destruct (Hz z Hxz Hv) as (y & Hy & Hyn & ?).
  exists y. split; [| done]. eapply dequeue_other; [done.. |].
  intros ->. congruence.
Qed.

Lemma step_visit risks visited (pq pq' : Q) e :
  searchInv risks visited pq → dequeue pq = Some (e, pq') →
  e_node e ∉ visited → e_node e ≠ target →
  searchInv
    (foldl (relax riskMap ({[e_node e]} ∪ visited) (e_risk e) (e_node e) (e_path e))
           (risks, pq') (default [] (graph !! e_node e))).1
    ({[e_node e]} ∪ visited)
    (foldl (relax riskMap ({[e_node e]} ∪ visited) (e_risk e) (e_node e) (e_path e))
           (risks, pq') (default [] (graph !! e_node e))).2.
Proof.
  intros Hinv Hd He Hne.
  pose proof Hinv as [Hb Hf Ht].
  destruct (base_entries _ _ _ Hb e (dequeue_head _ _ _ Hd)) as [Hw Hr].
  assert (baseInv risks ({[e_node e]} ∪ visited) pq') as Hb'.
  { eapply baseInv_dequeue; [done.. | apply union_subseteq_r |].
    apply elem_of_union_l. by apply elem_of_singleton. }
  assert (∀ n, n ∈ default [] (graph !! e_node e) →
               isEdge graph (e_node e) n = true) as Hedges.
  { intros n Hn. by apply isEdge_neighbors. }
  split; [by apply relaxAll_base | |].
  2: { intros [Hin%elem_of_singleton | Hin]%elem_of_union; congruence. }
  intros x Hx. destruct (decide (x = e_node e)) as [-> | Hxe].
  - exists (e_risk e). split.
    + intros Hnn p Hp.
      destruct (frontier_entry _ _ _ _ _ Hinv Hp He) as (y & Hy & Hle).
      specialize (Hle Hnn).
      pose proof (compareEntries_risk_le _ _ (dequeue_min _ _ _ _ Hd Hy)). lia.
    + intros z Hz Hv.
      destruct (relaxAll_covers ({[e_node e]} ∪ visited) (e_risk e) (e_node e)
                  (e_path e) (default [] (graph !! e_node e)) risks pq' z)
        as (y & Hy & Hyn & Hle); [done.. | by apply isEdge_neighbors | done |].
      exists y. split; [done |]. split; [done |].
      apply compareEntries_risk_le in Hle. simpl in Hle. lia.
  - assert (x ∈ visited) as Hxv.
    { apply elem_of_union in Hx as [Hx%elem_of_singleton | Hx]; done. }
    destruct (Hf x Hxv) as (D & HD & Hz).
    exists D. split; [done |]. intros z Hxz Hv.
    destruct (Hz z Hxz) as (y & Hy & Hyn & ?).
    { intros ?. apply Hv. by apply elem_of_union_r. }
    exists y. split; [| done]. apply relaxAll_mono.
    eapply dequeue_other; [done.. |]. intros ->.
    apply Hv. apply elem_of_union_l. by apply elem_of_singleton.
Qed.

(** *** The whole loop *)

Lemma searchLoop_sound fuel : ∀ risks visited (pq : Q) info,
  searchInv risks visited pq →
  searchLoop graph riskMap fuel target risks visited pq = Some (Some info) →
  tpi_target info = target ∧
  walk graph starts (tpi_path info) target ∧
  pathRisk riskMap (tpi_path info) = tpi_risk info ∧
  (nonNegative riskMap →
   ∀ p, walk graph starts p target → (tpi_risk info ≤ pathRisk riskMap p)%Z).
Proof.
  induction fuel as [| fuel IH]; intros risks visited pq info Hinv Hrun; [done |].
  simpl in Hrun.
  destruct (dequeue pq) as [[e pq'] |] eqn:Hd; [| done].
  destruct (decide (e_node e ∈ visited)) as [Hv | Hv].
  { eapply IH; [| done]. by eapply step_stale. }
  destruct (decide (e_node e = target)) as [Ht | Ht].
  - injection Hrun as <-. simpl.
    destruct (base_entries _ _ _ (inv_base _ _ _ Hinv) e (dequeue_head _ _ _ Hd))
      as [Hw Hr].
    rewrite Ht in Hw, Hv.
    split; [done |]. split; [done |]. split; [done |]. intros Hnn p Hp.
    destruct (frontier_entry _ _ _ _ _ Hinv Hp Hv) as (y & Hy & Hle).
    specialize (Hle Hnn).
    pose proof (compareEntries_risk_le _ _ (dequeue_min _ _ _ _ Hd Hy)). lia.
  - eapply IH; [| done]. by eapply step_visit.
Qed.

Lemma searchLoop_complete fuel : ∀ risks visited (pq : Q) p,
  searchInv risks visited pq →
  searchLoop graph riskMap fuel target risks visited pq = Some None →
  ¬ walk graph starts p target.
Proof.
  induction fuel as [| fuel IH]; intros risks visited pq p Hinv Hrun; [done |].
  simpl in Hrun.
  destruct (dequeue pq) as [[e pq'] |] eqn:Hd.
  - destruct (decide (e_node e ∈ visited)) as [Hv | Hv].
    { eapply IH; [| done]. by eapply step_stale. }
    destruct (decide (e_node e = target)) as [Ht | Ht]; [done |].
    eapply IH; [| done]. by eapply step_visit.
  - intros Hp. apply dequeue_None in Hd.
    destruct (frontier_entry _ _ _ _ _ Hinv Hp (inv_target _ _ _ Hinv))
      as (y & Hy & _).
    rewrite Hd in Hy. by apply elem_of_nil in Hy.
Qed.
End SearchProofs.

(** ** Termination of the search loop *)

Lemma edgeBudget_other (l : list (N * list N)) (visited : gset N) node :
  (∀ kv, kv ∈ l → kv.1 ≠ node) →
  sum_list_with (λ kv : N * list N,
                   if decide (kv.1 ∈ {[node]} ∪ visited) then 0%nat else length kv.2) l
  = sum_list_with (λ kv : N * list N,
                     if decide (kv.1 ∈ visited) then 0%nat else length kv.2) l.
Proof.
  induction l as [| kv l IH]; intros Hne; [done |]. simpl.
  rewrite IH by (intros ? ?; apply Hne; by right).
  assert (kv.1 ≠ node) as Hkv by (apply Hne; by left).
  destruct (decide (kv.1 ∈ visited)) as [Hv | Hv].
  - rewrite decide_True; [done | by apply elem_of_union_r].
  - rewrite decide_False; [done |].
    intros [Hin%elem_of_singleton | Hin]%elem_of_union; done.
Qed.

Lemma edgeBudget_visit graph (visited : gset N) node :
  node ∉ visited →
  (edgeBudget graph ({[node]} ∪ visited) + length (default [] (graph !! node)))%nat
  = edgeBudget graph visited.
Proof.
  intros Hv. unfold edgeBudget.
  destruct (graph !! node) as [l |] eqn:Hl; simpl.
  - rewrite <- (map_to_list_delete graph node l Hl). simpl.
    rewrite decide_True by (apply elem_of_union_l; by apply elem_of_singleton).
    rewrite decide_False by done.
    rewrite edgeBudget_other; [lia |].
    intros [k x] Hk%elem_of_map_to_list. simpl. intros ->.
    by rewrite lookup_delete_eq in Hk.
  - rewrite edgeBudget_other; [lia |].
    intros [k x] Hk%elem_of_map_to_list. simpl. intros ->. congruence.
Qed.

Section SearchTermination.
Context {Q : Type} `{MinPriorityQueueLaws Q}.
Variable graph : gmap N (list N).
Variable riskMap : gmap string Z.
Variable target : N.

(** Each iteration consumes one unit of queue length plus pending
    neighbour slots, so that amount of fuel is never used up. *)
Lemma searchLoop_fuel fuel : ∀ risks visited (pq : Q),
  (length (pq_items pq) + edgeBudget graph visited < fuel)%nat →
  is_Some (searchLoop graph riskMap fuel target risks visited pq).
Proof.
  induction fuel as [| fuel IH]; intros risks visited pq Hlt; [lia |].
  simpl. destruct (dequeue pq) as [[e pq'] |] eqn:Hd; [| by eexists].
  pose proof (dequeue_length _ _ _ Hd) as Hlen.
  destruct (decide (e_node e ∈ visited)) as [Hv | Hv].
  { apply IH. lia. }
  destruct (decide (e_node e = target)); [by eexists |].
  apply IH.
  pose proof (relaxAll_length riskMap ({[e_node e]} ∪ visited) (e_risk e)
                (e_node e) (e_path e) (default [] (graph !! e_node e)) risks pq').
  pose proof (edgeBudget_visit graph visited (e_node e) Hv). lia.
Qed.
End SearchTermination.

(** ** Graph builder *)

(** Every listed dependent is one of [ids]. *)
Definition closedGraph (ids : list N) (g : gmap N (list N)) : Prop :=
  ∀ u l v, g !! u = Some l → v ∈ l → v ∈ ids.

Lemma outcome_cases {A} (o : Outcome A) :
  o = Threw TypeError ∨ ∃ a, o = Returned a.
Proof. destruct o as [a | []]; eauto. Qed.

Lemma emptyGraph_fold sensors : ∀ g0 : gmap N (list N),
  dom (foldl (λ g s, <[id s := []]> g) g0 sensors)
    = list_to_set (id <$> sensors) ∪ dom g0 ∧
  ∀ u l, foldl (λ g s, <[id s := []]> g) g0 sensors !! u = Some l →
         l = [] ∨ g0 !! u = Some l.
Proof.
  induction sensors as [| s sensors IH]; intros g0; simpl.
  - split; [set_solver | eauto].
  - destruct (IH (<[id s := []]> g0)) as [Hd Hl]. split.
    + rewrite Hd, dom_insert_L. set_solver.
    + intros u l Hu. destruct (Hl u l Hu) as [? | Hu']; [by left |].
      destruct (decide (id s = u)) as [<- | Hne].
      * rewrite lookup_insert_eq in Hu'. left. congruence.
      * rewrite lookup_insert_ne in Hu' by done. by right.
Qed.

Lemma emptyGraph_dom sensors u :
  u ∈ dom (emptyGraph sensors) ↔ u ∈ id <$> sensors.
Proof.
  unfold emptyGraph. rewrite (proj1 (emptyGraph_fold sensors ∅)).
  rewrite dom_empty_L. set_solver.
Qed.

Lemma emptyGraph_closed ids sensors : closedGraph ids (emptyGraph sensors).
Proof.
  intros u l v Hu Hv.
  destruct (proj2 (emptyGraph_fold sensors ∅) u l Hu) as [-> | Hu'].
  - by apply elem_of_nil in Hv.
  - by rewrite lookup_empty in Hu'.
Qed.

Lemma addDependent_Threw sid e deps :
  foldl (addDependent sid) (Threw e) deps = Threw e.
Proof. induction deps; simpl; done. Qed.

Lemma addSensorEdges_Threw e ss : foldl addSensorEdges (Threw e) ss = Threw e.
Proof.
  induction ss as [| s ss IH]; simpl; [done |].
  unfold addSensorEdges at 2. by rewrite addDependent_Threw.
Qed.

Lemma addDependent_Returned sid deps : ∀ g g',
  foldl (addDependent sid) (Returned g) deps = Returned g' →
  dom g' = dom g ∧ (∀ d, d ∈ deps → d ∈ dom g) ∧
  ∀ ids, sid ∈ ids → closedGraph ids g → closedGraph ids g'.
Proof.
  induction deps as [| d deps IH]; intros g g' Hrun; simpl in Hrun.
  - simplify_eq. split; [done |]. split; [| done].
    intros d Hd. by apply elem_of_nil in Hd.
  - destruct (g !! d) as [l |] eqn:Hl; [| by rewrite addDependent_Threw in Hrun].
    destruct (IH _ _ Hrun) as (Hdom & Hdeps & Hclosed).
    assert (dom (<[d := l ++ [sid]]> g) = dom g) as Hd.
    { rewrite dom_insert_L. apply (elem_of_dom_2 (D:=gset N)) in Hl. set_solver. }
    rewrite Hd in Hdom, Hdeps. split; [done |]. split.
    + intros d' [-> | Hd']%elem_of_cons; [by eapply elem_of_dom_2 | by apply Hdeps].
    + intros ids Hsid Hc. apply Hclosed; [done |].
      intros u l' v Hu Hv. destruct (decide (d = u)) as [<- | Hne].
      * rewrite lookup_insert_eq in Hu. simplify_eq.
        apply elem_of_app in Hv as [Hv | Hv%list_elem_of_singleton];
          [by eapply Hc | by subst].
      * rewrite lookup_insert_ne in Hu by done. by eapply Hc.
Qed.

Lemma addDependent_known sid deps : ∀ g,
  (∀ d, d ∈ deps → d ∈ dom g) →
  ∃ g', foldl (addDependent sid) (Returned g) deps = Returned g'.
Proof.
  induction deps as [| d deps IH]; intros g Hk; simpl; [by eexists |].
  assert (d ∈ dom g) as [l Hl]%elem_of_dom by (apply Hk; by left).
  rewrite Hl. apply IH. intros d' Hd'. rewrite dom_insert_L.
  apply elem_of_union_r, Hk. by right.
Qed.

Lemma addSensorEdges_Returned ss : ∀ g g',
  foldl addSensorEdges (Returned g) ss = Returned g' →
  dom g' = dom g ∧
  (∀ s d, s ∈ ss → d ∈ dependencies s → d ∈ dom g) ∧
  ∀ ids, (∀ s, s ∈ ss → id s ∈ ids) → closedGraph ids g → closedGraph ids g'.
Proof.
  induction ss as [| s ss IH]; intros g g' Hrun; simpl in Hrun.
  - simplify_eq. split; [done |]. split; [| done].
    intros s d Hs. by apply elem_of_nil in Hs.
  - unfold addSensorEdges at 2 in Hrun.
    destruct (outcome_cases (foldl (addDependent (id s)) (Returned g) (dependencies s)))
      as [Ht | [g1 Hg1]]; rewrite ?Ht, ?Hg1 in Hrun;
      [by rewrite addSensorEdges_Threw in Hrun |].
    destruct (addDependent_Returned _ _ _ _ Hg1) as (Hd1 & Hk1 & Hc1).
    destruct (IH _ _ Hrun) as (Hd & Hk & Hc).
    rewrite Hd1 in Hd, Hk. split; [done |]. split.
    + intros s' d [-> | Hs']%elem_of_cons Hd'; [by apply Hk1 | by eapply Hk].
    + intros ids Hids Hcg. apply Hc.
      * intros s' Hs'. apply Hids. by right.
      * apply Hc1; [apply Hids; by left | done].
Qed.

Lemma addSensorEdges_known ss : ∀ g,
  (∀ s d, s ∈ ss → d ∈ dependencies s → d ∈ dom g) →
  ∃ g', foldl addSensorEdges (Returned g) ss = Returned g'.
Proof.
  induction ss as [| s ss IH]; intros g Hk; simpl; [by eexists |].
  unfold addSensorEdges at 2.
  destruct (addDependent_known (id s) (dependencies s) g) as [g1 Hg1].
  { intros d Hd. eapply Hk; [by left | done]. }
  rewrite Hg1. apply IH. intros s' d Hs' Hd.
  rewrite (proj1 (addDependent_Returned _ _ _ _ Hg1)). eapply Hk; [by right | done].
Qed.

(** A successfully built graph only lists sensors as dependents. *)
Lemma buildGraph_closed sensors graph :
  buildGraph sensors = Returned graph → closedGraph (id <$> sensors) graph.
Proof.
  intros Hb. destruct (addSensorEdges_Returned _ _ _ Hb) as (_ & _ & Hc).
  apply Hc; [| apply emptyGraph_closed].
  intros s Hs. by apply list_elem_of_fmap_2.
Qed.

Lemma buildGraph_known sensors graph :
  buildGraph sensors = Returned graph →
  ∀ s d, s ∈ sensors → d ∈ dependencies s → d ∈ id <$> sensors.
Proof.
  intros Hb s d Hs Hd. destruct (addSensorEdges_Returned _ _ _ Hb) as (_ & Hk & _).
  apply emptyGraph_dom. by eapply Hk.
Qed.

Lemma buildGraph_Returned sensors :
  (∀ s d, s ∈ sensors → d ∈ dependencies s → d ∈ id <$> sensors) →
  ∃ graph, buildGraph sensors = Returned graph.
Proof.
  intros Hk. apply addSensorEdges_known.
  intros s d Hs Hd. apply emptyGraph_dom. by eapply Hk.
Qed.

Lemma buildGraph_Threw sensors s d :
  s ∈ sensors → d ∈ dependencies s → d ∉ id <$> sensors →
  buildGraph sensors = Threw TypeError.
Proof.
  intros Hs Hd Hn. destruct (outcome_cases (buildGraph sensors)) as [? | [g Hg]]; [done |].
  destruct Hn. by eapply buildGraph_known.
Qed.

Lemma initRisks_fold sensors n : ∀ m0 : gmap N Num,
  foldl (λ m s, <[id s := Infinity]> m) m0 sensors !! n
  = if decide (n ∈ id <$> sensors) then Some Infinity else m0 !! n.
Proof.
  induction sensors as [| s sensors IH]; intros m0; simpl; [done |].
  rewrite IH. destruct (decide (n ∈ id <$> sensors)) as [Hn | Hn].
  - rewrite decide_True; [done | by right].
  - destruct (decide (id s = n)) as [<- | Hne].
    + rewrite lookup_insert_eq, decide_True; [done | by left].
    + rewrite lookup_insert_ne by done. rewrite decide_False; [done |].
      intros [? | ?]%elem_of_cons; done.
Qed.

Lemma initRisks_lookup sensors n :
  initRisks sensors !! n
  = if decide (n ∈ id <$> sensors) then Some Infinity else None.
Proof. unfold initRisks. by rewrite initRisks_fold, lookup_empty. Qed.

(** ** What a search engine guarantees *)

(** A returned path is a path from one of [starts] to the target whose risk
    is the one reported, minimal when risks are non-negative; no result means
    no path. *)
Definition engineSpec (graph : gmap N (list N)) (starts : list N)
    (riskMap : gmap string Z) (target : N) (res : option TargetPathInfo) : Prop :=
  match res with
  | Some info =>
      tpi_target info = target ∧
      walk graph starts (tpi_path info) target ∧
      pathRisk riskMap (tpi_path info) = tpi_risk info ∧
      (nonNegative riskMap →
       ∀ p, walk graph starts p target → (tpi_risk info ≤ pathRisk riskMap p)%Z)
  | None => ∀ p, ¬ walk graph starts p target
  end.

Lemma walk_app graph l1 l2 p t :
  walk graph (l1 ++ l2) p t ↔ walk graph l1 p t ∨ walk graph l2 p t.
Proof.
  split.
  - induction 1 as [r Hr | p u v Hw IH He].
    + apply elem_of_app in Hr as [Hr | Hr]; [left | right]; by apply walk_start.
    + destruct IH as [IH | IH]; [left | right]; by eapply walk_step.
  - intros [Hw | Hw]; (induction Hw as [r Hr | p u v Hw IH He];
      [apply walk_start, elem_of_app; eauto | by eapply walk_step]).
Qed.

Section EngineProofs.
Context {Q : Type} `{MinPriorityQueueLaws Q}.
Variable sensors : list Sensor.
Variable graph : gmap N (list N).
Variable riskMap : gmap string Z.
Hypothesis Hclosed : closedGraph (id <$> sensors) graph.

Lemma edge_is_sensor u v : isEdge graph u v = true → v ∈ id <$> sensors.
Proof.
  intros He%isEdge_neighbors.
  destruct (graph !! u) as [l |] eqn:Hl; simpl in He;
    [by eapply Hclosed | by apply elem_of_nil in He].
Qed.

Lemma seedRoots_spec roots : ∀ (risks : gmap N Num) (pq : Q),
  (∀ x, x ∈ pq_items (MultiRoot.seedRoots roots (risks, pq)).2 ↔
        x ∈ pq_items pq ∨
        ∃ r, r ∈ roots ∧ x = {| e_risk := 0; e_node := r; e_path := [r] |}) ∧
  (∀ n, (MultiRoot.seedRoots roots (risks, pq)).1 !! n
        = if decide (n ∈ roots) then Some (Finite 0) else risks !! n) ∧
  length (pq_items (MultiRoot.seedRoots roots (risks, pq)).2)
  = (length roots + length (pq_items pq))%nat.
Proof.
  induction roots as [| r roots IH]; intros risks pq.
  - simpl. split; [| split; [| done]].
    + intros x. split; [by left |]. intros [? | (r & Hr & _)]; [done |].
      by apply elem_of_nil in Hr.
    + intros n. done.
  - destruct (IH (<[r := Finite 0]> risks)
                 (enqueue {| e_risk := 0; e_node := r; e_path := [r] |} pq))
      as (Hx & Hn & Hlen).
    unfold MultiRoot.seedRoots in *. simpl. split; [| split].
    + intros x. rewrite Hx, enqueue_elem. split.
      * intros [[-> | ?] | (r' & Hr' & ->)]; [right | by left | right].
        -- exists r. split; [by left | done].
        -- exists r'. split; [by right | done].
      * intros [? | (r' & [-> | Hr']%elem_of_cons & ->)]; [by left; right | by left; left |].
        right. by exists r'.
    + intros n. rewrite Hn. destruct (decide (n ∈ roots)) as [Hin | Hin].
      * rewrite decide_True; [done | by right].
      * destruct (decide (r = n)) as [<- | Hne].
        -- rewrite lookup_insert_eq, decide_True; [done | by left].
        -- rewrite lookup_insert_ne by done. rewrite decide_False; [done |].
           intros [? | ?]%elem_of_cons; done.
    + rewrite Hlen, enqueue_length. simpl. lia.
Qed.

(** The fuel given to the loop by [multiRootDijkstra] and by [dijkstra] is
    never used up. *)
Lemma multiRootDijkstra_terminates roots target :
  is_Some (searchLoop graph riskMap (S (length roots + edgeBudget graph ∅)) target
             (MultiRoot.seedRoots roots (initRisks sensors, pq_new (Q:=Q))).1 ∅
             (MultiRoot.seedRoots roots (initRisks sensors, pq_new (Q:=Q))).2).
Proof.
  apply searchLoop_fuel.
  destruct (seedRoots_spec roots (initRisks sensors) pq_new) as (_ & _ & ->).
  rewrite pq_new_items. simpl. lia.
Qed.

Lemma dijkstra_terminates start target :
  is_Some (searchLoop graph riskMap (S (1 + edgeBudget graph ∅)) target
             (initRisks sensors) ∅
             (enqueue {| e_risk := 0; e_node := start; e_path := [start] |}
                      (pq_new (Q:=Q)))).
Proof.
  apply searchLoop_fuel. rewrite enqueue_length, pq_new_items. simpl. lia.
Qed.

(** The state [multiRootDijkstra] enters the loop in. *)
Lemma multiRoot_init_base roots :
  baseInv graph riskMap roots
    (MultiRoot.seedRoots roots (initRisks sensors, pq_new (Q:=Q))).1 ∅
    (MultiRoot.seedRoots roots (initRisks sensors, pq_new (Q:=Q))).2.
Proof.
  destruct (seedRoots_spec roots (initRisks sensors) pq_new) as (Hx & Hn & Hlen).
  set (init := MultiRoot.seedRoots roots (initRisks sensors, pq_new)) in *.
  rewrite pq_new_items in Hlen, Hx. split.
  - intros e [He | (r & Hr & ->)]%Hx; [by apply elem_of_nil in He |].
    simpl. split; [by apply walk_start | done].
  - intros r Hr _. apply Hx. right. by exists r.
  - intros n c Hc _. rewrite Hn in Hc. case_decide as Hin.
    + simplify_eq. eexists. split; [apply Hx; right; by exists n | done].
    + rewrite initRisks_lookup in Hc. by case_decide.
  - intros u v Huv. rewrite Hn. case_decide; [by eexists |].
    rewrite initRisks_lookup, decide_True; [by eexists | by eapply edge_is_sensor].
Qed.

Lemma multiRootDijkstra_spec roots target :
  engineSpec graph roots riskMap target
    (MultiRoot.multiRootDijkstra sensors graph roots riskMap target).
Proof.
  unfold MultiRoot.multiRootDijkstra.
  pose proof (multiRoot_init_base roots) as Hbase.
  set (init := MultiRoot.seedRoots roots (initRisks sensors, pq_new)) in *.
  assert (searchInv graph riskMap roots target init.1 ∅ init.2) as Hinv.
  { split; [done | | apply not_elem_of_empty].
    intros x Hx'. by apply not_elem_of_empty in Hx'. }
  destruct (multiRootDijkstra_terminates roots target) as [[info |] Hrun];
    fold init in Hrun; rewrite Hrun; simpl.
  - by eapply searchLoop_sound.
  - intros p. by eapply searchLoop_complete.
Qed.

(** The state [dijkstra] enters the loop in. *)
Lemma dijkstra_init_base start :
  baseInv graph riskMap [start] (initRisks sensors) ∅
    (enqueue {| e_risk := 0; e_node := start; e_path := [start] |}
             (pq_new (Q:=Q))).
Proof.
  set (e0 := {| e_risk := 0; e_node := start; e_path := [start] |}).
  assert (∀ x, x ∈ pq_items (enqueue e0 pq_new) ↔ x = e0) as Hx.
  { intros x. rewrite enqueue_elem, pq_new_items. split; [| by left].
    intros [? | Hnil]; [done | by apply elem_of_nil in Hnil]. }
  split.
  - intros e ->%Hx. simpl. split; [| done]. apply walk_start. by left.
  - intros r ->%list_elem_of_singleton _. by apply Hx.
  - intros n c Hc _. rewrite initRisks_lookup in Hc. by case_decide.
  - intros u v Huv.
    rewrite initRisks_lookup, decide_True; [by eexists | by eapply edge_is_sensor].
Qed.

Lemma dijkstra_spec start target :
  engineSpec graph [start] riskMap target
    (PerRoot.dijkstra sensors graph riskMap start target).
Proof.
  unfold PerRoot.dijkstra.
  set (e0 := {| e_risk := 0; e_node := start; e_path := [start] |}).
  assert (searchInv graph riskMap [start] target (initRisks sensors) ∅
            (enqueue e0 pq_new)) as Hinv.
  { split; [apply dijkstra_init_base | | apply not_elem_of_empty].
    intros x Hx'. by apply not_elem_of_empty in Hx'. }
  destruct (dijkstra_terminates start target) as [[info |] Hrun];
    fold e0 in Hrun; rewrite Hrun; simpl.
  - by eapply searchLoop_sound.
  - intros p. by eapply searchLoop_complete.
Qed.

(** *** Choosing among the roots *)

Definition bestRootInv (target : N) (done : list N) (b : PerRoot.BestRoot) : Prop :=
  match PerRoot.bestPath b with
  | None =>
      PerRoot.bestRisk b = Infinity ∧ ∀ p, ¬ walk graph done p target
  | Some p =>
      ∃ c, PerRoot.bestRisk b = Finite c ∧
           walk graph done p target ∧ pathRisk riskMap p = c ∧
           (nonNegative riskMap →
            ∀ q, walk graph done q target → (c ≤ pathRisk riskMap q)%Z)
  end.

Lemma considerRoot_inv target done b root :
  bestRootInv target done b →
  bestRootInv target (done ++ [root])
    (PerRoot.considerRoot sensors graph riskMap target b root).
Proof.
  intros Hb. unfold PerRoot.considerRoot.
  pose proof (dijkstra_spec root target) as Hd.
  destruct (PerRoot.dijkstra sensors graph riskMap root target) as [res |];
    simpl in Hd.
  - destruct Hd as (_ & Hw & Hr & Hopt).
    unfold bestRootInv in *.
    destruct (PerRoot.bestPath b) as [p |] eqn:Hp.
    + destruct Hb as (c & Hc & Hwp & Hrp & Hoptp). rewrite Hc. simpl.
      destruct ((tpi_risk res <? c)%Z
                || (tpi_risk res =? c)%Z && targetBelow root (PerRoot.bestRoot b))
        eqn:Hcmp; simpl.
      * assert (tpi_risk res ≤ c)%Z as Hle.
        { apply orb_true_iff in Hcmp as [Hlt | Heq]; [lia |].
          apply andb_true_iff in Heq as [Heq _]. lia. }
        exists (tpi_risk res). split; [done |].
        split; [apply walk_app; by right |]. split; [done |].
        intros Hnn q [Hq | Hq]%walk_app.
        -- specialize (Hoptp Hnn q Hq). lia.
        -- by apply Hopt.
      * rewrite Hp. exists c. split; [done |].
        split; [apply walk_app; by left |]. split; [done |].
        apply orb_false_iff in Hcmp as [Hlt _].
        intros Hnn q [Hq | Hq]%walk_app; [by apply Hoptp |].
        specialize (Hopt Hnn q Hq). lia.
    + destruct Hb as [Hinf Hnone]. rewrite Hinf. simpl.
      exists (tpi_risk res). split; [done |].
      split; [apply walk_app; by right |]. split; [done |].
      intros Hnn q [Hq | Hq]%walk_app; [by destruct (Hnone q) | by apply Hopt].
  - unfold bestRootInv in *. destruct (PerRoot.bestPath b) as [p |].
    + destruct Hb as (c & Hc & Hwp & Hrp & Hoptp). exists c.
      split; [done |]. split; [apply walk_app; by left |]. split; [done |].
      intros Hnn q [Hq | Hq]%walk_app; [by apply Hoptp | by destruct (Hd q)].
    + destruct Hb as [Hinf Hnone]. split; [done |].
      intros q [Hq | Hq]%walk_app; [by destruct (Hnone q) | by destruct (Hd q)].
Qed.

Lemma considerRoots_inv target roots : ∀ done b,
  bestRootInv target done b →
  bestRootInv target (done ++ roots)
    (foldl (PerRoot.considerRoot sensors graph riskMap target) b roots).
Proof.
  induction roots as [| r roots IH]; intros done b Hb; simpl.
  - by rewrite app_nil_r.
  - rewrite cons_middle, app_assoc. apply IH. by apply considerRoot_inv.
Qed.

Lemma findBestPathToTarget_spec roots target :
  engineSpec graph roots riskMap target
    (PerRoot.findBestPathToTarget sensors graph roots riskMap target).
Proof.
  unfold PerRoot.findBestPathToTarget.
  set (b := foldl _ _ roots).
  assert (bestRootInv target roots b) as Hinv.
  { apply (considerRoots_inv target roots []). split; [done |].
    intros p (r & _ & Hr)%walk_head. by apply elem_of_nil in Hr. }
  unfold bestRootInv in Hinv. cbv zeta.
  destruct (PerRoot.bestPath b) as [p |].
  - destruct Hinv as (c & -> & Hw & Hr & Hopt). simpl. done.
  - destruct Hinv as [_ Hnone]. simpl. done.
Qed.
End EngineProofs.

(** ** Keys of the risk store *)

Fixpoint commaFree (s : string) : Prop :=
  match s with
  | EmptyString => True
  | String a s' => a ≠ ","%char ∧ commaFree s'
  end.

Lemma pretty_N_char_no_comma d : pretty_N_char d ≠ ","%char.
Proof. unfold pretty_N_char. by repeat case_match. Qed.

Lemma pretty_N_go_commaFree x : ∀ s, commaFree s → commaFree (pretty_N_go x s).
Proof.
  induction (N.lt_wf_0 x) as [x _ IH]; intros s Hs.
  destruct (decide (x = 0%N)) as [-> | Hx]; [by rewrite pretty_N_go_0 |].
  rewrite pretty_N_go_step by lia. apply IH.
  - apply N.div_lt; lia.
  - split; [apply pretty_N_char_no_comma | done].
Qed.

Lemma pretty_N_commaFree (n : N) : commaFree (pretty n).
Proof.
  unfold pretty, pretty_N. case_decide; [by split |].
  by apply pretty_N_go_commaFree.
Qed.

Lemma comma_split s1 : ∀ s2 t1 t2,
  commaFree s1 → commaFree s2 →
  s1 +:+ "," +:+ t1 = s2 +:+ "," +:+ t2 → s1 = s2 ∧ t1 = t2.
Proof.
  induction s1 as [| a s1 IH]; intros [| b s2] t1 t2 H1 H2 Heq; simpl in *.
  - by simplify_eq.
  - destruct H2 as [Hb _]. by simplify_eq.
  - destruct H1 as [Ha _]. by simplify_eq.
  - destruct H1 as [_ H1], H2 as [_ H2]. simplify_eq.
    destruct (IH s2 t1 t2 H1 H2) as [-> ->]; done.
Qed.

Lemma riskKey_inj a b c d : riskKey a b = riskKey c d → a = c ∧ b = d.
Proof.
  intros Heq. apply comma_split in Heq as [Ha Hb]; [| apply pretty_N_commaFree..].
  split; by apply (inj pretty).
Qed.

Lemma getRisk_setRisk riskMap a b v c d :
  getRisk (setRisk riskMap a b v) c d
  = if decide ((a, b) = (c, d)) then v else getRisk riskMap c d.
Proof.
  unfold getRisk, setRisk. case_decide as Heq.
  - simplify_eq. by rewrite lookup_insert_eq.
  - rewrite lookup_insert_ne; [done |].
    intros [-> ->]%riskKey_inj. done.
Qed.

Lemma getRisk_zeroPath p : ∀ riskMap a b,
  getRisk (zeroPath setRisk riskMap p) a b
  = if decide ((a, b) ∈ pathEdges p) then 0%Z else getRisk riskMap a b.
Proof.
  induction p as [| x [| y p] IH]; intros riskMap a b.
  - done.
  - done.
  - change (zeroPath setRisk riskMap (x :: y :: p))
      with (zeroPath setRisk (setRisk riskMap x y 0) (y :: p)).
    change (pathEdges (x :: y :: p)) with ((x, y) :: pathEdges (y :: p)).
    rewrite IH, getRisk_setRisk.
    destruct (decide ((a, b) ∈ pathEdges (y :: p))) as [Hin | Hin].
    + rewrite decide_True; [done | by right].
    + destruct (decide ((x, y) = (a, b))) as [<- | Hne].
      * rewrite decide_True; [done | by left].
      * rewrite decide_False; [done |].
        intros [? | ?]%elem_of_cons; done.
Qed.

Lemma zeroPath_nonNegative p : ∀ riskMap,
  nonNegative riskMap → nonNegative (zeroPath setRisk riskMap p).
Proof.
  induction p as [| x [| y p] IH]; intros riskMap Hnn; [done.. |].
  change (zeroPath setRisk riskMap (x :: y :: p))
    with (zeroPath setRisk (setRisk riskMap x y 0) (y :: p)).
  apply IH. by apply map_Forall_insert_2.
Qed.

Lemma buildRiskMap_nonNegative risks :
  Forall (λ r, (0 ≤ risk r)%Z) risks → nonNegative (buildRiskMap risks).
Proof.
  unfold buildRiskMap. intros Hall.
  assert (∀ m0 : gmap string Z, nonNegative m0 →
     nonNegative (foldl (λ m r, <[riskKey (fromSensor r) (toSensor r) := risk r]> m)
                        m0 risks)) as Hfold.
  { induction Hall as [| r risks Hr _ IH]; intros m0 Hm0; simpl; [done |].
    apply IH. by apply map_Forall_insert_2. }
  apply Hfold, map_Forall_empty.
Qed.

(** ** The target selection loop *)

Lemma setOfList_fold l : ∀ acc : list N,
  NoDup acc →
  NoDup (foldl (λ acc x, if decide (x ∈ acc) then acc else acc ++ [x]) acc l) ∧
  ∀ t, t ∈ foldl (λ acc x, if decide (x ∈ acc) then acc else acc ++ [x]) acc l
       ↔ t ∈ acc ∨ t ∈ l.
Proof.
  induction l as [| x l IH]; intros acc Hnd; simpl.
  - split; [done |]. intros t. split; [by left |].
    intros [? | Hnil]; [done | by apply elem_of_nil in Hnil].
  - case_decide as Hx.
    + destruct (IH acc Hnd) as [Hnd' Hin]. split; [done |].
      intros t. rewrite Hin. split.
      * intros [? | ?]; [by left | by right; right].
      * intros [? | [-> | ?]%elem_of_cons]; [by left | by left | by right].
    + destruct (IH (acc ++ [x])) as [Hnd' Hin].
      { apply NoDup_app. split; [done |]. split; [| apply NoDup_singleton].
        intros y Hy ->%list_elem_of_singleton. done. }
      split; [done |]. intros t. rewrite Hin, elem_of_app, list_elem_of_singleton.
      split.
      * intros [[? | ->] | ?]; [by left | right; by left | by right; right].
      * intros [? | [-> | ?]%elem_of_cons]; [by left; left | by left; right | by right].
Qed.

Lemma setOfList_NoDup l : NoDup (setOfList l).
Proof. apply setOfList_fold, NoDup_nil_2. Qed.

Lemma setOfList_elem l t : t ∈ setOfList l ↔ t ∈ l.
Proof.
  unfold setOfList. rewrite (proj2 (setOfList_fold l [] (NoDup_nil_2))).
  split; [| by right]. intros [Hnil | ?]; [by apply elem_of_nil in Hnil | done].
Qed.

Lemma filter_absent (l : list N) t : t ∉ l → filter (λ x, x ≠ t) l = l.
Proof.
  induction l as [| y l IH]; intros Ht; [done |].
  apply not_elem_of_cons in Ht as [Hne Ht].
  rewrite filter_cons_True by done. by rewrite IH.
Qed.

Lemma filter_remove_perm (l : list N) t :
  NoDup l → t ∈ l → l ≡ₚ t :: filter (λ x, x ≠ t) l.
Proof.
  induction l as [| y l IH]; intros Hnd Ht; [by apply elem_of_nil in Ht |].
  apply NoDup_cons in Hnd as [Hy Hnd].
  destruct (decide (y = t)) as [-> | Hne].
  - rewrite filter_cons_False by (intros ?; done). by rewrite filter_absent.
  - apply elem_of_cons in Ht as [-> | Ht]; [done |].
    rewrite filter_cons_True by done.
    rewrite (IH Hnd Ht) at 1. apply Permutation_swap.
Qed.

Section SelectionProofs.
Context {Store : Type}.
Variable setRisk : Store → N → N → Z → Store.
Variable engine : Store → N → option TargetPathInfo.
Hypothesis engine_target :
  ∀ rm t info, engine rm t = Some info → tpi_target info = t.

(** State of the three selection variables after the targets [done]. *)
Definition bestInv (rm : Store) (done : list N) (b : Best) : Prop :=
  match minPath b with
  | None => minRisk b = Infinity ∧ ∀ t, t ∈ done → engine rm t = None
  | Some mp =>
      minRisk b = Finite (tpi_risk mp) ∧
      bestTarget b = Some (tpi_target mp) ∧
      tpi_target mp ∈ done ∧
      engine rm (tpi_target mp) = Some mp ∧
      ∀ t info, t ∈ done → engine rm t = Some info →
        (tpi_risk mp ≤ tpi_risk info)%Z ∧
        (tpi_risk mp = tpi_risk info → (tpi_target mp ≤ t)%N)
  end.

Lemma consider_inv rm done b t :
  bestInv rm done b → bestInv rm (done ++ [t]) (consider engine rm b t).
Proof.
  unfold bestInv, consider. intros Hb.
  destruct (engine rm t) as [info |] eqn:He.
  - pose proof (engine_target _ _ _ He) as Ht.
    destruct (minPath b) as [mp |] eqn:Hmp.
    + destruct Hb as (Hr & Hbt & Hin & Hmpe & Hmin). rewrite Hr, Hbt. simpl.
      destruct ((tpi_risk info <? tpi_risk mp)%Z
                || (tpi_risk info =? tpi_risk mp)%Z && (t <? tpi_target mp)%N)
        eqn:Hcmp; simpl.
      * rewrite Ht. split; [done |]. split; [done |].
        split; [apply elem_of_app; right; by left |]. split; [done |].
        intros t' info' [Ht' | ->%list_elem_of_singleton]%elem_of_app He'.
        -- destruct (Hmin t' info' Ht' He') as [Hle Htie].
           apply orb_true_iff in Hcmp as [Hlt | [Heq Hlt]%andb_true_iff];
             [lia |].
           apply N.ltb_lt in Hlt. lia.
        -- simplify_eq. lia.
      * rewrite Hmp. split; [done |]. split; [done |].
        split; [apply elem_of_app; by left |]. split; [done |].
        intros t' info' [Ht' | ->%list_elem_of_singleton]%elem_of_app He';
          [by apply Hmin |].
        simplify_eq.
        apply orb_false_iff in Hcmp as [Hlt [Heq | Hge]%andb_false_iff];
          [lia |].
        apply N.ltb_ge in Hge. lia.
    + destruct Hb as [Hr Hnone]. rewrite Hr. simpl. rewrite Ht.
      split; [done |]. split; [done |].
      split; [apply elem_of_app; right; by left |]. split; [done |].
      intros t' info' [Ht' | ->%list_elem_of_singleton]%elem_of_app He'.
      * rewrite (Hnone t' Ht') in He'. done.
      * simplify_eq. lia.
  - destruct (minPath b) as [mp |].
    + destruct Hb as (Hr & Hbt & Hin & Hmpe & Hmin).
      split; [done |]. split; [done |].
      split; [apply elem_of_app; by left |]. split; [done |].
      intros t' info' [Ht' | ->%list_elem_of_singleton]%elem_of_app He';
        [by apply Hmin | congruence].
    + destruct Hb as [Hr Hnone]. split; [done |].
      intros t' [Ht' | ->%list_elem_of_singleton]%elem_of_app; [by apply Hnone | done].
Qed.

Lemma considerAll_inv rm ts : ∀ done b,
  bestInv rm done b → bestInv rm (done ++ ts) (foldl (consider engine rm) b ts).
Proof.
  induction ts as [| t ts IH]; intros done b Hb; simpl.
  - by rewrite app_nil_r.
  - rewrite cons_middle, app_assoc. apply IH. by apply consider_inv.
Qed.

Lemma selectBest_inv rm remaining :
  bestInv rm remaining (selectBest engine rm remaining).
Proof.
  apply (considerAll_inv rm remaining []). split; [done |].
  intros t Ht. by apply elem_of_nil in Ht.
Qed.

(** The winner is a pending target that has a path, of least risk, and of
    least identifier among those of least risk. *)
Lemma winner_Some st mp :
  winner engine st = Some mp →
  tpi_target mp ∈ ls_remaining st ∧
  engine (ls_riskMap st) (tpi_target mp) = Some mp ∧
  ∀ t info, t ∈ ls_remaining st → engine (ls_riskMap st) t = Some info →
    (tpi_risk mp ≤ tpi_risk info)%Z ∧
    (tpi_risk mp = tpi_risk info → (tpi_target mp ≤ t)%N).
Proof.
  unfold winner. intros Hw.
  pose proof (selectBest_inv (ls_riskMap st) (ls_remaining st)) as Hb.
  unfold bestInv in Hb. destruct (ls_remaining st) as [| t0 ts]; [done |].
  rewrite Hw in Hb. naive_solver.
Qed.

Lemma winner_None st t :
  winner engine st = None → t ∈ ls_remaining st →
  engine (ls_riskMap st) t = None.
Proof.
  unfold winner. intros Hw Ht.
  pose proof (selectBest_inv (ls_riskMap st) (ls_remaining st)) as Hb.
  unfold bestInv in Hb. destruct (ls_remaining st) as [| t0 ts];
    [by apply elem_of_nil in Ht |].
  rewrite Hw in Hb. naive_solver.
Qed.

Lemma heistStep_Some st st' :
  heistStep setRisk engine st = Some st' →
  ∃ mp, winner engine st = Some mp ∧
        st' = {| ls_riskMap := zeroPath setRisk (ls_riskMap st) (tpi_path mp);
                 ls_remaining := filter (λ t, t ≠ tpi_target mp) (ls_remaining st);
                 ls_paths := ls_paths st ++ [tpi_path mp] |}.
Proof.
  unfold heistStep. destruct (winner engine st) as [mp |]; [| done].
  intros [= <-]. by exists mp.
Qed.

Lemma heistStep_None st :
  heistStep setRisk engine st = None ↔ winner engine st = None.
Proof. unfold heistStep. by destruct (winner engine st). Qed.

Lemma heistStep_length st st' :
  heistStep setRisk engine st = Some st' →
  (length (ls_remaining st') < length (ls_remaining st))%nat.
Proof.
  intros (mp & Hw & ->)%heistStep_Some. simpl.
  destruct (winner_Some _ _ Hw) as (Hin & _).
  eapply length_filter_lt; [done |]. by intros [].
Qed.

(** The outer loop never runs out of this much fuel. *)
Lemma heistLoop_fuel fuel : ∀ st,
  (length (ls_remaining st) < fuel)%nat →
  is_Some (heistLoop setRisk engine fuel st).
Proof.
  induction fuel as [| fuel IH]; intros st Hlt; [lia |]. simpl.
  destruct (heistStep setRisk engine st) as [st' |] eqn:Hs; [| by eexists].
  apply IH. pose proof (heistStep_length _ _ Hs). lia.
Qed.

(** Iterations of the loop body. *)
Definition steps : relation LoopState :=
  rtc (λ st st', heistStep setRisk engine st = Some st').

Lemma heistLoop_final fuel : ∀ st out,
  heistLoop setRisk engine fuel st = Some out →
  ∃ final, steps st final ∧ heistStep setRisk engine final = None ∧
           ls_paths final = out.
Proof.
  induction fuel as [| fuel IH]; intros st out Hrun; [done |]. simpl in Hrun.
  destruct (heistStep setRisk engine st) as [st' |] eqn:Hs.
  - destruct (IH _ _ Hrun) as (final & Hsteps & Hend & Hout).
    exists final. split; [by eapply rtc_l | done].
  - simplify_eq. exists st. split; [apply rtc_refl | done].
Qed.

Lemma heistLoop_resolutions fuel : ∀ st out,
  heistLoop setRisk engine fuel st = Some out →
  out = ls_paths st ++ ((λ r, tpi_path r.2) <$> resolutions setRisk engine fuel st).
Proof.
  induction fuel as [| fuel IH]; intros st out Hrun; [done |]. simpl in *.
  destruct (heistStep setRisk engine st) as [st' |] eqn:Hs.
  - destruct (heistStep_Some _ _ Hs) as (mp & Hw & Hst'). rewrite Hw. simpl.
    rewrite (IH _ _ Hrun). rewrite Hst'. simpl. by rewrite <- app_assoc.
  - apply heistStep_None in Hs. rewrite Hs. simplify_eq. by rewrite app_nil_r.
Qed.

Lemma steps_remaining st st' t :
  steps st st' → t ∈ ls_remaining st' → t ∈ ls_remaining st.
Proof.
  induction 1 as [| st st1 st2 Hs _ IH]; [done |]. intros Ht.
  apply heistStep_Some in Hs as (mp & _ & ->). simpl in IH.
  specialize (IH Ht). by apply list_elem_of_filter in IH as [_ ?].
Qed.

Lemma resolutions_elem fuel : ∀ st i sti mpi,
  resolutions setRisk engine fuel st !! i = Some (sti, mpi) →
  steps st sti ∧ winner engine sti = Some mpi.
Proof.
  induction fuel as [| fuel IH]; intros st i sti mpi Hi; [done |]. simpl in Hi.
  destruct (winner engine st) as [mp |] eqn:Hw; [| done].
  destruct (heistStep setRisk engine st) as [st' |] eqn:Hs; [| done].
  destruct i as [| i]; simpl in Hi.
  - simplify_eq. split; [apply rtc_refl | done].
  - destruct (IH _ _ _ _ Hi) as [Hsteps Hwi]. split; [by eapply rtc_l | done].
Qed.

Lemma resolutions_later fuel : ∀ st i j sti mpi stj mpj,
  (i < j)%nat →
  resolutions setRisk engine fuel st !! i = Some (sti, mpi) →
  resolutions setRisk engine fuel st !! j = Some (stj, mpj) →
  ∃ sti', heistStep setRisk engine sti = Some sti' ∧ steps sti' stj.
Proof.
  induction fuel as [| fuel IH]; intros st i j sti mpi stj mpj Hij Hi Hj; [done |].
  simpl in Hi, Hj.
  destruct (winner engine st) as [mp |] eqn:Hw; [| done].
  destruct (heistStep setRisk engine st) as [st' |] eqn:Hs; [| done].
  destruct j as [| j]; [lia |]. simpl in Hj.
  destruct i as [| i]; simpl in Hi.
  - simplify_eq. exists st'. split; [done |].
    by destruct (resolutions_elem _ _ _ _ _ Hj).
  - eapply (IH st' i j); [lia | done..].
Qed.
End SelectionProofs.

(** ** The run as a whole, for an engine that finds exactly the reachable
    targets *)

Section HeistProofs.
Context {Store : Type}.
Variable setRisk : Store → N → N → Z → Store.
Variable engine : Store → N → option TargetPathInfo.
Variable reach : N → Prop.
Hypothesis engine_target :
  ∀ rm t info, engine rm t = Some info → tpi_target info = t.
Hypothesis engine_Some :
  ∀ rm t info, engine rm t = Some info →
               last (tpi_path info) = Some t ∧ reach t.
Hypothesis engine_None : ∀ rm t, engine rm t = None → ¬ reach t.

(** The recorded paths end at pairwise distinct reachable targets which,
    with the pending ones, make up the requested set. *)
Definition heistInv (targets : list N) (st : LoopState (Store:=Store)) : Prop :=
  ∃ ts, Forall2 (λ p t, last p = Some t) (ls_paths st) ts ∧
        ts ++ ls_remaining st ≡ₚ targets ∧
        ∀ t, t ∈ ts → reach t.

Lemma heistInv_step targets st st' :
  NoDup targets → heistInv targets st →
  heistStep setRisk engine st = Some st' → heistInv targets st'.
Proof.
  intros Hnd (ts & Hpaths & Hperm & Hreach) (mp & Hw & ->)%heistStep_Some.
  destruct (winner_Some engine engine_target _ _ Hw) as (Hin & He & _).
  destruct (engine_Some _ _ _ He) as [Hlast Hr].
  exists (ts ++ [tpi_target mp]). simpl. split; [| split].
  - apply Forall2_app; [done |]. by constructor.
  - rewrite <- Hperm, <- app_assoc. f_equiv. simpl. symmetry.
    apply filter_remove_perm; [| done].
    rewrite <- Hperm in Hnd. by apply NoDup_app in Hnd as (_ & _ & ?).
  - intros t [? | ->%list_elem_of_singleton]%elem_of_app; [by apply Hreach | done].
Qed.

Lemma heistInv_steps targets st st' :
  NoDup targets → heistInv targets st →
  steps setRisk engine st st' → heistInv targets st'.
Proof.
  intros Hnd Hinv Hsteps. induction Hsteps as [| st st1 st2 Hs _ IH]; [done |].
  apply IH. by eapply heistInv_step.
Qed.

Lemma heistInv_initial riskMap targetSensors :
  heistInv (setOfList targetSensors) (initialState riskMap targetSensors).
Proof.
  exists []. simpl. split; [constructor |]. split; [done |].
  intros t Ht. by apply elem_of_nil in Ht.
Qed.

(** What a run returns. *)
Lemma runHeist_spec riskMap targetSensors :
  ∃ final ts,
    heistLoop setRisk engine (S (length (setOfList targetSensors)))
              (initialState riskMap targetSensors)
      = Some (runHeist setRisk engine riskMap targetSensors) ∧
    steps setRisk engine (initialState riskMap targetSensors) final ∧
    heistStep setRisk engine final = None ∧
    ls_paths final = runHeist setRisk engine riskMap targetSensors ∧
    (∀ t, t ∈ ls_remaining final → engine (ls_riskMap final) t = None) ∧
    Forall2 (λ p t, last p = Some t) (ls_paths final) ts ∧
    NoDup ts ∧
    (∀ t, t ∈ ts ↔ t ∈ targetSensors ∧ reach t) ∧
    ts ++ ls_remaining final ≡ₚ setOfList targetSensors.
Proof.
  assert (runHeist setRisk engine riskMap targetSensors
          = default [] (heistLoop setRisk engine
                          (S (length (setOfList targetSensors)))
                          (initialState riskMap targetSensors))) as Hrun
    by reflexivity.
  destruct (heistLoop_fuel setRisk engine engine_target
              (S (length (setOfList targetSensors)))
              (initialState riskMap targetSensors)) as [out Hout];
    [simpl; lia |].
  rewrite Hrun, Hout. simpl.
  destruct (heistLoop_final _ _ _ _ _ Hout) as (final & Hsteps & Hend & Hpaths).
  pose proof (setOfList_NoDup targetSensors) as Hnd.
  destruct (heistInv_steps _ _ _ Hnd (heistInv_initial riskMap targetSensors) Hsteps)
    as (ts & Hts & Hperm & Hreach).
  assert (∀ t, t ∈ ls_remaining final → engine (ls_riskMap final) t = None) as Hnone.
  { intros t Ht. eapply winner_None; [done | by apply heistStep_None in Hend | done]. }
  exists final, ts. repeat split; try done.
  - rewrite <- Hperm in Hnd. by apply NoDup_app in Hnd as (? & _ & _).
  - apply setOfList_elem. rewrite <- Hperm. apply elem_of_app. by left.
  - by apply Hreach.
  - intros [Ht%setOfList_elem Hr]. rewrite <- Hperm in Ht.
    apply elem_of_app in Ht as [? | Ht]; [done |].
    destruct (engine_None _ _ (Hnone t Ht) Hr).
Qed.
End HeistProofs.

(** ** Joined paths determine the path *)

Lemma pretty_N_go_length x : ∀ s,
  (String.length s ≤ String.length (pretty_N_go x s))%nat.
Proof.
  induction (N.lt_wf_0 x) as [x _ IH]; intros s.
  destruct (decide (x = 0%N)) as [-> | Hx]; [by rewrite pretty_N_go_0 |].
  rewrite pretty_N_go_step by lia.
  etrans; [| apply IH; apply N.div_lt; lia]. simpl. lia.
Qed.

Lemma pretty_N_nonempty (n : N) : pretty n ≠ "".
Proof.
  unfold pretty, pretty_N. case_decide as Hn; [done |].
  rewrite pretty_N_go_step by lia. intros Heq.
  pose proof (pretty_N_go_length (n `div` 10)
                (String (pretty_N_char (n `mod` 10)) "")) as Hlen.
  rewrite Heq in Hlen. simpl in Hlen. lia.
Qed.

Lemma commaFree_no_comma s2 : ∀ s1 t,
  commaFree s1 → s1 ≠ s2 +:+ "," +:+ t.
Proof.
  induction s2 as [| a s2 IH]; intros [| b s1] t Hs Heq; try done.
  - change (String b s1 = String "," t) in Heq.
    destruct Hs as [Hc _]. by simplify_eq.
  - change (String b s1 = String a (s2 +:+ "," +:+ t)) in Heq.
    destruct Hs as [_ Hs]. simplify_eq. by eapply IH.
Qed.

Lemma joinPath_cons x y p :
  joinPath (x :: y :: p) = pretty x +:+ "," +:+ joinPath (y :: p).
Proof. done. Qed.

Lemma joinPath_inj p : ∀ q, joinPath p = joinPath q → p = q.
Proof.
  induction p as [| x [| x' p] IH]; intros [| y [| y' q]] Heq; try done.
  - by destruct (pretty_N_nonempty y).
  - rewrite joinPath_cons in Heq. destruct (pretty y) eqn:Hy; [| done].
    by destruct (pretty_N_nonempty y).
  - by destruct (pretty_N_nonempty x).
  - f_equal. by apply (inj pretty).
  - rewrite joinPath_cons in Heq.
    by destruct (commaFree_no_comma (pretty y) (pretty x) (joinPath (y' :: q))
                   (pretty_N_commaFree x)).
  - rewrite joinPath_cons in Heq. destruct (pretty x) eqn:Hx; [| done].
    by destruct (pretty_N_nonempty x).
  - rewrite joinPath_cons in Heq.
    by destruct (commaFree_no_comma (pretty x) (pretty y) (joinPath (x' :: p))
                   (pretty_N_commaFree y)).
  - rewrite !joinPath_cons in Heq.
    apply comma_split in Heq as [Hx Hq]; [| apply pretty_N_commaFree..].
    apply (inj pretty) in Hx as ->. f_equal. by apply IH.
Qed.

(** Entries whose node and risk are those of their path. *)
Definition entriesOk (riskMap : gmap string Z) (l : list Entry) : Prop :=
  ∀ e, e ∈ l →
    last (e_path e) = Some (e_node e) ∧ pathRisk riskMap (e_path e) = e_risk e.

Lemma compareEntries_tie riskMap l a b :
  entriesOk riskMap l → a ∈ l → b ∈ l →
  compareEntries a b ≠ Gt → compareEntries b a ≠ Gt → a = b.
Proof.
  intros Hok Ha Hb Hab Hba.
  apply compareEntries_le_iff in Hab as [? | [Hr Hab]];
    apply compareEntries_le_iff in Hba as [? | [Hr' Hba]]; try lia.
  assert (e_path a = e_path b) as Hp.
  { apply joinPath_inj. by apply (anti_symm String.le). }
  destruct (Hok a Ha) as [Hla _], (Hok b Hb) as [Hlb _].
  destruct a, b. simpl in *. simplify_eq. done.
Qed.

(** ** The result of a search does not depend on the queue *)

Section QueueIndependence.
Context {Q1 Q2 : Type}.
Context `{!MinPriorityQueue Q1, !MinPriorityQueueLaws Q1}.
Context `{!MinPriorityQueue Q2, !MinPriorityQueueLaws Q2}.
Variable graph : gmap N (list N).
Variable riskMap : gmap string Z.

Lemma dequeue_agree (q1 : Q1) (q2 : Q2) :
  pq_items q1 ≡ₚ pq_items q2 → entriesOk riskMap (pq_items q1) →
  match dequeue q1, dequeue q2 with
  | Some (e1, q1'), Some (e2, q2') => e1 = e2 ∧ pq_items q1' ≡ₚ pq_items q2'
  | None, None => True
  | _, _ => False
  end.
Proof.
  intros Hperm Hok.
  destruct (dequeue q1) as [[e1 q1'] |] eqn:H1, (dequeue q2) as [[e2 q2'] |] eqn:H2.
  - assert (e1 = e2) as <-.
    { pose proof (dequeue_head _ _ _ H1) as He1.
      pose proof (dequeue_head _ _ _ H2) as He2.
      eapply (compareEntries_tie riskMap (pq_items q1));
        [done | done | by rewrite Hperm | |].
      - apply (dequeue_min q1 e1 q1' e2 H1). by rewrite Hperm.
      - apply (dequeue_min q2 e2 q2' e1 H2). by rewrite <- Hperm. }
    split; [done |]. apply (Permutation_cons_inv (a:=e1)).
    by rewrite <- (dequeue_items q1 _ _ H1), <- (dequeue_items q2 _ _ H2).
  - apply (dequeue_None q2) in H2. rewrite (dequeue_items q1 _ _ H1), H2 in Hperm.
    by apply Permutation_nil_r in Hperm.
  - apply (dequeue_None q1) in H1. rewrite (dequeue_items q2 _ _ H2), H1 in Hperm.
    by apply Permutation_nil_l in Hperm.
  - done.
Qed.

Lemma relax_agree vis risk node path risks (q1 : Q1) (q2 : Q2) n :
  pq_items q1 ≡ₚ pq_items q2 →
  (relax riskMap vis risk node path (risks, q1) n).1
  = (relax riskMap vis risk node path (risks, q2) n).1 ∧
  pq_items (relax riskMap vis risk node path (risks, q1) n).2
  ≡ₚ pq_items (relax riskMap vis risk node path (risks, q2) n).2.
Proof.
  intros Hperm. unfold relax. simpl. case_decide; [done |].
  destruct (risks !! n) as [r |]; [| done].
  destruct (num_lt _ r); simpl; [by rewrite !enqueue_items, Hperm |].
  destruct (num_eq _ r); simpl; [by rewrite !enqueue_items, Hperm | done].
Qed.

Lemma relaxAll_agree vis risk node path ns : ∀ risks (q1 : Q1) (q2 : Q2),
  pq_items q1 ≡ₚ pq_items q2 →
  (foldl (relax riskMap vis risk node path) (risks, q1) ns).1
  = (foldl (relax riskMap vis risk node path) (risks, q2) ns).1 ∧
  pq_items (foldl (relax riskMap vis risk node path) (risks, q1) ns).2
  ≡ₚ pq_items (foldl (relax riskMap vis risk node path) (risks, q2) ns).2.
Proof.
  induction ns as [| n ns IH]; intros risks q1 q2 Hperm; [done |]. simpl.
  destruct (relax_agree vis risk node path risks q1 q2 n Hperm) as [Hr Hq].
  destruct (relax riskMap vis risk node path (risks, q1) n) as [r1 q1'].
  destruct (relax riskMap vis risk node path (risks, q2) n) as [r2 q2'].
  simpl in *. subst r2. by apply IH.
Qed.

Lemma relax_entriesOk vis risk node path risks (q : Q1) n :
  entriesOk riskMap (pq_items q) →
  last path = Some node → pathRisk riskMap path = risk →
  entriesOk riskMap (pq_items (relax riskMap vis risk node path (risks, q) n).2).
Proof.
  intros Hok Hl Hr.
  assert (∀ e, e ∈ pq_items
            (enqueue {| e_risk := getRisk riskMap node n + risk;
                        e_node := n; e_path := path ++ [n] |} q) →
          last (e_path e) = Some (e_node e) ∧
          pathRisk riskMap (e_path e) = e_risk e) as Hnew.
  { intros e [-> | He]%enqueue_elem; [| by apply Hok]. simpl.
    rewrite last_snoc, (pathRisk_snoc _ _ node) by done. split; [done | lia]. }
  destruct (relax_cases riskMap vis risk node path risks q n)
    as [-> | (_ & _ & [-> | ->])]; done.
Qed.

Lemma relaxAll_entriesOk vis risk node path ns : ∀ risks (q : Q1),
  entriesOk riskMap (pq_items q) →
  last path = Some node → pathRisk riskMap path = risk →
  entriesOk riskMap
    (pq_items (foldl (relax riskMap vis risk node path) (risks, q) ns).2).
Proof.
  induction ns as [| n ns IH]; intros risks q Hok Hl Hr; [done |]. simpl.
  pose proof (relax_entriesOk vis risk node path risks q n Hok Hl Hr) as Hok'.
  destruct (relax riskMap vis risk node path (risks, q) n) as [r' q'].
  by apply IH.
Qed.

Lemma searchLoop_agree fuel target : ∀ risks visited (q1 : Q1) (q2 : Q2),
  pq_items q1 ≡ₚ pq_items q2 → entriesOk riskMap (pq_items q1) →
  searchLoop graph riskMap fuel target risks visited q1
  = searchLoop graph riskMap fuel target risks visited q2.
Proof.
  induction fuel as [| fuel IH]; intros risks visited q1 q2 Hperm Hok; [done |].
  simpl. pose proof (dequeue_agree q1 q2 Hperm Hok) as Hd.
  destruct (dequeue q1) as [[e q1'] |] eqn:H1, (dequeue q2) as [[e2 q2'] |];
    try done.
  destruct Hd as [<- Hperm'].
  assert (entriesOk riskMap (pq_items q1')) as Hok'.
  { intros x Hx. apply Hok. by eapply dequeue_subset. }
  case_decide; [by apply IH |]. case_decide; [done |].
  destruct (Hok e (dequeue_head _ _ _ H1)) as [Hl Hr].
  destruct (relaxAll_agree ({[e_node e]} ∪ visited) (e_risk e) (e_node e) (e_path e)
              (default [] (graph !! e_node e)) risks q1' q2' Hperm') as [Hrs Hqs].
  rewrite <- Hrs. apply IH; [done |]. by apply relaxAll_entriesOk.
Qed.
End QueueIndependence.

Section EngineIndependence.
Context {Q1 Q2 : Type}.
Context `{!MinPriorityQueue Q1, !MinPriorityQueueLaws Q1}.
Context `{!MinPriorityQueue Q2, !MinPriorityQueueLaws Q2}.
Variable sensors : list Sensor.
Variable graph : gmap N (list N).
Variable riskMap : gmap string Z.

Lemma seedRoots_agree roots : ∀ risks (q1 : Q1) (q2 : Q2),
  pq_items q1 ≡ₚ pq_items q2 →
  (MultiRoot.seedRoots roots (risks, q1)).1
  = (MultiRoot.seedRoots roots (risks, q2)).1 ∧
  pq_items (MultiRoot.seedRoots roots (risks, q1)).2
  ≡ₚ pq_items (MultiRoot.seedRoots roots (risks, q2)).2.
Proof.
  unfold MultiRoot.seedRoots.
  induction roots as [| r roots IH]; intros risks q1 q2 Hperm; [done |]. simpl.
  apply IH. by rewrite !enqueue_items, Hperm.
Qed.

Lemma seedRoots_entriesOk roots risks :
  entriesOk riskMap
    (pq_items (MultiRoot.seedRoots roots (risks, pq_new (Q:=Q1))).2).
Proof.
  intros e He.
  apply (proj1 (seedRoots_spec roots risks pq_new)) in He as [He | (r & _ & ->)].
  - rewrite pq_new_items in He. by apply elem_of_nil in He.
  - done.
Qed.

Lemma multiRootDijkstra_agree roots target :
  MultiRoot.multiRootDijkstra (Q:=Q1) sensors graph roots riskMap target
  = MultiRoot.multiRootDijkstra (Q:=Q2) sensors graph roots riskMap target.
Proof.
  unfold MultiRoot.multiRootDijkstra. cbv zeta.
  destruct (seedRoots_agree roots (initRisks sensors)
              (pq_new (Q:=Q1)) (pq_new (Q:=Q2))) as [Hr Hq].
  { by rewrite !pq_new_items. }
  rewrite <- Hr. f_equal.
  apply searchLoop_agree; [done | apply seedRoots_entriesOk].
Qed.

Lemma dijkstra_agree start target :
  PerRoot.dijkstra (Q:=Q1) sensors graph riskMap start target
  = PerRoot.dijkstra (Q:=Q2) sensors graph riskMap start target.
Proof.
  unfold PerRoot.dijkstra. f_equal. apply searchLoop_agree.
  - by rewrite !enqueue_items, !pq_new_items.
  - intros e [-> | He]%enqueue_elem; [done |].
    rewrite pq_new_items in He. by apply elem_of_nil in He.
Qed.

Lemma findBestPathToTarget_agree roots target :
  PerRoot.findBestPathToTarget (Q:=Q1) sensors graph roots riskMap target
  = PerRoot.findBestPathToTarget (Q:=Q2) sensors graph roots riskMap target.
Proof.
  unfold PerRoot.findBestPathToTarget.
  assert (∀ b, foldl (PerRoot.considerRoot (Q:=Q1) sensors graph riskMap target) b roots
               = foldl (PerRoot.considerRoot (Q:=Q2) sensors graph riskMap target) b roots)
    as ->; [| done].
  induction roots as [| r roots IH]; intros b; [done |]. simpl.
  rewrite IH. f_equal. unfold PerRoot.considerRoot. by rewrite dijkstra_agree.
Qed.
End EngineIndependence.

(** The selection loop only looks at what the engine returns on the stores
    it goes through. *)
Section SelectionExtOn.
Context {Store : Type}.
Variable setRisk : Store → N → N → Z → Store.
Variables engine1 engine2 : Store → N → option TargetPathInfo.
Variable P : Store → Prop.
Hypothesis P_setRisk : ∀ rm a b, P rm → P (setRisk rm a b 0%Z).
Hypothesis engine_ext_on : ∀ rm t, P rm → engine1 rm t = engine2 rm t.

Lemma zeroPath_preserves p : ∀ rm, P rm → P (zeroPath setRisk rm p).
Proof.
  induction p as [| x [| y p] IH]; intros rm Hrm; [done.. |].
  change (zeroPath setRisk rm (x :: y :: p))
    with (zeroPath setRisk (setRisk rm x y 0) (y :: p)).
  by apply IH, P_setRisk.
Qed.

Lemma selectBest_ext_on rm ts :
  P rm → selectBest engine1 rm ts = selectBest engine2 rm ts.
Proof.
  intros Hrm. unfold selectBest. generalize (Build_Best None Infinity None).
  induction ts as [| t ts IH]; intros b; [done |]. simpl.
  rewrite IH. f_equal. unfold consider. by rewrite engine_ext_on.
Qed.

Lemma heistStep_ext_on st :
  P (ls_riskMap st) →
  heistStep setRisk engine1 st = heistStep setRisk engine2 st.
Proof.
  intros Hst. unfold heistStep, winner. by rewrite selectBest_ext_on.
Qed.

Lemma heistLoop_ext_on fuel : ∀ st,
  P (ls_riskMap st) →
  heistLoop setRisk engine1 fuel st = heistLoop setRisk engine2 fuel st.
Proof.
  induction fuel as [| fuel IH]; intros st Hst; [done |]. simpl.
  rewrite heistStep_ext_on by done.
  destruct (heistStep setRisk engine2 st) as [st' |] eqn:Hs; [| done].
  apply IH. unfold heistStep in Hs.
  destruct (winner engine2 st) as [mp |]; [| done].
  simplify_eq. simpl. by apply zeroPath_preserves.
Qed.

Lemma runHeist_ext_on rm targetSensors :
  P rm →
  runHeist setRisk engine1 rm targetSensors
  = runHeist setRisk engine2 rm targetSensors.
Proof. intros Hrm. unfold runHeist. by rewrite heistLoop_ext_on. Qed.
End SelectionExtOn.

Lemma MultiRoot_solveHeist_agree {Q1 Q2 : Type}
    `{!MinPriorityQueue Q1, !MinPriorityQueueLaws Q1}
    `{!MinPriorityQueue Q2, !MinPriorityQueueLaws Q2}
    sensors risks targetSensors :
  MultiRoot.solveHeist (Q:=Q1) sensors risks targetSensors
  = MultiRoot.solveHeist (Q:=Q2) sensors risks targetSensors.
Proof.
  unfold MultiRoot.solveHeist. destruct (buildGraph sensors) as [graph |]; [| done].
  simpl. f_equal. apply (runHeist_ext_on setRisk _ _ (λ _, True)); [done | | done].
  intros rm t _. apply multiRootDijkstra_agree.
Qed.

Lemma PerRoot_solveHeist_agree {Q1 Q2 : Type}
    `{!MinPriorityQueue Q1, !MinPriorityQueueLaws Q1}
    `{!MinPriorityQueue Q2, !MinPriorityQueueLaws Q2}
    sensors risks targetSensors :
  PerRoot.solveHeist (Q:=Q1) sensors risks targetSensors
  = PerRoot.solveHeist (Q:=Q2) sensors risks targetSensors.
Proof.
  unfold PerRoot.solveHeist. destruct (buildGraph sensors) as [graph |]; [| done].
  simpl. f_equal. apply (runHeist_ext_on setRisk _ _ (λ _, True)); [done | | done].
  intros rm t _. apply findBestPathToTarget_agree.
Qed.

#[export] Instance stackQueue_laws : MinPriorityQueueLaws StackQueue.
Proof.
  split; simpl.
  - done.
  - done.
  - intros q. destruct (extractMin (sq_items q)) as [[e rest] |] eqn:He.
    + split; [done |]. intros Hnil. rewrite Hnil in He. done.
    + split; [| done]. intros _. by apply extractMin_None.
  - intros q e q' Hd.
    destruct (extractMin (sq_items q)) as [[m rest] |] eqn:He; [| done].
    simplify_eq. simpl. by apply extractMin_perm.
  - intros q e q' x Hd.
    destruct (extractMin (sq_items q)) as [[m rest] |] eqn:He; [| done].
    simplify_eq. by eapply extractMin_min.
Qed.

(** ** The two engines in the selection loop *)

Lemma searchLoop_target {Q : Type} `{!MinPriorityQueue Q} graph riskMap fuel target :
  ∀ risks visited (pq : Q) info,
    searchLoop graph riskMap fuel target risks visited pq = Some (Some info) →
    tpi_target info = target.
Proof.
  induction fuel as [| fuel IH]; intros risks visited pq info Hrun; [done |].
  simpl in Hrun. destruct (dequeue pq) as [[e pq'] |]; [| done].
  case_decide; [by eapply IH |]. case_decide; [by simplify_eq | by eapply IH].
Qed.

Lemma multiRootDijkstra_target {Q : Type} `{!MinPriorityQueue Q}
    sensors graph roots riskMap target info :
  MultiRoot.multiRootDijkstra sensors graph roots riskMap target = Some info →
  tpi_target info = target.
Proof.
  unfold MultiRoot.multiRootDijkstra. cbv zeta.
  destruct (searchLoop _ _ _ _ _ _ _) as [res |] eqn:Hrun; [| done].
  simpl. intros ->. by eapply searchLoop_target.
Qed.

Lemma findBestPathToTarget_target {Q : Type} `{!MinPriorityQueue Q}
    sensors graph roots riskMap target info :
  PerRoot.findBestPathToTarget sensors graph roots riskMap target = Some info →
  tpi_target info = target.
Proof.
  unfold PerRoot.findBestPathToTarget. cbv zeta.
  destruct (PerRoot.bestPath _); [| done].
  destruct (PerRoot.bestRisk _); [| done]. by intros [= <-].
Qed.

Lemma engineSpec_Some graph roots riskMap target res info :
  engineSpec graph roots riskMap target res → res = Some info →
  tpi_target info = target ∧ last (tpi_path info) = Some target ∧
  reachable graph roots target.
Proof.
  intros Hspec ->. destruct Hspec as (Ht & Hw & _).
  split; [done |]. split; [by eapply walk_last |].
  exists (tpi_path info). by apply walk_isPathFrom.
Qed.

Lemma engineSpec_None graph roots riskMap target res :
  engineSpec graph roots riskMap target res → res = None →
  ¬ reachable graph roots target.
Proof. intros Hspec -> [p Hp%walk_isPathFrom]. by apply (Hspec p). Qed.

(** ** Order of resolution *)

Section HeistOrder.
Context {Store : Type}.
Variable setRisk : Store → N → N → Z → Store.
Variable engine : Store → N → option TargetPathInfo.
Variable reach : N → Prop.
Hypothesis engine_target :
  ∀ rm t info, engine rm t = Some info → tpi_target info = t.
Hypothesis engine_Some :
  ∀ rm t info, engine rm t = Some info →
               last (tpi_path info) = Some t ∧ reach t.
Hypothesis engine_None : ∀ rm t, engine rm t = None → ¬ reach t.

(** When a path is recorded, every target resolved later is still pending,
    has a path, and costs at least as much under the risks of that moment. *)
Lemma resolutions_greedy fuel st i j sti mpi stj mpj :
  (i < j)%nat →
  resolutions setRisk engine fuel st !! i = Some (sti, mpi) →
  resolutions setRisk engine fuel st !! j = Some (stj, mpj) →
  ∃ info,
    engine (ls_riskMap sti) (tpi_target mpj) = Some info ∧
    (tpi_risk mpi ≤ tpi_risk info)%Z ∧
    (tpi_risk mpi = tpi_risk info → (tpi_target mpi < tpi_target mpj)%N).
Proof.
  intros Hij Hi Hj.
  destruct (resolutions_later _ _ _ _ _ _ _ _ _ _ Hij Hi Hj)
    as (sti' & Hstep & Hsteps).
  destruct (resolutions_elem _ _ _ _ _ _ _ Hi) as [_ Hwi].
  destruct (resolutions_elem _ _ _ _ _ _ _ Hj) as [_ Hwj].
  destruct (winner_Some engine engine_target _ _ Hwj) as (Hinj & Hej & _).
  destruct (engine_Some _ _ _ Hej) as [_ Hreach].
  pose proof (steps_remaining _ _ _ _ _ Hsteps Hinj) as Hin'.
  apply heistStep_Some in Hstep as (mp & Hw & ->). simpl in Hin'.
  rewrite Hwi in Hw. simplify_eq.
  apply list_elem_of_filter in Hin' as [Hne Hin].
  destruct (engine (ls_riskMap sti) (tpi_target mpj)) as [info |] eqn:He.
  - exists info. split; [done |].
    destruct (winner_Some engine engine_target _ _ Hwi) as (_ & _ & Hmin).
    destruct (Hmin _ _ Hin He) as [Hle Htie]. split; [done |].
    intros Heq. specialize (Htie Heq). lia.
  - destruct (engine_None _ _ He Hreach).
Qed.
End HeistOrder.

(** Zeroed edges stay zeroed for the rest of the run. *)
Lemma steps_zero engine st st' a b :
  steps setRisk engine st st' →
  getRisk (ls_riskMap st) a b = 0%Z → getRisk (ls_riskMap st') a b = 0%Z.
Proof.
  induction 1 as [| st st1 st2 Hs _ IH]; [done |]. intros Hz. apply IH.
  apply heistStep_Some in Hs as (mp & _ & ->). simpl.
  rewrite getRisk_zeroPath. by case_decide.
Qed.

(** ** Order of joined paths *)

Lemma append_cons a s t : String a s +:+ t = String a (s +:+ t).
Proof. done. Qed.

Lemma append_empty t : "" +:+ t = t.
Proof. done. Qed.

Lemma append_assoc s : ∀ t u, (s +:+ t) +:+ u = s +:+ t +:+ u.
Proof.
  induction s as [| a s IH]; intros t u; [done |].
  by rewrite !append_cons, IH.
Qed.

Lemma string_le_compare s t : String.le s t ↔ (s ?= t)%string ≠ Gt.
Proof.
  unfold String.le, String.leb. destruct (s ?= t)%string; simpl; split; done.
Qed.

Lemma ascii_compare_refl a : Ascii.compare a a = Eq.
Proof. apply N.compare_refl. Qed.

(** A string comes no later than any of its extensions. *)
Lemma compare_prefix s : ∀ t, (s ?= s +:+ t)%string ≠ Gt.
Proof.
  induction s as [| a s IH]; intros t.
  - rewrite append_empty. by destruct t.
  - rewrite append_cons. simpl. rewrite ascii_compare_refl. apply IH.
Qed.

(** No character of the string sorts before the comma. *)
Fixpoint commaLeast (s : string) : Prop :=
  match s with
  | EmptyString => True
  | String c s' => Ascii.compare "," c ≠ Gt ∧ commaLeast s'
  end.

Lemma commaLeast_app s : ∀ t, commaLeast s → commaLeast t → commaLeast (s +:+ t).
Proof.
  induction s as [| a s IH]; intros t Hs Ht; [done |].
  rewrite append_cons. destruct Hs as [Ha Hs]. split; [done | by apply IH].
Qed.

Lemma pretty_N_char_after_comma d : Ascii.compare "," (pretty_N_char d) ≠ Gt.
Proof. unfold pretty_N_char. by repeat case_match. Qed.

Lemma pretty_N_go_commaLeast x : ∀ s, commaLeast s → commaLeast (pretty_N_go x s).
Proof.
  induction (N.lt_wf_0 x) as [x _ IH]; intros s Hs.
  destruct (decide (x = 0%N)) as [-> | Hx]; [by rewrite pretty_N_go_0 |].
  rewrite pretty_N_go_step by lia. apply IH.
  - apply N.div_lt; lia.
  - split; [apply pretty_N_char_after_comma | done].
Qed.

Lemma pretty_N_commaLeast (n : N) : commaLeast (pretty n).
Proof.
  unfold pretty, pretty_N. case_decide; [by split |].
  by apply pretty_N_go_commaLeast.
Qed.

Lemma joinPath_commaLeast p : commaLeast (joinPath p).
Proof.
  induction p as [| x [| y p] IH]; [done | apply pretty_N_commaLeast |].
  rewrite joinPath_cons. apply commaLeast_app; [apply pretty_N_commaLeast |].
  split; [done | exact IH].
Qed.

(** If [s] comes before [t] and [t] does not continue [s] with a comma, then
    [s] followed by a comma comes strictly before every extension of [t]. *)
Lemma compare_extend s : ∀ t x y,
  (s ?= t)%string ≠ Gt → s ≠ t → (∀ r, t ≠ s +:+ "," +:+ r) → commaLeast t →
  (s +:+ "," +:+ x ?= t +:+ y)%string = Lt.
Proof.
  induction s as [| a s IH]; intros [| c t] x y Hle Hne Hpre Hok; try done.
  - rewrite append_empty, !append_cons. simpl.
    destruct Hok as [Hc _].
    destruct (Ascii.compare "," c) eqn:Hcmp; [| done | done].
    apply Ascii.compare_eq_iff in Hcmp as <-. by destruct (Hpre t).
  - rewrite !append_cons. simpl in *.
    destruct (Ascii.compare a c) eqn:Hcmp; [| done | done].
    apply Ascii.compare_eq_iff in Hcmp as <-.
    destruct Hok as [_ Hok]. apply IH; [done | congruence | | done].
    intros r ->. by destruct (Hpre r).
Qed.

Lemma joinPath_snoc p v :
  p ≠ [] → joinPath (p ++ [v]) = joinPath p +:+ "," +:+ pretty v.
Proof.
  induction p as [| x [| y p] IH]; intros Hp; [done | done |].
  change ((x :: y :: p) ++ [v]) with (x :: y :: (p ++ [v])).
  rewrite !joinPath_cons. change (y :: p ++ [v]) with ((y :: p) ++ [v]).
  rewrite IH by done. by rewrite !append_assoc.
Qed.

Lemma joinPath_singleton x : joinPath [x] = pretty x.
Proof. done. Qed.

Lemma joinPath_nonempty x p : joinPath (x :: p) ≠ "".
Proof.
  destruct p as [| y p]; [apply pretty_N_nonempty |].
  rewrite joinPath_cons. destruct (pretty x) eqn:Hx; [| by rewrite append_cons].
  by destruct (pretty_N_nonempty x).
Qed.

(** A joined path continued by a comma is the start of a longer path. *)
Lemma joinPath_continued p : ∀ q r,
  p ≠ [] → joinPath q = joinPath p +:+ "," +:+ r →
  ∃ q', q' ≠ [] ∧ q = p ++ q'.
Proof.
  induction p as [| x [| x' p] IH]; intros q r Hp Heq; [done | |].
  - rewrite joinPath_singleton in Heq. destruct q as [| y [| y' q]].
    + symmetry in Heq. change (joinPath []) with "" in Heq.
      destruct (pretty x) eqn:Hx; [by destruct (pretty_N_nonempty x) |].
      by rewrite append_cons in Heq.
    + exfalso. eapply (commaFree_no_comma (pretty x) (pretty y));
        [apply pretty_N_commaFree | exact Heq].
    + rewrite joinPath_cons in Heq.
      apply comma_split in Heq as [Hxy _]; [| apply pretty_N_commaFree..].
      apply (inj pretty) in Hxy as ->. by exists (y' :: q).
  - rewrite joinPath_cons, append_assoc in Heq.
    change (("," +:+ joinPath (x' :: p)) +:+ "," +:+ r)
      with ("," +:+ joinPath (x' :: p) +:+ "," +:+ r) in Heq.
    destruct q as [| y [| y' q]].
    + symmetry in Heq. change (joinPath []) with "" in Heq.
      destruct (pretty x) eqn:Hx; [by destruct (pretty_N_nonempty x) |].
      by rewrite append_cons in Heq.
    + exfalso. eapply (commaFree_no_comma (pretty x) (pretty y));
        [apply pretty_N_commaFree | exact Heq].
    + rewrite joinPath_cons in Heq.
      apply comma_split in Heq as [Hxy Hrest]; [| apply pretty_N_commaFree..].
      apply (inj pretty) in Hxy as ->.
      destruct (IH (y' :: q) r) as (q' & Hq' & Hq); [done.. |].
      exists q'. split; [done |]. by rewrite Hq.
Qed.

(** ** Tied paths: the order the frontier imposes on paths *)

(** [p] has lower risk than [q], or the same risk and a joined string that
    does not come later. *)
Definition pathLe (riskMap : gmap string Z) (p q : list N) : Prop :=
  (pathRisk riskMap p < pathRisk riskMap q)%Z ∨
  (pathRisk riskMap p = pathRisk riskMap q ∧
   (joinPath p ?= joinPath q)%string ≠ Gt).

Lemma compareEntries_pathLe riskMap a b :
  pathRisk riskMap (e_path a) = e_risk a →
  pathRisk riskMap (e_path b) = e_risk b →
  compareEntries a b ≠ Gt ↔ pathLe riskMap (e_path a) (e_path b).
Proof.
  intros Ha Hb. rewrite compareEntries_le_iff. unfold pathLe.
  rewrite Ha, Hb. by rewrite string_le_compare.
Qed.

Lemma pathLe_refl riskMap p : pathLe riskMap p p.
Proof. right. split; [done |]. apply string_le_compare. done. Qed.

Lemma pathLe_trans riskMap p q r :
  pathLe riskMap p q → pathLe riskMap q r → pathLe riskMap p r.
Proof.
  intros [? | [? Hpq]] [? | [? Hqr]]; [left; lia.. |].
  right. split; [lia |]. apply string_le_compare.
  apply string_le_compare in Hpq, Hqr. by etrans.
Qed.

Lemma pathLe_antisym riskMap p q :
  pathLe riskMap p q → pathLe riskMap q p → p = q.
Proof.
  intros [? | [? Hpq]] [? | [? Hqp]]; try lia.
  apply joinPath_inj. apply (anti_symm String.le); by apply string_le_compare.
Qed.

(** Going one edge further never comes earlier. *)
Lemma pathLe_snoc riskMap p u v :
  nonNegative riskMap → last p = Some u → pathLe riskMap p (p ++ [v]).
Proof.
  intros Hnn Hl. unfold pathLe. rewrite (pathRisk_snoc _ _ u) by done.
  pose proof (getRisk_nonneg riskMap u v Hnn).
  destruct (decide (getRisk riskMap u v = 0%Z)) as [Hz | Hz]; [| left; lia].
  right. split; [lia |]. rewrite joinPath_snoc by (by intros ->).
  apply compare_prefix.
Qed.

(** Two paths to the same node keep their order when the same node is
    appended to both, provided the later one does not pass through its end
    twice. *)
Lemma pathLe_snoc_both riskMap p q u v :
  last p = Some u → last q = Some u → NoDup q →
  pathLe riskMap p q → pathLe riskMap (p ++ [v]) (q ++ [v]).
Proof.
  intros Hp Hq Hnd Hle. unfold pathLe.
  rewrite !(pathRisk_snoc _ _ u) by done.
  destruct Hle as [? | [Heq Hle]]; [left; lia |].
  right. split; [lia |].
  destruct (decide (p = q)) as [-> | Hne].
  { apply string_le_compare. done. }
  assert (p ≠ []) as Hpne by (by intros ->).
  assert (q ≠ []) as Hqne by (by intros ->).
  rewrite !joinPath_snoc by done.
  rewrite (compare_extend (joinPath p) (joinPath q)); [done | done | | |].
  - intros ?%joinPath_inj. done.
  - intros r Hr. apply joinPath_continued in Hr as (q' & Hq' & ->); [| done].
    apply NoDup_app in Hnd as (_ & Hdisj & _).
    apply (Hdisj u).
    + apply last_Some in Hp as [p' ->]. apply elem_of_app. right. by left.
    + rewrite last_app in Hq. destruct (last q') as [u' |] eqn:Hq''.
      * simplify_eq. apply last_Some in Hq'' as [q'' ->].
        apply elem_of_app. right. by left.
      * by apply last_None in Hq''.
  - apply joinPath_commaLeast.
Qed.

(** ** The search returns the first of the tied paths *)

Section LexProofs.
Context {Q : Type} `{!MinPriorityQueue Q, !MinPriorityQueueLaws Q}.
Variable graph : gmap N (list N).
Variable riskMap : gmap string Z.
Variable starts : list N.
Variable target : N.
Hypothesis Hnn : nonNegative riskMap.
Hypothesis Hsimple : ∀ p t, walk graph starts p t → NoDup p.

(** Every finalised node was reached by the first of all its walks, and
    each of its pending neighbours has a frontier entry no later than that
    walk continued to the neighbour. *)
Definition lexFrontier (visited : gset N) (pq : Q) : Prop :=
  ∀ x, x ∈ visited → ∃ π,
    walk graph starts π x ∧
    (∀ q, walk graph starts q x → pathLe riskMap π q) ∧
    ∀ z, isEdge graph x z = true → z ∉ visited →
      ∃ e, e ∈ pq_items pq ∧ e_node e = z ∧
           pathLe riskMap (e_path e) (π ++ [z]).

Record lexInv (risks : gmap N Num) (visited : gset N) (pq : Q) : Prop := {
  lex_base : baseInv graph riskMap starts risks visited pq;
  lex_frontier : lexFrontier visited pq;
  lex_target : target ∉ visited
}.

Lemma lex_entry risks visited pq q y :
  lexInv risks visited pq → walk graph starts q y → y ∉ visited →
  ∃ e, e ∈ pq_items pq ∧ pathLe riskMap (e_path e) q.
Proof.
  intros Hinv Hw. induction Hw as [r Hr | q u v Hw IH He]; intros Hy.
  - exists {| e_risk := 0; e_node := r; e_path := [r] |}.
    split; [by apply (base_starts _ _ _ _ _ _ (lex_base _ _ _ Hinv)) |].
    apply pathLe_refl.
  - pose proof (walk_last _ _ _ _ Hw) as Hl.
    destruct (decide (u ∈ visited)) as [Hu | Hu].
    + destruct (lex_frontier _ _ _ Hinv u Hu) as (π & Hπ & Hmin & Hz).
      destruct (Hz v He Hy) as (e & Hin & _ & Hle).
      exists e. split; [done |].
      eapply pathLe_trans; [done |].
      apply (pathLe_snoc_both _ _ _ u); [by eapply walk_last | done | | by apply Hmin].
      by eapply Hsimple.
    + destruct (IH Hu) as (e & Hin & Hle).
      exists e. split; [done |].
      eapply pathLe_trans; [done |]. by apply (pathLe_snoc _ _ u).
Qed.

Lemma lex_dequeued risks visited (pq pq' : Q) e q :
  lexInv risks visited pq → dequeue pq = Some (e, pq') →
  e_node e ∉ visited → walk graph starts q (e_node e) →
  pathLe riskMap (e_path e) q.
Proof.
  intros Hinv Hd Hv Hq.
  destruct (lex_entry _ _ _ _ _ Hinv Hq Hv) as (y & Hy & Hle).
  eapply pathLe_trans; [| done].
  pose proof (lex_base _ _ _ Hinv) as Hb.
  apply (compareEntries_pathLe riskMap e y).
  - by apply (base_entries _ _ _ _ _ _ Hb), (dequeue_head _ _ _ Hd).
  - by apply (base_entries _ _ _ _ _ _ Hb).
  - by eapply dequeue_min.
Qed.

Lemma lex_step_stale risks visited (pq pq' : Q) e :
  lexInv risks visited pq → dequeue pq = Some (e, pq') →
  e_node e ∈ visited → lexInv risks visited pq'.
Proof.
  intros [Hb Hf Ht] Hd He. split; [by eapply baseInv_dequeue | | done].
  intros x Hx. destruct (Hf x Hx) as (π & Hπ & Hmin & Hz).
  exists π. split; [done |]. split; [done |]. intros z Hxz Hv.
  destruct (Hz z Hxz Hv) as (y & Hy & Hyn & ?).
  exists y. split; [| done]. eapply dequeue_other; [done.. |].
  intros ->. congruence.
Qed.

Lemma lex_step_visit risks visited (pq pq' : Q) e :
  lexInv risks visited pq → dequeue pq = Some (e, pq') →
  e_node e ∉ visited → e_node e ≠ target →
  lexInv
    (foldl (relax riskMap ({[e_node e]} ∪ visited) (e_risk e) (e_node e) (e_path e))
           (risks, pq') (default [] (graph !! e_node e))).1
    ({[e_node e]} ∪ visited)
    (foldl (relax riskMap ({[e_node e]} ∪ visited) (e_risk e) (e_node e) (e_path e))
           (risks, pq') (default [] (graph !! e_node e))).2.
Proof.
  intros Hinv Hd He Hne.
  pose proof Hinv as [Hb Hf Ht].
  destruct (base_entries _ _ _ _ _ _ Hb e (dequeue_head _ _ _ Hd)) as [Hw Hr].
  assert (baseInv graph riskMap starts risks ({[e_node e]} ∪ visited) pq') as Hb'.
  { eapply baseInv_dequeue; [done.. | apply union_subseteq_r |].
    apply elem_of_union_l. by apply elem_of_singleton. }
  assert (∀ n, n ∈ default [] (graph !! e_node e) →
               isEdge graph (e_node e) n = true) as Hedges.
  { intros n Hn. by apply isEdge_neighbors. }
  pose proof (relaxAll_base graph riskMap starts ({[e_node e]} ∪ visited)
                (e_risk e) (e_node e) (e_path e) (default [] (graph !! e_node e))
                risks pq' Hb' Hw Hr Hedges) as Hbase.
  split; [done | |].
  2: { intros [Hin%elem_of_singleton | Hin]%elem_of_union; congruence. }
  intros x Hx. destruct (decide (x = e_node e)) as [-> | Hxe].
  - exists (e_path e). split; [done |]. split.
    + intros q Hq. by eapply lex_dequeued.
    + intros z Hz Hv.
      destruct (relaxAll_covers graph riskMap starts ({[e_node e]} ∪ visited)
                  (e_risk e) (e_node e) (e_path e)
                  (default [] (graph !! e_node e)) risks pq' z)
        as (y & Hy & Hyn & Hle); [done.. | by apply isEdge_neighbors | done |].
      exists y. split; [done |]. split; [done |].
      apply (compareEntries_pathLe riskMap) in Hle; [done | |].
      * by apply (base_entries _ _ _ _ _ _ Hbase).
      * simpl. rewrite (pathRisk_snoc _ _ (e_node e)) by (by eapply walk_last). lia.
  - assert (x ∈ visited) as Hxv.
    { apply elem_of_union in Hx as [Hx%elem_of_singleton | Hx]; done. }
    destruct (Hf x Hxv) as (π & Hπ & Hmin & Hz).
    exists π. split; [done |]. split; [done |]. intros z Hxz Hv.
    destruct (Hz z Hxz) as (y & Hy & Hyn & ?).
    { intros ?. apply Hv. by apply elem_of_union_r. }
    exists y. split; [| done]. apply relaxAll_mono.
    eapply dequeue_other; [done.. |]. intros ->.
    apply Hv. apply elem_of_union_l. by apply elem_of_singleton.
Qed.

Lemma searchLoop_first fuel : ∀ risks visited (pq : Q) info q,
  lexInv risks visited pq →
  searchLoop graph riskMap fuel target risks visited pq = Some (Some info) →
  walk graph starts q target → pathLe riskMap (tpi_path info) q.
Proof.
  induction fuel as [| fuel IH]; intros risks visited pq info q Hinv Hrun Hq; [done |].
  simpl in Hrun.
  destruct (dequeue pq) as [[e pq'] |] eqn:Hd; [| done].
  destruct (decide (e_node e ∈ visited)) as [Hv | Hv].
  { eapply IH; [| done..]. by eapply lex_step_stale. }
  destruct (decide (e_node e = target)) as [Ht | Ht].
  - injection Hrun as <-. simpl. rewrite <- Ht in Hq. by eapply lex_dequeued.
  - eapply IH; [| done..]. by eapply lex_step_visit.
Qed.
End LexProofs.

(** ** Acyclic graphs *)

#[export] Instance rankedGraph_dec rank graph : Decision (rankedGraph rank graph).
Proof. unfold rankedGraph. apply _. Defined.

Lemma rankedGraph_edge rank graph u v :
  rankedGraph rank graph → isEdge graph u v = true → (rank u < rank v)%nat.
Proof.
  intros Hr He%isEdge_neighbors.
  destruct (graph !! u) as [l |] eqn:Hl; simpl in He; [| by apply elem_of_nil in He].
  pose proof (map_Forall_lookup_1 _ _ _ _ Hr Hl) as Hall. simpl in Hall.
  by apply (proj1 (Forall_forall _ _) Hall).
Qed.

Lemma ranked_walk rank graph starts p t :
  rankedGraph rank graph → walk graph starts p t →
  NoDup p ∧ ∀ x, x ∈ p → (rank x ≤ rank t)%nat.
Proof.
  intros Hr. induction 1 as [r _ | p u v Hw [Hnd Hle] He].
  - split; [apply NoDup_singleton |]. by intros x ->%list_elem_of_singleton.
  - pose proof (rankedGraph_edge _ _ _ _ Hr He) as Hlt. split.
    + apply NoDup_app. split; [done |]. split; [| apply NoDup_singleton].
      intros x Hx ->%list_elem_of_singleton. specialize (Hle _ Hx). lia.
    + intros x [Hx | ->%list_elem_of_singleton]%elem_of_app; [| done].
      specialize (Hle _ Hx). lia.
Qed.

Lemma acyclic_walk_NoDup graph starts p t :
  acyclic graph → walk graph starts p t → NoDup p.
Proof. intros [rank Hr] Hw. by destruct (ranked_walk _ _ _ _ _ Hr Hw). Qed.

(** ** The engines return the first of the tied paths *)

Section EngineFirst.
Context {Q : Type} `{!MinPriorityQueue Q, !MinPriorityQueueLaws Q}.
Variable sensors : list Sensor.
Variable graph : gmap N (list N).
Variable riskMap : gmap string Z.
Hypothesis Hclosed : closedGraph (id <$> sensors) graph.
Hypothesis Hnn : nonNegative riskMap.
Hypothesis Hacyclic : acyclic graph.

Lemma multiRootDijkstra_first roots target info q :
  MultiRoot.multiRootDijkstra (Q:=Q) sensors graph roots riskMap target = Some info →
  walk graph roots q target → pathLe riskMap (tpi_path info) q.
Proof.
  unfold MultiRoot.multiRootDijkstra. cbv zeta.
  destruct (searchLoop _ _ _ _ _ _ _) as [res |] eqn:Hrun; [| done].
  simpl. intros ->. eapply searchLoop_first; [done | | | exact Hrun].
  - intros p t. by apply acyclic_walk_NoDup.
  - split; [by apply multiRoot_init_base | | apply not_elem_of_empty].
    intros x Hx. by apply not_elem_of_empty in Hx.
Qed.

Lemma dijkstra_first start target info q :
  PerRoot.dijkstra (Q:=Q) sensors graph riskMap start target = Some info →
  walk graph [start] q target → pathLe riskMap (tpi_path info) q.
Proof.
  unfold PerRoot.dijkstra.
  destruct (searchLoop _ _ _ _ _ _ _) as [res |] eqn:Hrun; [| done].
  simpl. intros ->. eapply searchLoop_first; [done | | | exact Hrun].
  - intros p t. by apply acyclic_walk_NoDup.
  - split; [by apply dijkstra_init_base | | apply not_elem_of_empty].
    intros x Hx. by apply not_elem_of_empty in Hx.
Qed.
End EngineFirst.

(** ** When the two variants coincide *)


Lemma pretty_N_char_code d :
  (d < 10)%N → N_of_ascii (pretty_N_char d) = (48 + d)%N.
Proof.
  intros Hd.
  assert (d = 0 ∨ d = 1 ∨ d = 2 ∨ d = 3 ∨ d = 4 ∨ d = 5 ∨ d = 6 ∨ d = 7 ∨ d = 8
          ∨ d = 9)%N as Hcases by lia.
  repeat (destruct Hcases as [-> | Hcases]; [reflexivity |]). by subst.
Qed.

Lemma pretty_digit (d : N) : (d < 10)%N → pretty d = String (pretty_N_char d) "".
Proof.
  intros Hd. unfold pretty, pretty_N. case_decide as Hz; [by subst |].
  rewrite pretty_N_go_step by lia.
  rewrite (N.div_small d 10), (N.mod_small d 10) by done.
  by rewrite pretty_N_go_0.
Qed.

Lemma joinPath_head r p : ∃ s, joinPath (r :: p) = pretty r +:+ s.
Proof.
  destruct p as [| y p].
  - exists "". rewrite joinPath_singleton.
    induction (pretty r) as [| a s IH]; [done |]. by rewrite append_cons, <- IH.
  - eexists. apply joinPath_cons.
Qed.

Lemma digits_sort_as_strings roots :
  (∀ r, r ∈ roots → (r < 10)%N) → rootsSortAsStrings roots.
Proof.
  intros Hsmall r1 r2 p q H1%Hsmall H2%Hsmall Hlt.
  destruct (joinPath_head r1 p) as [s1 ->], (joinPath_head r2 q) as [s2 ->].
  rewrite !pretty_digit by done. rewrite !append_cons. simpl.
  unfold Ascii.compare. rewrite !pretty_N_char_code by done.
  by rewrite (proj2 (N.compare_lt_iff _ _)) by lia.
Qed.

Lemma walk_from_head graph starts p t :
  walk graph starts p t →
  ∃ r p', r ∈ starts ∧ p = r :: p' ∧ walk graph [r] p t.
Proof.
  induction 1 as [r Hr | p u v Hw (r & p' & Hr & -> & Hw') He].
  - exists r, []. split; [done |]. split; [done |]. apply walk_start. by left.
  - exists r, (p' ++ [v]). split; [done |]. split; [done |]. by eapply walk_step.
Qed.

Lemma walk_from_member graph starts r p t :
  r ∈ starts → walk graph [r] p t → walk graph starts p t.
Proof.
  intros Hr. induction 1 as [r' ->%list_elem_of_singleton | p u v Hw IH He].
  - by apply walk_start.
  - by eapply walk_step.
Qed.

Section VariantsAgree.
Context {Q : Type} `{!MinPriorityQueue Q, !MinPriorityQueueLaws Q}.
Variable sensors : list Sensor.
Variable graph : gmap N (list N).
Variable riskMap : gmap string Z.
Variable roots : list N.
Hypothesis Hclosed : closedGraph (id <$> sensors) graph.
Hypothesis Hnn : nonNegative riskMap.
Hypothesis Hacyclic : acyclic graph.
Hypothesis Hroots : rootsSortAsStrings roots.

(** Which root [findBestPathToTarget] has settled on after the roots [done]. *)
Definition rootChoice (target : N) (done : list N) (b : PerRoot.BestRoot) : Prop :=
  match PerRoot.bestPath b with
  | None =>
      PerRoot.bestRisk b = Infinity ∧
      ∀ r, r ∈ done → PerRoot.dijkstra (Q:=Q) sensors graph riskMap r target = None
  | Some p =>
      ∃ r res,
        PerRoot.bestRoot b = Some r ∧
        PerRoot.bestRisk b = Finite (tpi_risk res) ∧
        r ∈ done ∧
        PerRoot.dijkstra (Q:=Q) sensors graph riskMap r target = Some res ∧
        tpi_path res = p ∧
        ∀ r' res', r' ∈ done →
          PerRoot.dijkstra (Q:=Q) sensors graph riskMap r' target = Some res' →
          (tpi_risk res ≤ tpi_risk res')%Z ∧
          (tpi_risk res = tpi_risk res' → (r ≤ r')%N)
  end.

Lemma considerRoot_choice target done b root :
  rootChoice target done b →
  rootChoice target (done ++ [root])
    (PerRoot.considerRoot sensors graph riskMap target b root).
Proof.
  unfold rootChoice, PerRoot.considerRoot. intros Hb.
  destruct (PerRoot.dijkstra sensors graph riskMap root target) as [res |] eqn:Hd.
  - destruct (PerRoot.bestPath b) as [p |] eqn:Hp.
    + destruct Hb as (r & res0 & Hr & Hrisk & Hin & Hd0 & Hp0 & Hmin).
      rewrite Hr, Hrisk. simpl.
      destruct ((tpi_risk res <? tpi_risk res0)%Z
                || (tpi_risk res =? tpi_risk res0)%Z && (root <? r)%N)
        eqn:Hcmp; simpl.
      * exists root, res. split; [done |]. split; [done |].
        split; [apply elem_of_app; right; by left |]. split; [done |].
        split; [done |].
        intros r' res' [Hr' | ->%list_elem_of_singleton]%elem_of_app Hd'.
        -- destruct (Hmin r' res' Hr' Hd') as [Hle Htie].
           apply orb_true_iff in Hcmp as [Hlt | [Heq Hlt]%andb_true_iff]; [lia |].
           apply N.ltb_lt in Hlt. lia.
        -- simplify_eq. lia.
      * rewrite Hp. exists r, res0. split; [done |]. split; [done |].
        split; [apply elem_of_app; by left |]. split; [done |]. split; [done |].
        intros r' res' [Hr' | ->%list_elem_of_singleton]%elem_of_app Hd';
          [by apply Hmin |].
        simplify_eq.
        apply orb_false_iff in Hcmp as [Hlt [Heq | Hge]%andb_false_iff]; [lia |].
        apply N.ltb_ge in Hge. lia.
    + destruct Hb as [Hinf Hnone]. rewrite Hinf. simpl.
      exists root, res. split; [done |]. split; [done |].
      split; [apply elem_of_app; right; by left |]. split; [done |]. split; [done |].
      intros r' res' [Hr' | ->%list_elem_of_singleton]%elem_of_app Hd'.
      * rewrite (Hnone r' Hr') in Hd'. done.
      * simplify_eq. lia.
  - destruct (PerRoot.bestPath b) as [p |].
    + destruct Hb as (r & res0 & Hr & Hrisk & Hin & Hd0 & Hp0 & Hmin).
      exists r, res0. split; [done |]. split; [done |].
      split; [apply elem_of_app; by left |]. split; [done |]. split; [done |].
      intros r' res' [Hr' | ->%list_elem_of_singleton]%elem_of_app Hd';
        [by apply Hmin | congruence].
    + destruct Hb as [Hinf Hnone]. split; [done |].
      intros r' [Hr' | ->%list_elem_of_singleton]%elem_of_app; [by apply Hnone | done].
Qed.

Lemma considerRoots_choice target rs : ∀ done b,
  rootChoice target done b →
  rootChoice target (done ++ rs)
    (foldl (PerRoot.considerRoot sensors graph riskMap target) b rs).
Proof.
  induction rs as [| r rs IH]; intros done b Hb; simpl.
  - by rewrite app_nil_r.
  - rewrite cons_middle, app_assoc. apply IH. by apply considerRoot_choice.
Qed.

Lemma findBestPathToTarget_choice target info :
  PerRoot.findBestPathToTarget (Q:=Q) sensors graph roots riskMap target = Some info →
  ∃ r res,
    r ∈ roots ∧
    PerRoot.dijkstra (Q:=Q) sensors graph riskMap r target = Some res ∧
    tpi_path info = tpi_path res ∧ tpi_risk info = tpi_risk res ∧
    ∀ r' res', r' ∈ roots →
      PerRoot.dijkstra (Q:=Q) sensors graph riskMap r' target = Some res' →
      (tpi_risk res ≤ tpi_risk res')%Z ∧
      (tpi_risk res = tpi_risk res' → (r ≤ r')%N).
Proof.
  unfold PerRoot.findBestPathToTarget.
  set (b := foldl _ _ roots).
  assert (rootChoice target roots b) as Hinv.
  { apply (considerRoots_choice target roots []). split; [done |].
    intros r Hr. by apply elem_of_nil in Hr. }
  unfold rootChoice in Hinv. cbv zeta.
  destruct (PerRoot.bestPath b) as [p |]; [| done].
  destruct Hinv as (r & res & _ & -> & Hin & Hd & Hp & Hmin). simpl.
  intros [= <-]. simpl. exists r, res. by rewrite Hp.
Qed.

(** On an acyclic graph with non-negative risks and roots that sort alike
    as numbers and as strings, the two engines return the same result. *)
Lemma engines_agree target :
  MultiRoot.multiRootDijkstra (Q:=Q) sensors graph roots riskMap target
  = PerRoot.findBestPathToTarget (Q:=Q) sensors graph roots riskMap target.
Proof.
  pose proof (multiRootDijkstra_spec (Q:=Q) sensors graph riskMap Hclosed roots target)
    as Hspec1.
  pose proof (findBestPathToTarget_spec (Q:=Q) sensors graph riskMap Hclosed roots target)
    as Hspec2.
  destruct (MultiRoot.multiRootDijkstra _ _ _ _ _) as [a |] eqn:Ha,
           (PerRoot.findBestPathToTarget _ _ _ _ _) as [b |] eqn:Hb; simpl in *.
  - destruct Hspec1 as (Hta & Hwa & Hra & Hopta), Hspec2 as (Htb & Hwb & Hrb & Hoptb).
    pose proof (Hopta Hnn _ Hwb) as Hab. pose proof (Hoptb Hnn _ Hwa) as Hba.
    destruct (findBestPathToTarget_choice _ _ Hb)
      as (r & res & Hr & Hd & Hpb & Hrisk & Hmin).
    pose proof (dijkstra_spec (Q:=Q) sensors graph riskMap Hclosed r target) as Hsr.
    rewrite Hd in Hsr. destruct Hsr as (_ & Hwr & _ & _).
    destruct (walk_from_head _ _ _ _ Hwa) as (r' & pa' & Hr' & Hpa & Hwa').
    pose proof (dijkstra_spec (Q:=Q) sensors graph riskMap Hclosed r' target) as Hsr'.
    destruct (PerRoot.dijkstra sensors graph riskMap r' target) as [res' |] eqn:Hd';
      simpl in Hsr'; [| by destruct (Hsr' _ Hwa')].
    destruct Hsr' as (_ & Hwr' & Hrr' & Hoptr').
    pose proof (Hoptr' Hnn _ Hwa') as Hle1.
    pose proof (Hopta Hnn _ (walk_from_member _ _ _ _ _ Hr' Hwr')) as Hle2.
    destruct (Hmin r' res' Hr' Hd') as [Hle3 Htie].
    assert (tpi_risk res = tpi_risk res') as Heq by lia.
    specialize (Htie Heq).
    pose proof (multiRootDijkstra_first sensors graph riskMap Hclosed Hnn Hacyclic
                  roots target a (tpi_path b) Ha Hwb) as Hfirst.
    assert (r = r') as <-.
    { destruct (decide (r = r')) as [| Hne]; [done |]. exfalso.
      assert (r < r')%N as Hlt by lia.
      destruct (walk_from_head _ _ _ _ Hwr) as (r0 & pr & Hr0 & Hpr & _).
      apply list_elem_of_singleton in Hr0 as ->.
      destruct Hfirst as [? | [_ Hle]]; [lia |].
      rewrite Hpb, Hpr, Hpa in Hle. apply Hle.
      rewrite String.compare_antisym.
      by rewrite (Hroots r r' pr pa' Hr Hr' Hlt). }
    assert (tpi_path a = tpi_path b) as Hpath.
    { apply (pathLe_antisym riskMap); [done |]. rewrite Hpb.
      by apply (dijkstra_first sensors graph riskMap Hclosed Hnn Hacyclic
                  r target res). }
    destruct a, b. simpl in *. f_equal; first [congruence | lia].
  - destruct Hspec1 as (_ & Hwa & _). by destruct (Hspec2 _ Hwa).
  - destruct Hspec2 as (_ & Hwb & _). by destruct (Hspec1 _ Hwb).
  - done.
Qed.
End VariantsAgree.


Lemma solveHeist_variants_agree {Q : Type}
    `{!MinPriorityQueue Q, !MinPriorityQueueLaws Q}
    sensors risks targetSensors graph :
  buildGraph sensors = Returned graph →
  Forall (λ r, (0 ≤ risk r)%Z) risks →
  acyclic graph →
  rootsSortAsStrings (findRoots sensors) →
  MultiRoot.solveHeist (Q:=Q) sensors risks targetSensors
  = PerRoot.solveHeist (Q:=Q) sensors risks targetSensors.
Proof.
  intros Hbuild Hrisks Hacyclic Hroots.
  pose proof (buildGraph_closed _ _ Hbuild) as Hclosed.
  unfold MultiRoot.solveHeist, PerRoot.solveHeist. rewrite Hbuild. simpl. f_equal.
  apply (runHeist_ext_on setRisk _ _ nonNegative).
  - intros rm a b Hrm. by apply map_Forall_insert_2.
  - intros rm t Hrm. by apply engines_agree.
  - by apply buildRiskMap_nonNegative.
Qed.

(** ** Both engines meet the engine specification *)

Lemma engines_meet_spec {Q : Type} `{!MinPriorityQueue Q, !MinPriorityQueueLaws Q}
    sensors graph roots engine :
  closedGraph (id <$> sensors) graph →
  engine = MultiRoot.multiRootDijkstra (Q:=Q) sensors graph roots ∨
  engine = PerRoot.findBestPathToTarget (Q:=Q) sensors graph roots →
  ∀ rm t, engineSpec graph roots rm t (engine rm t).
Proof.
  intros Hclosed [-> | ->] rm t.
  - by apply multiRootDijkstra_spec.
  - by apply findBestPathToTarget_spec.
Qed.

Lemma engines_run_spec {Q : Type} `{!MinPriorityQueue Q, !MinPriorityQueueLaws Q}
    sensors graph roots engine riskMap targetSensors :
  closedGraph (id <$> sensors) graph →
  engine = MultiRoot.multiRootDijkstra (Q:=Q) sensors graph roots ∨
  engine = PerRoot.findBestPathToTarget (Q:=Q) sensors graph roots →
  ∃ final ts,
    heistLoop setRisk engine (S (length (setOfList targetSensors)))
              (initialState riskMap targetSensors)
      = Some (runHeist setRisk engine riskMap targetSensors) ∧
    steps setRisk engine (initialState riskMap targetSensors) final ∧
    heistStep setRisk engine final = None ∧
    ls_paths final = runHeist setRisk engine riskMap targetSensors ∧
    (∀ t, t ∈ ls_remaining final → engine (ls_riskMap final) t = None) ∧
    Forall2 (λ p t, last p = Some t) (ls_paths final) ts ∧
    NoDup ts ∧
    (∀ t, t ∈ ts ↔ t ∈ targetSensors ∧ reachable graph roots t) ∧
    ts ++ ls_remaining final ≡ₚ setOfList targetSensors.
Proof.
  intros Hclosed Hengine.
  pose proof (engines_meet_spec sensors graph roots engine Hclosed Hengine) as Hspec.
  apply (runHeist_spec setRisk engine (reachable graph roots)).
  - intros rm t info He. by destruct (engineSpec_Some _ _ _ _ _ _ (Hspec rm t) He).
  - intros rm t info He.
    by destruct (engineSpec_Some _ _ _ _ _ _ (Hspec rm t) He) as (_ & ? & ?).
  - intros rm t He. exact (engineSpec_None _ _ _ _ _ (Hspec rm t) He).
Qed.

(** ** Further vocabulary *)

(** The risks that [risks] lists for the edge from [a] to [b], in input
    order. *)
Definition risksOf (risks : list Risk) (a b : N) : list Z :=
  risk <$> filter (λ r, fromSensor r = a ∧ toSensor r = b) risks.

(** The two risk stores answer every query alike. *)
Definition sameRisks (scanMap : list (Scan.Edge * Z)) (riskMap : gmap string Z)
    : Prop :=
  ∀ a b, Scan.getRisk scanMap a b = getRisk riskMap a b.

(** The sensors that declare [u] as a dependency, in input order, once per
    declaration. *)
Definition dependentsOf (sensors : list Sensor) (u : N) : list N :=
  sensors ≫= λ s, (λ _, id s) <$> filter (λ d, d = u) (dependencies s).

(** Risk of a path under the store of the linear-scan variant. *)
Fixpoint scanPathRisk (riskMap : list (Scan.Edge * Z)) (p : list N) : Z :=
  match p with
  | a :: (b :: _) as rest =>
      (Scan.getRisk riskMap a b + scanPathRisk riskMap rest)%Z
  | _ => 0%Z
  end.

(** ** The string-keyed risk store *)

Lemma default_last_cons {A} (d x : A) l :
  default d (last (x :: l)) = default x (last l).
Proof.
  revert d x. induction l as [|a l IH]; intros d x; [done|].
  change (last (x :: a :: l)) with (last (a :: l)).
  by rewrite (IH d a), (IH x a).
Qed.

Lemma risksOf_cons r risks a b :
  risksOf (r :: risks) a b
  = if decide (fromSensor r = a ∧ toSensor r = b)
    then risk r :: risksOf risks a b else risksOf risks a b.
Proof. unfold risksOf. rewrite filter_cons. by case_decide. Qed.

Lemma buildRiskMap_fold risks a b : ∀ m,
  getRisk (foldl (λ m r, <[riskKey (fromSensor r) (toSensor r) := risk r]> m)
                 m risks) a b
  = default (getRisk m a b) (last (risksOf risks a b)).
Proof.
  induction risks as [|r risks IH]; intros m; [done|].
  simpl. rewrite IH, risksOf_cons.
  change (<[riskKey (fromSensor r) (toSensor r) := risk r]> m)
    with (setRisk m (fromSensor r) (toSensor r) (risk r)).
  rewrite getRisk_setRisk.
  destruct (decide (fromSensor r = a ∧ toSensor r = b)) as [[<- <-]|Hne].
  - rewrite decide_True by done. by rewrite default_last_cons.
  - rewrite decide_False; [done|]. intros [= <- <-]. by apply Hne.
Qed.

Lemma buildRiskMap_lookup risks a b :
  getRisk (buildRiskMap risks) a b = default 0%Z (last (risksOf risks a b)).
Proof. unfold buildRiskMap. by rewrite buildRiskMap_fold. Qed.

(** ** The scanned risk store *)

Lemma Scan_getRisk_setRisk rm a b v c d :
  Scan.getRisk (Scan.setRisk rm a b v) c d
  = if decide (a = c ∧ b = d) then v else Scan.getRisk rm c d.
Proof.
  induction rm as [|[edge r] rm IH]; simpl.
  - repeat case_decide; naive_solver.
  - destruct (decide (Scan.from edge = a ∧ Scan.to edge = b)) as [[<- <-]|Hne];
      simpl.
    + repeat case_decide; naive_solver.
    + rewrite IH. repeat case_decide; naive_solver.
Qed.

Lemma Scan_buildRiskMap_lookup risks a b :
  Scan.getRisk (Scan.buildRiskMap risks) a b
  = default 0%Z (head (risksOf risks a b)).
Proof.
  induction risks as [|r risks IH]; [done|].
  rewrite risksOf_cons. simpl. rewrite IH.
  by case_decide.
Qed.

(** ** The two stores side by side *)

Lemma risksOf_absent risks a b :
  (a, b) ∉ (λ r, (fromSensor r, toSensor r)) <$> risks → risksOf risks a b = [].
Proof.
  induction risks as [|r risks IH]; [done|].
  rewrite fmap_cons, not_elem_of_cons. intros [Hne Hin].
  rewrite risksOf_cons, decide_False; [by apply IH|].
  intros [<- <-]. by apply Hne.
Qed.

Lemma risksOf_once risks a b :
  NoDup ((λ r, (fromSensor r, toSensor r)) <$> risks) →
  head (risksOf risks a b) = last (risksOf risks a b).
Proof.
  induction risks as [|r risks IH]; [done|].
  rewrite fmap_cons, NoDup_cons. intros [Hnew Hnd].
  rewrite risksOf_cons. case_decide as Hm; [|by apply IH].
  destruct Hm as [<- <-]. by rewrite risksOf_absent.
Qed.

Lemma sameRisks_build risks :
  NoDup ((λ r, (fromSensor r, toSensor r)) <$> risks) →
  sameRisks (Scan.buildRiskMap risks) (buildRiskMap risks).
Proof.
  intros Hnd a b.
  by rewrite Scan_buildRiskMap_lookup, buildRiskMap_lookup, risksOf_once.
Qed.

Lemma sameRisks_setRisk scanMap riskMap a b v :
  sameRisks scanMap riskMap →
  sameRisks (Scan.setRisk scanMap a b v) (setRisk riskMap a b v).
Proof.
  intros Hs c d. rewrite Scan_getRisk_setRisk, getRisk_setRisk, Hs.
  repeat case_decide; naive_solver.
Qed.

Lemma sameRisks_pathRisk scanMap riskMap p :
  sameRisks scanMap riskMap → scanPathRisk scanMap p = pathRisk riskMap p.
Proof.
  intros Hs. induction p as [|a [|b p] IH]; [done..|].
  change (scanPathRisk scanMap (a :: b :: p))
    with (Scan.getRisk scanMap a b + scanPathRisk scanMap (b :: p))%Z.
  change (pathRisk riskMap (a :: b :: p))
    with (getRisk riskMap a b + pathRisk riskMap (b :: p))%Z.
  by rewrite IH, Hs.
Qed.

(** A string-keyed store that answers like a scanned one. *)
Definition keyedStore (scanMap : list (Scan.Edge * Z)) : gmap string Z :=
  foldr (λ er m, <[riskKey (Scan.from er.1) (Scan.to er.1) := er.2]> m) ∅ scanMap.

Lemma sameRisks_keyed scanMap : sameRisks scanMap (keyedStore scanMap).
Proof.
  intros a b. induction scanMap as [|[edge r] rm IH]; [done|].
  simpl.
  change (<[riskKey (Scan.from edge) (Scan.to edge) := r]> (keyedStore rm))
    with (setRisk (keyedStore rm) (Scan.from edge) (Scan.to edge) r).
  rewrite getRisk_setRisk, IH.
  repeat case_decide; naive_solver.
Qed.

Lemma keyed_nonNegative scanMap :
  Forall (λ er, (0 ≤ er.2)%Z) scanMap → nonNegative (keyedStore scanMap).
Proof.
  induction 1 as [|[edge r] rm Hr _ IH]; simpl.
  - apply map_Forall_empty.
  - by apply map_Forall_insert_2.
Qed.

(** ** Roots *)

Lemma findRoots_perm sensors :
  findRoots sensors ≡ₚ id <$> filter (λ s, dependencies s = []) sensors.
Proof.
  unfold findRoots. rewrite merge_sort_Permutation.
  assert (filter (λ s, length (dependencies s) = 0%nat) sensors
          = filter (λ s, dependencies s = []) sensors) as ->; [|done].
  apply list_filter_iff. intros s. by destruct (dependencies s).
Qed.

Lemma findRoots_elem sensors r :
  r ∈ findRoots sensors ↔ ∃ s, s ∈ sensors ∧ id s = r ∧ dependencies s = [].
Proof.
  rewrite findRoots_perm, list_elem_of_fmap.
  setoid_rewrite list_elem_of_filter. naive_solver.
Qed.

Lemma findRoots_sorted sensors : StronglySorted N.le (findRoots sensors).
Proof. apply StronglySorted_merge_sort; apply _. Qed.

(** ** Adjacency lists *)

Lemma emptyGraph_lookup sensors u :
  emptyGraph sensors !! u = if decide (u ∈ id <$> sensors) then Some [] else None.
Proof.
  pose proof (emptyGraph_dom sensors u) as Hdom.
  destruct (emptyGraph_fold sensors ∅) as [_ Hval].
  case_decide as Hin.
  - apply Hdom, elem_of_dom in Hin as [l Hl].
    fold (emptyGraph sensors) in Hval.
    destruct (Hval _ _ Hl) as [->|Hl']; [done|by rewrite lookup_empty in Hl'].
  - apply not_elem_of_dom. by rewrite Hdom.
Qed.

Lemma Scan_addDependent_lookup sid deps u : ∀ g,
  foldl (Scan.addDependent sid) g deps !! u
  = (λ l, l ++ ((λ _, sid) <$> filter (λ d, d = u) deps)) <$> g !! u.
Proof.
  induction deps as [|d deps IH]; intros g; simpl.
  - destruct (g !! u); simpl; [|done].
    by rewrite app_nil_r.
  - rewrite IH, filter_cons. unfold Scan.addDependent.
    destruct (decide (d = u)) as [->|Hne].
    + destruct (g !! u) as [l|] eqn:Hl.
      * rewrite lookup_insert_eq. simpl. by rewrite <- app_assoc.
      * by rewrite Hl.
    + destruct (g !! d) as [l|]; [|done].
      by rewrite lookup_insert_ne.
Qed.

Lemma Scan_addSensors_lookup ss u : ∀ g,
  foldl (λ g s, foldl (Scan.addDependent (id s)) g (dependencies s)) g ss !! u
  = (λ l, l ++ dependentsOf ss u) <$> g !! u.
Proof.
  induction ss as [|s ss IH]; intros g; simpl.
  - destruct (g !! u); simpl; [|done]. by rewrite app_nil_r.
  - rewrite IH, Scan_addDependent_lookup.
    destruct (g !! u); simpl; [|done].
    unfold dependentsOf. simpl. by rewrite <- app_assoc.
Qed.

Lemma Scan_buildGraph_lookup sensors u :
  Scan.buildGraph sensors !! u
  = if decide (u ∈ id <$> sensors) then Some (dependentsOf sensors u) else None.
Proof.
  unfold Scan.buildGraph.
  rewrite Scan_addSensors_lookup, emptyGraph_lookup. by case_decide.
Qed.

Lemma dependentsOf_elem sensors u v :
  v ∈ dependentsOf sensors u ↔
  ∃ s, s ∈ sensors ∧ id s = v ∧ u ∈ dependencies s.
Proof.
  unfold dependentsOf. rewrite list_elem_of_bind.
  setoid_rewrite list_elem_of_fmap. setoid_rewrite list_elem_of_filter.
  naive_solver.
Qed.

Lemma Scan_buildGraph_closed sensors :
  closedGraph (id <$> sensors) (Scan.buildGraph sensors).
Proof.
  intros u l v Hl Hv. rewrite Scan_buildGraph_lookup in Hl.
  case_decide; [|done]. injection Hl as <-.
  apply dependentsOf_elem in Hv as (s & Hs & <- & _).
  by apply list_elem_of_fmap_2.
Qed.

Lemma Scan_buildGraph_edge sensors u v :
  isEdge (Scan.buildGraph sensors) u v = true ↔
  u ∈ id <$> sensors ∧ ∃ s, s ∈ sensors ∧ id s = v ∧ u ∈ dependencies s.
Proof.
  rewrite isEdge_neighbors, Scan_buildGraph_lookup.
  case_decide as Hu; simpl.
  - rewrite dependentsOf_elem. naive_solver.
  - rewrite elem_of_nil. naive_solver.
Qed.

(** *** The strict builder returns what the lenient one builds *)

Lemma addDependent_Scan sid deps : ∀ g g',
  foldl (addDependent sid) (Returned g) deps = Returned g' →
  foldl (Scan.addDependent sid) g deps = g'.
Proof.
  induction deps as [|d deps IH]; intros g g'; simpl.
  - by intros [= ->].
  - unfold Scan.addDependent. destruct (g !! d) as [l|].
    + apply IH.
    + by rewrite addDependent_Threw.
Qed.

Lemma addSensorEdges_Scan ss : ∀ g g',
  foldl addSensorEdges (Returned g) ss = Returned g' →
  foldl (λ g s, foldl (Scan.addDependent (id s)) g (dependencies s)) g ss = g'.
Proof.
  induction ss as [|s ss IH]; intros g g'; simpl.
  - by intros [= ->].
  - unfold addSensorEdges at 2.
    destruct (outcome_cases (foldl (addDependent (id s)) (Returned g)
                                   (dependencies s))) as [Hthrew|[g1 Hg1]].
    + rewrite Hthrew, addSensorEdges_Threw. done.
    + rewrite Hg1. intros Hrest. rewrite (addDependent_Scan _ _ _ _ Hg1).
      by apply IH.
Qed.

Lemma buildGraph_Scan sensors graph :
  buildGraph sensors = Returned graph → Scan.buildGraph sensors = graph.
Proof. apply addSensorEdges_Scan. Qed.

Lemma buildGraph_lookup sensors graph u :
  buildGraph sensors = Returned graph →
  graph !! u
  = if decide (u ∈ id <$> sensors) then Some (dependentsOf sensors u) else None.
Proof. intros <-%buildGraph_Scan. apply Scan_buildGraph_lookup. Qed.

Lemma buildGraph_edge sensors graph u v :
  buildGraph sensors = Returned graph →
  isEdge graph u v = true ↔ ∃ s, s ∈ sensors ∧ id s = v ∧ u ∈ dependencies s.
Proof.
  intros Hg. pose proof (buildGraph_known _ _ Hg) as Hknown.
  apply buildGraph_Scan in Hg as <-.
  rewrite Scan_buildGraph_edge. naive_solver.
Qed.

(** *** Roots have no incoming edge *)

Lemma sensor_by_id sensors s1 s2 :
  NoDup (id <$> sensors) → s1 ∈ sensors → s2 ∈ sensors → id s1 = id s2 → s1 = s2.
Proof.
  intros Hnd [i Hi]%list_elem_of_lookup [j Hj]%list_elem_of_lookup Heq.
  assert (i = j) as ->; [|congruence].
  eapply NoDup_lookup; [exact Hnd|..].
  - by rewrite list_lookup_fmap, Hi.
  - by rewrite list_lookup_fmap, Hj, Heq.
Qed.

Lemma root_no_incoming sensors u r :
  NoDup (id <$> sensors) → r ∈ findRoots sensors →
  isEdge (Scan.buildGraph sensors) u r = false.
Proof.
  intros Hnd (s0 & Hs0 & <- & Hdeps)%findRoots_elem.
  apply not_true_is_false. intros (_ & s & Hs & Hid & Hu)%Scan_buildGraph_edge.
  rewrite (sensor_by_id _ _ _ Hnd Hs Hs0 Hid), Hdeps in Hu.
  by apply elem_of_nil in Hu.
Qed.

Lemma root_walk sensors starts p r :
  NoDup (id <$> sensors) → r ∈ findRoots sensors →
  walk (Scan.buildGraph sensors) starts p r → p = [r].
Proof.
  intros Hnd Hr Hw. inversion Hw as [|p' u v Hw' He]; subst; [done|].
  by rewrite (root_no_incoming _ _ _ Hnd Hr) in He.
Qed.

(** ** The frontier array of the linear-scan variant *)

(** [pq.push], [pq.sort] and [pq.shift] read as a priority queue. It is not
    declared an instance: [listQueue] stays the queue found by default on
    lists. *)
Definition arrayQueue : MinPriorityQueue (list Entry) := {|
  pq_new := [];
  enqueue e q := q ++ [e];
  dequeue q :=
    match Scan.sortEntries q with
    | [] => None
    | e :: q' => Some (e, q')
    end;
  pq_items q := q
|}.

Lemma insertEntry_perm x l : Scan.insertEntry x l ≡ₚ x :: l.
Proof.
  induction l as [|y l IH]; [done|].
  simpl. destruct (compareEntries x y); [done..|].
  rewrite IH. apply perm_swap.
Qed.

Lemma sortEntries_perm l : Scan.sortEntries l ≡ₚ l.
Proof.
  induction l as [|x l IH]; [done|].
  unfold Scan.sortEntries in *. simpl. by rewrite insertEntry_perm, IH.
Qed.

Lemma insertEntry_sorted x l :
  StronglySorted (λ a b, compareEntries a b ≠ Gt) l →
  StronglySorted (λ a b, compareEntries a b ≠ Gt) (Scan.insertEntry x l).
Proof.
  induction 1 as [|y l Hl IH Hy]; simpl.
  - by repeat constructor.
  - assert (compareEntries x y ≠ Gt →
            StronglySorted (λ a b, compareEntries a b ≠ Gt) (x :: y :: l)) as Hfront.
    { intros Hxy. constructor; [by constructor|].
      constructor; [done|].
      eapply Forall_impl; [exact Hy|]. intros z Hz.
      by eapply compareEntries_trans. }
    destruct (compareEntries x y) eqn:Hxy; [by apply Hfront..|].
    constructor; [done|].
    rewrite insertEntry_perm. constructor; [|done].
    by apply compareEntries_flip.
Qed.

Lemma sortEntries_sorted l :
  StronglySorted (λ a b, compareEntries a b ≠ Gt) (Scan.sortEntries l).
Proof.
  induction l as [|x l IH]; [constructor|].
  by apply insertEntry_sorted.
Qed.

Lemma sortEntries_head l e rest :
  Scan.sortEntries l = e :: rest →
  l ≡ₚ e :: rest ∧ ∀ x, x ∈ l → compareEntries e x ≠ Gt.
Proof.
  intros Hs. pose proof (sortEntries_perm l) as Hp.
  pose proof (sortEntries_sorted l) as Hsorted.
  rewrite Hs in Hp, Hsorted. split; [done|].
  intros x Hx. rewrite <- Hp in Hx.
  apply StronglySorted_inv in Hsorted as [_ Hall].
  apply elem_of_cons in Hx as [->|Hx]; [apply compareEntries_refl|].
  by eapply Forall_forall in Hall.
Qed.

Lemma arrayQueue_laws : @MinPriorityQueueLaws (list Entry) arrayQueue.
Proof.
  split; simpl.
  - done.
  - intros e q. by rewrite Permutation_app_comm.
  - intros q. pose proof (sortEntries_perm q) as Hp.
    destruct (Scan.sortEntries q) as [|e rest]; split; try done.
    + intros _. by apply Permutation_nil_l in Hp.
    + intros ->. by apply Permutation_nil_r in Hp.
  - intros q e q' Hd.
    destruct (Scan.sortEntries q) as [|e1 rest] eqn:Hs; [done|].
    injection Hd as -> ->. by apply sortEntries_head.
  - intros q e q' x Hd Hx.
    destruct (Scan.sortEntries q) as [|e1 rest] eqn:Hs; [done|].
    injection Hd as -> ->. by eapply sortEntries_head.
Qed.

(** ** The search of the linear-scan variant is the shared search loop *)

Section ScanSearch.
Variable graph : gmap N (list N).
Variable scanMap : list (Scan.Edge * Z).
Variable riskMap : gmap string Z.
Hypothesis Hsame : sameRisks scanMap riskMap.

Lemma Scan_relax_eq visited dist node path acc neighbor :
  Scan.relax scanMap visited dist node path acc neighbor
  = @relax _ arrayQueue riskMap visited dist node path acc neighbor.
Proof.
  unfold Scan.relax, relax. rewrite Hsame.
  by rewrite (Z.add_comm dist).
Qed.

Lemma Scan_relaxAll_eq visited dist node path ns : ∀ acc,
  foldl (Scan.relax scanMap visited dist node path) acc ns
  = foldl (@relax _ arrayQueue riskMap visited dist node path) acc ns.
Proof.
  induction ns as [|n ns IH]; intros acc; [done|].
  simpl. by rewrite Scan_relax_eq, IH.
Qed.

Lemma Scan_searchLoop_eq fuel target : ∀ distances visited pq,
  Scan.searchLoop graph scanMap fuel target distances visited pq
  = @searchLoop _ arrayQueue graph riskMap fuel target distances visited pq.
Proof.
  induction fuel as [|fuel IH]; intros distances visited pq; [done|].
  simpl. destruct (Scan.sortEntries pq) as [|e pq']; [done|].
  case_decide; [apply IH|].
  case_decide; [done|].
  by rewrite Scan_relaxAll_eq, IH.
Qed.
End ScanSearch.

(** ** The best-known risk of finalised nodes is never read *)

Section OffVisited.
Context {Q : Type} `{!MinPriorityQueue Q, !MinPriorityQueueLaws Q}.
Variable graph : gmap N (list N).
Variable riskMap : gmap string Z.

Lemma relax_off visited risk node path (r1 r2 : gmap N Num) (pq : Q) n :
  (∀ x, x ∉ visited → r1 !! x = r2 !! x) →
  (relax riskMap visited risk node path (r1, pq) n).2
  = (relax riskMap visited risk node path (r2, pq) n).2 ∧
  ∀ x, x ∉ visited →
    (relax riskMap visited risk node path (r1, pq) n).1 !! x
    = (relax riskMap visited risk node path (r2, pq) n).1 !! x.
Proof.
  intros Hoff. unfold relax. case_decide as Hn; [done|].
  simpl. rewrite (Hoff n Hn).
  destruct (r2 !! n) as [r|]; [|done].
  destruct (num_lt _ r); simpl.
  - split; [done|]. intros x Hx.
    destruct (decide (n = x)) as [->|Hne].
    + by rewrite !lookup_insert_eq.
    + rewrite !lookup_insert_ne by done. by apply Hoff.
  - by destruct (num_eq _ r).
Qed.

Lemma relaxAll_off visited risk node path ns : ∀ (r1 r2 : gmap N Num) (pq : Q),
  (∀ x, x ∉ visited → r1 !! x = r2 !! x) →
  (foldl (relax riskMap visited risk node path) (r1, pq) ns).2
  = (foldl (relax riskMap visited risk node path) (r2, pq) ns).2 ∧
  ∀ x, x ∉ visited →
    (foldl (relax riskMap visited risk node path) (r1, pq) ns).1 !! x
    = (foldl (relax riskMap visited risk node path) (r2, pq) ns).1 !! x.
Proof.
  induction ns as [|n ns IH]; intros r1 r2 pq Hoff; [done|].
  simpl. destruct (relax_off visited risk node path r1 r2 pq n Hoff) as [Hq Hr].
  destruct (relax riskMap visited risk node path (r1, pq) n) as [r1' q1].
  destruct (relax riskMap visited risk node path (r2, pq) n) as [r2' q2].
  simpl in Hq, Hr. subst q2. by apply IH.
Qed.

Lemma searchLoop_off fuel target : ∀ (r1 r2 : gmap N Num) visited (pq : Q),
  (∀ x, x ∉ visited → r1 !! x = r2 !! x) →
  searchLoop graph riskMap fuel target r1 visited pq
  = searchLoop graph riskMap fuel target r2 visited pq.
Proof.
  induction fuel as [|fuel IH]; intros r1 r2 visited pq Hoff; [done|].
  simpl. destruct (dequeue pq) as [[e pq']|]; [|done].
  case_decide; [by apply IH|].
  case_decide; [done|].
  destruct (relaxAll_off ({[e_node e]} ∪ visited) (e_risk e) (e_node e) (e_path e)
              (default [] (graph !! e_node e)) r1 r2 pq') as [Hq Hr].
  { intros x Hx. apply Hoff. set_solver. }
  rewrite Hq. by apply IH.
Qed.

(** Setting the best-known risk of the start before the loop changes
    nothing: the start is finalised by the first iteration. *)
Lemma searchLoop_start fuel target start v (risks : gmap N Num) (pq : Q) e0 :
  pq_items pq = [e0] → e_node e0 = start →
  searchLoop graph riskMap fuel target (<[start := v]> risks) ∅ pq
  = searchLoop graph riskMap fuel target risks ∅ pq.
Proof.
  intros Hitems Hnode. destruct fuel as [|fuel]; [done|].
  simpl. destruct (dequeue pq) as [[e pq']|] eqn:Hd; [|done].
  assert (e = e0) as ->.
  { pose proof (dequeue_head _ _ _ Hd) as He. rewrite Hitems in He.
    by apply list_elem_of_singleton in He. }
  case_decide; [set_solver|].
  case_decide; [done|].
  destruct (relaxAll_off ({[e_node e0]} ∪ ∅) (e_risk e0) (e_node e0) (e_path e0)
              (default [] (graph !! e_node e0)) (<[start := v]> risks) risks pq')
    as [Hq Hr].
  { intros x Hx. rewrite lookup_insert_ne; [done|]. set_solver. }
  rewrite Hq. by apply searchLoop_off.
Qed.
End OffVisited.

(** ** The engines of the linear-scan and the per-root variant coincide *)

Section ScanEngine.
Context {Q : Type} `{!MinPriorityQueue Q, !MinPriorityQueueLaws Q}.
Variable sensors : list Sensor.
Variable graph : gmap N (list N).
Variable scanMap : list (Scan.Edge * Z).
Variable riskMap : gmap string Z.
Hypothesis Hsame : sameRisks scanMap riskMap.

Lemma Scan_dijkstra_eq start target :
  Scan.dijkstra sensors graph scanMap start target
  = PerRoot.dijkstra (Q:=Q) sensors graph riskMap start target.
Proof.
  rewrite <- (@dijkstra_agree (list Entry) Q arrayQueue arrayQueue_laws _ _).
  unfold Scan.dijkstra, PerRoot.dijkstra.
  rewrite (Scan_searchLoop_eq graph scanMap riskMap Hsame).
  f_equal.
  apply (@searchLoop_start (list Entry) arrayQueue arrayQueue_laws graph riskMap
           _ target start (Finite 0) (initRisks sensors)
           [{| e_risk := 0; e_node := start; e_path := [start] |}]
           {| e_risk := 0; e_node := start; e_path := [start] |}); done.
Qed.

Lemma Scan_considerRoot_eq target b root :
  Scan.considerRoot sensors graph scanMap target b root
  = PerRoot.considerRoot (Q:=Q) sensors graph riskMap target b root.
Proof. unfold Scan.considerRoot, PerRoot.considerRoot. by rewrite Scan_dijkstra_eq. Qed.

Lemma Scan_findBestPathToTarget_eq roots target :
  Scan.findBestPathToTarget sensors graph roots scanMap target
  = PerRoot.findBestPathToTarget (Q:=Q) sensors graph roots riskMap target.
Proof.
  unfold Scan.findBestPathToTarget, PerRoot.findBestPathToTarget.
  assert (∀ b, foldl (Scan.considerRoot sensors graph scanMap target) b roots
               = foldl (PerRoot.considerRoot (Q:=Q) sensors graph riskMap target) b roots)
    as ->; [|done].
  induction roots as [|r roots IH]; intros b; [done|].
  simpl. by rewrite Scan_considerRoot_eq, IH.
Qed.
End ScanEngine.

(** ** The selection loop over two stores that answer alike *)

Section SelectionSim.
Context {Store1 Store2 : Type}.
Variable setRisk1 : Store1 → N → N → Z → Store1.
Variable setRisk2 : Store2 → N → N → Z → Store2.
Variable engine1 : Store1 → N → option TargetPathInfo.
Variable engine2 : Store2 → N → option TargetPathInfo.
Variable R : Store1 → Store2 → Prop.
Hypothesis R_setRisk :
  ∀ s1 s2 a b, R s1 s2 → R (setRisk1 s1 a b 0%Z) (setRisk2 s2 a b 0%Z).
Hypothesis R_engine : ∀ s1 s2 t, R s1 s2 → engine1 s1 t = engine2 s2 t.

Lemma zeroPath_sim p : ∀ s1 s2,
  R s1 s2 → R (zeroPath setRisk1 s1 p) (zeroPath setRisk2 s2 p).
Proof.
  induction p as [|a [|b p] IH]; intros s1 s2 HR; [done..|].
  apply (IH (setRisk1 s1 a b 0%Z) (setRisk2 s2 a b 0%Z)). by apply R_setRisk.
Qed.

Lemma selectBest_sim s1 s2 ts :
  R s1 s2 → selectBest engine1 s1 ts = selectBest engine2 s2 ts.
Proof.
  intros HR. unfold selectBest. generalize ({| minPath := None; minRisk := Infinity;
                                               bestTarget := None |}).
  induction ts as [|t ts IH]; intros b; [done|].
  simpl. rewrite <- IH. f_equal.
  unfold consider. by rewrite (R_engine s1 s2 t HR).
Qed.

Lemma heistLoop_sim fuel : ∀ (st1 : LoopState (Store:=Store1)) (st2 : LoopState (Store:=Store2)),
  R (ls_riskMap st1) (ls_riskMap st2) →
  ls_remaining st1 = ls_remaining st2 → ls_paths st1 = ls_paths st2 →
  heistLoop setRisk1 engine1 fuel st1 = heistLoop setRisk2 engine2 fuel st2.
Proof.
  induction fuel as [|fuel IH]; intros st1 st2 HR Hrem Hpaths; [done|].
  simpl. unfold heistStep, winner. rewrite <- Hrem.
  rewrite <- (selectBest_sim _ _ (ls_remaining st1) HR).
  destruct (ls_remaining st1) as [|t ts] eqn:Hts; [by rewrite Hpaths|].
  destruct (minPath _) as [mp|]; [|by rewrite Hpaths].
  apply IH; simpl; [by apply zeroPath_sim|congruence..].
Qed.

Lemma runHeist_sim s1 s2 targetSensors :
  R s1 s2 →
  runHeist setRisk1 engine1 s1 targetSensors
  = runHeist setRisk2 engine2 s2 targetSensors.
Proof.
  intros HR. unfold runHeist. f_equal. by apply heistLoop_sim.
Qed.
End SelectionSim.

Lemma Scan_runHeist_eq {Q : Type} `{!MinPriorityQueue Q, !MinPriorityQueueLaws Q}
    sensors graph roots scanMap riskMap targetSensors :
  sameRisks scanMap riskMap →
  runHeist Scan.setRisk (Scan.findBestPathToTarget sensors graph roots)
           scanMap targetSensors
  = runHeist setRisk (PerRoot.findBestPathToTarget (Q:=Q) sensors graph roots)
             riskMap targetSensors.
Proof.
  apply (runHeist_sim _ _ _ _ sameRisks).
  - intros s1 s2 a b. apply sameRisks_setRisk.
  - intros s1 s2 t Hs. by apply Scan_findBestPathToTarget_eq.
Qed.

Lemma Scan_solveHeist_eq {Q : Type} `{!MinPriorityQueue Q, !MinPriorityQueueLaws Q}
    sensors risks targetSensors graph :
  buildGraph sensors = Returned graph →
  NoDup ((λ r, (fromSensor r, toSensor r)) <$> risks) →
  PerRoot.solveHeist (Q:=Q) sensors risks targetSensors
  = Returned (Scan.solveHeist sensors risks targetSensors).
Proof.
  intros Hg Hnd. unfold PerRoot.solveHeist, Scan.solveHeist.
  rewrite Hg, (buildGraph_Scan _ _ Hg). simpl. f_equal. symmetry.
  by apply Scan_runHeist_eq, sameRisks_build.
Qed.

(** ** More fuel changes nothing *)

Section SearchFuel.
Context {Q : Type} `{!MinPriorityQueue Q}.
Variable graph : gmap N (list N).
Variable riskMap : gmap string Z.

Lemma searchLoop_more_fuel fuel target : ∀ fuel' risks visited (pq : Q) res,
  searchLoop graph riskMap fuel target risks visited pq = Some res →
  (fuel ≤ fuel')%nat →
  searchLoop graph riskMap fuel' target risks visited pq = Some res.
Proof.
  induction fuel as [|fuel IH]; intros fuel' risks visited pq res Hrun Hle;
    [done|].
  destruct fuel' as [|fuel']; [lia|].
  simpl in *. destruct (dequeue pq) as [[e pq']|]; [|done].
  case_decide; [apply IH; [done|lia]|].
  case_decide; [done|].
  apply IH; [done|lia].
Qed.
End SearchFuel.

Lemma multiRootDijkstra_any_fuel {Q : Type}
    `{!MinPriorityQueue Q, !MinPriorityQueueLaws Q}
    sensors graph roots riskMap target fuel :
  (S (length roots + edgeBudget graph ∅) ≤ fuel)%nat →
  searchLoop graph riskMap fuel target
    (MultiRoot.seedRoots roots (initRisks sensors, pq_new (Q:=Q))).1 ∅
    (MultiRoot.seedRoots roots (initRisks sensors, pq_new (Q:=Q))).2
  = Some (MultiRoot.multiRootDijkstra (Q:=Q) sensors graph roots riskMap target).
Proof.
  intros Hle. unfold MultiRoot.multiRootDijkstra.
  destruct (multiRootDijkstra_terminates (Q:=Q) sensors graph riskMap roots target)
    as [res Hres].
  cbv zeta. rewrite Hres. simpl.
  by eapply searchLoop_more_fuel.
Qed.

Lemma dijkstra_any_fuel {Q : Type}
    `{!MinPriorityQueue Q, !MinPriorityQueueLaws Q}
    sensors graph riskMap start target fuel :
  (S (1 + edgeBudget graph ∅) ≤ fuel)%nat →
  searchLoop graph riskMap fuel target (initRisks sensors) ∅
    (enqueue {| e_risk := 0; e_node := start; e_path := [start] |} (pq_new (Q:=Q)))
  = Some (PerRoot.dijkstra (Q:=Q) sensors graph riskMap start target).
Proof.
  intros Hle. unfold PerRoot.dijkstra.
  destruct (dijkstra_terminates (Q:=Q) sensors graph riskMap start target)
    as [res Hres].
  cbv zeta. rewrite Hres. simpl.
  by eapply searchLoop_more_fuel.
Qed.

(** ** Frontier paths never repeat a node *)

(** The path of [e] ends at its node, repeats nothing, and all that comes
    before the node is finalised. *)
Definition simpleEntry (visited : gset N) (e : Entry) : Prop :=
  ∃ π, e_path e = π ++ [e_node e] ∧ NoDup (e_path e) ∧ ∀ x, x ∈ π → x ∈ visited.

Lemma simpleEntry_mono visited visited' e :
  visited ⊆ visited' → simpleEntry visited e → simpleEntry visited' e.
Proof. intros Hsub (π & Hp & Hnd & Hin). exists π. set_solver. Qed.

Section SimplePaths.
Context {Q : Type} `{!MinPriorityQueue Q, !MinPriorityQueueLaws Q}.
Variable graph : gmap N (list N).
Variable riskMap : gmap string Z.

Lemma relax_entries vis risk node path risks (pq : Q) n x :
  x ∈ pq_items (relax riskMap vis risk node path (risks, pq) n).2 →
  x ∈ pq_items pq ∨
  ((n ∉ vis) ∧
   x = {| e_risk := getRisk riskMap node n + risk; e_node := n;
          e_path := path ++ [n] |}).
Proof.
  destruct (relax_cases riskMap vis risk node path risks pq n)
    as [->|(Hn & _ & [->| ->])]; simpl.
  - by left.
  - rewrite enqueue_elem. naive_solver.
  - rewrite enqueue_elem. naive_solver.
Qed.

Lemma relaxAll_entries vis risk node path ns : ∀ risks (pq : Q) x,
  x ∈ pq_items (foldl (relax riskMap vis risk node path) (risks, pq) ns).2 →
  x ∈ pq_items pq ∨
  ∃ n, (n ∉ vis) ∧
       x = {| e_risk := getRisk riskMap node n + risk; e_node := n;
              e_path := path ++ [n] |}.
Proof.
  induction ns as [|n ns IH]; intros risks pq x; simpl; [by left|].
  destruct (relax riskMap vis risk node path (risks, pq) n) as [risks1 pq1] eqn:E.
  intros [Hx|Hx]%IH; [|by right].
  pose proof (relax_entries vis risk node path risks pq n x) as Hone.
  rewrite E in Hone. destruct (Hone Hx) as [?|[? ?]]; [by left|right; eauto].
Qed.

Lemma simpleEntry_extend visited e n r :
  simpleEntry visited e → n ∉ {[e_node e]} ∪ visited →
  simpleEntry ({[e_node e]} ∪ visited)
    {| e_risk := r; e_node := n; e_path := e_path e ++ [n] |}.
Proof.
  intros (π & Hp & Hnd & Hin) Hn.
  assert (∀ x, x ∈ e_path e → x ∈ {[e_node e]} ∪ visited) as Hall.
  { intros x. rewrite Hp, elem_of_app, list_elem_of_singleton.
    intros [?%Hin| ->]; set_solver. }
  exists (e_path e). split; [done|]. split; [|done].
  simpl. apply NoDup_app. split; [done|]. split; [|apply NoDup_singleton].
  intros x Hx ->%list_elem_of_singleton. by apply Hn, Hall.
Qed.

Lemma searchLoop_simple fuel target : ∀ risks visited (pq : Q) info,
  (∀ e, e ∈ pq_items pq → simpleEntry visited e) →
  searchLoop graph riskMap fuel target risks visited pq = Some (Some info) →
  NoDup (tpi_path info).
Proof.
  induction fuel as [|fuel IH]; intros risks visited pq info Hall Hrun; [done|].
  simpl in Hrun. destruct (dequeue pq) as [[e pq']|] eqn:Hd; [|done].
  assert (∀ x, x ∈ pq_items pq' → simpleEntry visited x) as Hall'.
  { intros x Hx. eapply Hall, dequeue_subset; eauto. }
  pose proof (Hall e (dequeue_head _ _ _ Hd)) as He.
  case_decide as Hvis; [by eapply IH|].
  case_decide as Ht.
  - injection Hrun as <-. simpl. by destruct He as (_ & _ & ? & _).
  - eapply IH; [|exact Hrun].
    intros x [Hx|(n & Hn & ->)]%relaxAll_entries.
    + eapply simpleEntry_mono; [|by apply Hall']. set_solver.
    + by apply simpleEntry_extend.
Qed.
End SimplePaths.

Lemma multiRootDijkstra_simple {Q : Type}
    `{!MinPriorityQueue Q, !MinPriorityQueueLaws Q}
    sensors graph roots riskMap target info :
  MultiRoot.multiRootDijkstra (Q:=Q) sensors graph roots riskMap target = Some info →
  NoDup (tpi_path info).
Proof.
  unfold MultiRoot.multiRootDijkstra.
  destruct (searchLoop _ _ _ _ _ _ _) as [res|] eqn:Hrun; [|done].
  simpl. intros ->. eapply searchLoop_simple; [|exact Hrun].
  intros e He.
  apply (seedRoots_spec roots (initRisks sensors) pq_new) in He
    as [He|(r & _ & ->)].
  - rewrite pq_new_items in He. by apply elem_of_nil in He.
  - exists []. simpl. split; [done|]. split; [apply NoDup_singleton|].
    by intros x ?%elem_of_nil.
Qed.

Lemma dijkstra_simple {Q : Type}
    `{!MinPriorityQueue Q, !MinPriorityQueueLaws Q}
    sensors graph riskMap start target info :
  PerRoot.dijkstra (Q:=Q) sensors graph riskMap start target = Some info →
  NoDup (tpi_path info).
Proof.
  unfold PerRoot.dijkstra.
  destruct (searchLoop _ _ _ _ _ _ _) as [res|] eqn:Hrun; [|done].
  simpl. intros ->. eapply searchLoop_simple; [|exact Hrun].
  intros e [->|He]%enqueue_elem.
  - exists []. simpl. split; [done|]. split; [apply NoDup_singleton|].
    by intros x ?%elem_of_nil.
  - rewrite pq_new_items in He. by apply elem_of_nil in He.
Qed.

Lemma findBestPathToTarget_simple {Q : Type}
    `{!MinPriorityQueue Q, !MinPriorityQueueLaws Q}
    sensors graph roots riskMap target info :
  PerRoot.findBestPathToTarget (Q:=Q) sensors graph roots riskMap target = Some info →
  NoDup (tpi_path info).
Proof.
  unfold PerRoot.findBestPathToTarget.
  assert (∀ b, (∀ p, PerRoot.bestPath b = Some p → NoDup p) →
               ∀ p, PerRoot.bestPath
                      (foldl (PerRoot.considerRoot (Q:=Q) sensors graph riskMap target)
                             b roots) = Some p → NoDup p) as Hfold.
  { induction roots as [|r rs IH]; intros b Hb; [done|].
    simpl. apply IH. unfold PerRoot.considerRoot.
    destruct (PerRoot.dijkstra sensors graph riskMap r target) as [res|] eqn:Hres;
      [|done].
    destruct (_ || _); [|done].
    simpl. intros p [= <-]. by eapply dijkstra_simple. }
  specialize (Hfold {| PerRoot.bestPath := None; PerRoot.bestRisk := Infinity;
                       PerRoot.bestRoot := None |}).
  cbv zeta. set (b := foldl _ _ roots) in *.
  destruct (PerRoot.bestPath b) as [p|] eqn:Hp; [|done].
  destruct (PerRoot.bestRisk b); [|done].
  intros [= <-]. simpl. by apply Hfold.
Qed.

(** ** A root as target *)

Lemma engineSpec_root sensors roots riskMap r res :
  NoDup (id <$> sensors) → r ∈ findRoots sensors → r ∈ roots →
  engineSpec (Scan.buildGraph sensors) roots riskMap r res →
  res = Some {| tpi_target := r; tpi_path := [r]; tpi_risk := 0 |}.
Proof.
  intros Hnd Hr Hin Hspec. destruct res as [[t p c]|]; simpl in Hspec.
  - destruct Hspec as (-> & Hw & Hc & _).
    apply (root_walk _ _ _ _ Hnd Hr) in Hw as ->. simpl in Hc. by subst c.
  - exfalso. apply (Hspec [r]). by constructor.
Qed.

(** ** The first of the tied paths, in terms of [isPathFrom] *)

Lemma pathLe_tied riskMap p q :
  pathLe riskMap p q → pathRisk riskMap q = pathRisk riskMap p →
  (joinPath p ?= joinPath q)%string ≠ Gt.
Proof. intros [Hlt|[_ Hle]] Heq; [lia|done]. Qed.

(** ** The store over several iterations *)

Lemma steps_prices engine (st st' : LoopState) :
  steps setRisk engine st st' →
  ∃ new, ls_paths st' = ls_paths st ++ new ∧
    ∀ a b, getRisk (ls_riskMap st') a b
           = if decide ((a, b) ∈ new ≫= pathEdges) then 0%Z
             else getRisk (ls_riskMap st) a b.
Proof.
  intros Hs. unfold steps in Hs.
  induction Hs as [st|st st1 st' Hstep _ IH].
  - exists []. split; [by rewrite app_nil_r|]. intros a b.
    case_decide as Hin; [|done]. simpl in Hin. by apply elem_of_nil in Hin.
  - apply heistStep_Some in Hstep as (mp & _ & ->).
    destruct IH as (new & Hp & Hr). simpl in *.
    exists (tpi_path mp :: new). split; [by rewrite Hp, <- app_assoc|].
    intros a b. rewrite Hr, getRisk_zeroPath. simpl.
    repeat case_decide; try done; set_solver.
Qed.

Lemma steps_nonNegative engine (st st' : LoopState) :
  steps setRisk engine st st' →
  nonNegative (ls_riskMap st) → nonNegative (ls_riskMap st').
Proof.
  intros Hs. unfold steps in Hs.
  induction Hs as [st|st st1 st' Hstep _ IH]; [done|].
  apply heistStep_Some in Hstep as (mp & _ & ->).
  intros Hnn. apply IH. simpl. by apply zeroPath_nonNegative.
Qed.

Lemma steps_cheaper engine (st st' : LoopState) a b :
  steps setRisk engine st st' → nonNegative (ls_riskMap st) →
  (getRisk (ls_riskMap st') a b ≤ getRisk (ls_riskMap st) a b)%Z.
Proof.
  intros (new & _ & Hr)%steps_prices Hnn. rewrite Hr.
  case_decide; [by apply getRisk_nonneg|done].
Qed.

Lemma pathRisk_mono riskMap riskMap' p :
  (∀ a b, (getRisk riskMap' a b ≤ getRisk riskMap a b)%Z) →
  (pathRisk riskMap' p ≤ pathRisk riskMap p)%Z.
Proof.
  intros Hle. induction p as [|a [|b p] IH]; [done..|].
  change (pathRisk riskMap' (a :: b :: p))
    with (getRisk riskMap' a b + pathRisk riskMap' (b :: p))%Z.
  change (pathRisk riskMap (a :: b :: p))
    with (getRisk riskMap a b + pathRisk riskMap (b :: p))%Z.
  specialize (Hle a b). lia.
Qed.

Lemma engine_cheaper graph roots engine (st st' : LoopState) t info :
  (∀ rm t, engineSpec graph roots rm t (engine rm t)) →
  steps setRisk engine st st' → nonNegative (ls_riskMap st) →
  engine (ls_riskMap st) t = Some info →
  ∃ info', engine (ls_riskMap st') t = Some info' ∧
           (tpi_risk info' ≤ tpi_risk info)%Z.
Proof.
  intros Hspec Hs Hnn Hinfo.
  pose proof (Hspec (ls_riskMap st) t) as H1. rewrite Hinfo in H1.
  destruct H1 as (_ & Hw & Hc & _).
  pose proof (Hspec (ls_riskMap st') t) as H2.
  destruct (engine (ls_riskMap st') t) as [info'|]; simpl in H2.
  - exists info'. split; [done|].
    destruct H2 as (_ & _ & _ & Hmin).
    specialize (Hmin (steps_nonNegative _ _ _ Hs Hnn) _ Hw).
    pose proof (pathRisk_mono (ls_riskMap st) (ls_riskMap st') (tpi_path info)
                  (λ a b, steps_cheaper engine st st' a b Hs Hnn)).
    lia.
  - by destruct (H2 _ Hw).
Qed.

(** ** The run from its first state to its last *)

Section RunProofs.
Context {Store : Type}.
Variable setRisk : Store → N → N → Z → Store.
Variable engine : Store → N → option TargetPathInfo.
Hypothesis engine_target :
  ∀ rm t info, engine rm t = Some info → tpi_target info = t.

Lemma runHeist_loop riskMap targetSensors :
  heistLoop setRisk engine (S (length (setOfList targetSensors)))
            (initialState riskMap targetSensors)
  = Some (runHeist setRisk engine riskMap targetSensors).
Proof.
  unfold runHeist.
  destruct (heistLoop_fuel setRisk engine engine_target
              (S (length (setOfList targetSensors)))
              (initialState riskMap targetSensors)) as [out Hout]; [simpl; lia|].
  cbv zeta. simpl ls_remaining. by rewrite Hout.
Qed.

Lemma runHeist_final riskMap targetSensors :
  ∃ final, steps setRisk engine (initialState riskMap targetSensors) final ∧
           heistStep setRisk engine final = None ∧
           ls_paths final = runHeist setRisk engine riskMap targetSensors.
Proof. eapply heistLoop_final, runHeist_loop. Qed.

Lemma runHeist_first riskMap targetSensors p0 rest :
  runHeist setRisk engine riskMap targetSensors = p0 :: rest →
  ∃ mp, winner engine (initialState riskMap targetSensors) = Some mp ∧
        tpi_path mp = p0.
Proof.
  intros Hout. pose proof (runHeist_loop riskMap targetSensors) as Hloop.
  rewrite Hout in Hloop. simpl in Hloop.
  destruct (heistStep setRisk engine (initialState riskMap targetSensors))
    as [st1|] eqn:Hstep; [|done].
  apply heistStep_Some in Hstep as (mp & Hw & ->).
  apply heistLoop_resolutions in Hloop. simpl in Hloop.
  injection Hloop as Hp0 _. by exists mp.
Qed.

(** Every recorded path is the answer of the engine for a target pending at
    the start. *)
Lemma steps_paths (st0 st : LoopState) :
  steps setRisk engine st0 st →
  ls_paths st0 = [] →
  Forall (λ p, ∃ rm info, tpi_target info ∈ ls_remaining st0 ∧
                          engine rm (tpi_target info) = Some info ∧
                          tpi_path info = p)
         (ls_paths st).
Proof.
  intros Hs H0. unfold steps in Hs. revert st Hs. apply rtc_ind_r.
  - rewrite H0. constructor.
  - intros st1 st2 Hs Hstep IH.
    apply heistStep_Some in Hstep as (mp & Hw & ->). simpl.
    apply Forall_app. split; [done|]. constructor; [|constructor].
    apply (winner_Some engine engine_target) in Hw as (Hin & Hmp & _).
    exists (ls_riskMap st1), mp. split; [|done].
    by eapply steps_remaining.
Qed.

(** *** The order of the requested targets does not matter *)

Lemma winner_perm (st1 st2 : LoopState) :
  ls_riskMap st1 = ls_riskMap st2 →
  ls_remaining st1 ≡ₚ ls_remaining st2 →
  winner engine st1 = winner engine st2.
Proof.
  intros Hrm Hperm.
  destruct (winner engine st1) as [mp1|] eqn:H1,
           (winner engine st2) as [mp2|] eqn:H2; [| | |done].
  - apply (winner_Some engine engine_target) in H1 as (Hin1 & He1 & Hmin1).
    apply (winner_Some engine engine_target) in H2 as (Hin2 & He2 & Hmin2).
    rewrite Hperm in Hin1. rewrite <- Hperm in Hin2.
    rewrite Hrm in He1, Hmin1.
    destruct (Hmin1 _ _ Hin2 He2) as [Hle1 Ht1].
    destruct (Hmin2 _ _ Hin1 He1) as [Hle2 Ht2].
    assert (tpi_target mp1 = tpi_target mp2) as Heq.
    { apply N.le_antisymm; [apply Ht1|apply Ht2]; lia. }
    rewrite Heq in He1. congruence.
  - apply (winner_Some engine engine_target) in H1 as (Hin1 & He1 & _).
    rewrite Hperm in Hin1.
    pose proof (winner_None engine engine_target _ _ H2 Hin1). congruence.
  - apply (winner_Some engine engine_target) in H2 as (Hin2 & He2 & _).
    rewrite <- Hperm in Hin2.
    pose proof (winner_None engine engine_target _ _ H1 Hin2). congruence.
Qed.

Lemma heistLoop_perm fuel : ∀ (st1 st2 : LoopState),
  ls_riskMap st1 = ls_riskMap st2 →
  ls_remaining st1 ≡ₚ ls_remaining st2 →
  ls_paths st1 = ls_paths st2 →
  heistLoop setRisk engine fuel st1 = heistLoop setRisk engine fuel st2.
Proof.
  induction fuel as [|fuel IH]; intros st1 st2 Hrm Hperm Hpaths; [done|].
  simpl. unfold heistStep. rewrite (winner_perm st1 st2 Hrm Hperm).
  destruct (winner engine st2) as [mp|]; [|by rewrite Hpaths].
  apply IH; simpl; [by rewrite Hrm|by rewrite Hperm|by rewrite Hpaths].
Qed.

Lemma runHeist_same_targets riskMap l1 l2 :
  (∀ t, t ∈ l1 ↔ t ∈ l2) →
  runHeist setRisk engine riskMap l1 = runHeist setRisk engine riskMap l2.
Proof.
  intros Hsame.
  assert (setOfList l1 ≡ₚ setOfList l2) as Hperm.
  { apply NoDup_Permutation; [apply setOfList_NoDup..|].
    intros t. by rewrite !setOfList_elem. }
  unfold runHeist. cbv zeta. simpl ls_remaining.
  rewrite (Permutation_length Hperm). f_equal.
  by apply heistLoop_perm.
Qed.
End RunProofs.

(** ** Targets out of reach *)

Lemma walk_ends_at_sensor sensors graph p t :
  closedGraph (id <$> sensors) graph →
  walk graph (findRoots sensors) p t → t ∈ id <$> sensors.
Proof.
  intros Hclosed Hw. inversion Hw as [r Hr|p' u v _ He]; subst.
  - apply findRoots_elem in Hr as (s & Hs & <- & _). by apply list_elem_of_fmap_2.
  - by eapply edge_is_sensor.
Qed.

Lemma rootless_output graph roots (out : list (list N)) ts (P : N → Prop) :
  roots = [] →
  Forall2 (λ p t, last p = Some t) out ts →
  (∀ t, t ∈ ts ↔ P t ∧ reachable graph roots t) →
  out = [].
Proof.
  intros -> Hends Hts. destruct Hends as [|p t out ts _ _]; [done|].
  destruct (proj1 (Hts t)) as [_ [q Hq]]; [by left|].
  apply walk_isPathFrom, walk_head in Hq as (r & _ & Hr).
  by apply elem_of_nil in Hr.
Qed.

(** ** Reachability read off the input *)

Lemma reaches_sensor sensors t : reaches sensors t → t ∈ id <$> sensors.
Proof.
  intros [s Hs _|u v _ (s & Hs & <- & _)]; by apply list_elem_of_fmap_2.
Qed.

Lemma Scan_reachable_reaches sensors t :
  reachable (Scan.buildGraph sensors) (findRoots sensors) t ↔ reaches sensors t.
Proof.
  split.
  - intros [p Hp%walk_isPathFrom].
    induction Hp as [r Hr|p u v _ IH He].
    + apply findRoots_elem in Hr as (s & Hs & <- & Hdeps). by constructor.
    + apply Scan_buildGraph_edge in He as [_ Hdecl]. by econstructor.
  - induction 1 as [s Hs Hdeps|u v Hu [p Hp%walk_isPathFrom] Hdecl].
    + exists [id s]. apply walk_isPathFrom. constructor.
      apply findRoots_elem. eauto.
    + exists (p ++ [v]). apply walk_isPathFrom. econstructor; [exact Hp|].
      apply Scan_buildGraph_edge. split; [by apply reaches_sensor|done].
Qed.

Lemma reachable_reaches sensors graph t :
  buildGraph sensors = Returned graph →
  reachable graph (findRoots sensors) t ↔ reaches sensors t.
Proof. intros <-%buildGraph_Scan. apply Scan_reachable_reaches. Qed.

(** ** Repeated targets and the length of the pending set *)

Lemma setOfList_length l :
  (length (setOfList l) ≤ length l)%nat ∧
  (length (setOfList l) = length l ↔ NoDup l).
Proof.
  assert (setOfList l ⊆+ l) as Hsub.
  { apply NoDup_submseteq; [apply setOfList_NoDup|].
    intros x. by rewrite setOfList_elem. }
  split; [by apply submseteq_length|]. split.
  - intros Hlen. apply submseteq_length_Permutation in Hsub; [|lia].
    rewrite <- Hsub. apply setOfList_NoDup.
  - intros Hnd. apply Permutation_length, NoDup_Permutation;
      [apply setOfList_NoDup|done|]. intros x. by rewrite setOfList_elem.
Qed.

(** ** Sums of risks stay in the safe range *)

Lemma absSum_nonneg l : (0 ≤ absSum l)%Z.
Proof. induction l as [|v l IH]; simpl; lia. Qed.

Lemma absSum_perm l k : l ≡ₚ k → absSum l = absSum k.
Proof. induction 1; simpl; lia. Qed.

Lemma lookup_sum_bound ks : ∀ m : gmap string Z,
  NoDup ks →
  (absSum ((λ k, default 0%Z (m !! k)) <$> ks) ≤ absSum (map_to_list m).*2)%Z.
Proof.
  induction ks as [|k ks IH]; intros m Hnd; simpl; [apply absSum_nonneg|].
  apply NoDup_cons in Hnd as [Hk Hnd].
  destruct (m !! k) as [v|] eqn:Hv; simpl.
  - rewrite (absSum_perm (map_to_list m).*2 (v :: (map_to_list (delete k m)).*2)).
    2:{ by rewrite <- (map_to_list_delete m k v Hv). }
    simpl. specialize (IH (delete k m) Hnd).
    assert ((λ k0, default 0%Z (delete k m !! k0)) <$> ks
            = (λ k0, default 0%Z (m !! k0)) <$> ks) as Heq.
    { apply list_fmap_ext. intros i k' Hk'.
      rewrite lookup_delete_ne; [done|].
      intros ->. apply Hk. by eapply list_elem_of_lookup_2. }
    rewrite Heq in IH. by apply Z.add_le_mono_l.
  - exact (IH m Hnd).
Qed.

Lemma pathEdges_fst a p x y : (x, y) ∈ pathEdges (a :: p) → x ∈ a :: p.
Proof.
  revert a. induction p as [|b p IH]; intros a; simpl; [by intros ?%elem_of_nil|].
  intros [[= -> ->]|Hin]%elem_of_cons; [by left|]. right. by apply IH.
Qed.

Lemma pathEdges_NoDup p : NoDup p → NoDup (pathEdges p).
Proof.
  induction p as [|a [|b p] IH]; intros Hnd; [constructor..|].
  apply NoDup_cons in Hnd as [Ha Hnd].
  change (pathEdges (a :: b :: p)) with ((a, b) :: pathEdges (b :: p)).
  constructor; [|by apply IH].
  intros Hin%pathEdges_fst. by apply Ha.
Qed.

Lemma pathRisk_edges riskMap p :
  (Z.abs (pathRisk riskMap p)
   ≤ absSum ((λ e, getRisk riskMap e.1 e.2) <$> pathEdges p))%Z.
Proof.
  induction p as [|a [|b p] IH]; [simpl; lia..|].
  change (pathRisk riskMap (a :: b :: p))
    with (getRisk riskMap a b + pathRisk riskMap (b :: p))%Z.
  change (pathEdges (a :: b :: p)) with ((a, b) :: pathEdges (b :: p)).
  rewrite fmap_cons.
  change (absSum (getRisk riskMap (a, b).1 (a, b).2
                  :: ((λ e, getRisk riskMap e.1 e.2) <$> pathEdges (b :: p))))
    with (Z.abs (getRisk riskMap a b)
          + absSum ((λ e, getRisk riskMap e.1 e.2) <$> pathEdges (b :: p)))%Z.
  lia.
Qed.

Lemma pathRisk_safe riskMap p :
  safeRisks riskMap → NoDup p → (Z.abs (pathRisk riskMap p) < 2 ^ 53)%Z.
Proof.
  intros Hsafe Hnd. unfold safeRisks in Hsafe.
  pose proof (pathRisk_edges riskMap p) as H1.
  pose proof (lookup_sum_bound ((λ e, riskKey e.1 e.2) <$> pathEdges p) riskMap)
    as H2.
  rewrite <- list_fmap_compose in H2.
  assert (NoDup ((λ e : N * N, riskKey e.1 e.2) <$> pathEdges p)) as Hkeys.
  { apply NoDup_fmap_2_strong; [|by apply pathEdges_NoDup].
    intros [a b] [c d] _ _ Heq. simpl in Heq.
    apply riskKey_inj in Heq as [-> ->]. done. }
  specialize (H2 Hkeys). unfold getRisk in H1. unfold compose in H2. lia.
Qed.

(** ** The two embeddings on the first test

    On the small test case, whose risks are small integers, the searches
    over integers and the searches over the numbers of the code give the
    list the test expects. *)

Lemma searches_agree_on_small_scenario :
  MultiRoot.solveHeist (Q:=list Entry) Scenario.smallSensors Scenario.smallRisks
    [4; 5; 6]%N
  = Returned [[1; 2; 4]; [1; 2; 4; 6]; [1; 2; 5]]%N ∧
  Double.MultiRoot.solveHeist 30 Scenario.smallSensors
    (toDouble <$> Scenario.smallRisks) [4; 5; 6]%N
  = Returned (Some [[1; 2; 4]; [1; 2; 4; 6]; [1; 2; 5]]%N) ∧
  Double.PerRoot.solveHeist 30 Scenario.smallSensors
    (toDouble <$> Scenario.smallRisks) [4; 5; 6]%N
  = Returned (Some [[1; 2; 4]; [1; 2; 4; 6]; [1; 2; 5]]%N).
Proof. vm_compute. repeat split; reflexivity. Qed.

(** * The claims *)

(** C1, as stated, fails on large risks, where the sums of the code round.
    With risk 2^53 on the edges 0→1 and 0→2, 1 on 1→3 and 0 on 2→3, the
    multi-source search returns [0,1,3] at the reported risk 2^53, although
    the risks along [0,2,3] sum to less than those along [0,1,3]. With two
    edges of risk 1e308 in a row the sum is [Infinity]: the per-root
    [findBestPathToTarget] returns [null] for a target that is reachable. *)
Lemma large_risks_defeat_minimum_risk :
  buildGraph LargeRisks.forkSensors = Returned LargeRisks.forkGraph ∧
  Double.MultiRoot.multiRootDijkstra 20 LargeRisks.forkSensors
    LargeRisks.forkGraph [0]%N
    (Double.buildRiskMap (toDouble <$> LargeRisks.forkRisks)) 3%N
  = Some (Some {| Double.tpi_target := 3;
                  Double.tpi_path := [0; 1; 3]%N;
                  Double.tpi_risk := Double.ofInteger (2 ^ 53) |}) ∧
  isPathFrom LargeRisks.forkGraph [0]%N [0; 2; 3]%N 3%N = true ∧
  (pathRisk (buildRiskMap LargeRisks.forkRisks) [0; 2; 3]%N
   < pathRisk (buildRiskMap LargeRisks.forkRisks) [0; 1; 3]%N)%Z ∧
  buildGraph LargeRisks.chainSensors = Returned LargeRisks.chainGraph ∧
  isPathFrom LargeRisks.chainGraph [0]%N [0; 1; 2]%N 2%N = true ∧
  Double.PerRoot.findBestPathToTarget 20 LargeRisks.chainSensors
    LargeRisks.chainGraph [0]%N (Double.buildRiskMap LargeRisks.hugeRisks) 2%N
  = Some None.
Proof. vm_compute. repeat split; reflexivity. Qed.

(** C1, amended. For a graph built from the sensors, a store of non-negative
    integer risks whose sum is less than 2^53, and a target reachable from
    some root, both [multiRootDijkstra] and [findBestPathToTarget] return a
    result; its path starts at a root, ends at the target and follows edges;
    its risk is the sum of the current edge risks along it, is the minimum
    over all root-to-target paths, and is itself less than 2^53. *)
Theorem search_returns_minimum_risk_path {Q : Type}
    `{!MinPriorityQueue Q, !MinPriorityQueueLaws Q}
    sensors graph roots riskMap target :
  buildGraph sensors = Returned graph →
  nonNegative riskMap →
  safeRisks riskMap →
  reachable graph roots target →
  (∃ info,
     MultiRoot.multiRootDijkstra (Q:=Q) sensors graph roots riskMap target = Some info ∧
     minimumRiskPath graph roots riskMap target info ∧
     (tpi_risk info < 2 ^ 53)%Z) ∧
  (∃ info,
     PerRoot.findBestPathToTarget (Q:=Q) sensors graph roots riskMap target = Some info ∧
     minimumRiskPath graph roots riskMap target info ∧
     (tpi_risk info < 2 ^ 53)%Z).
Proof.
  intros Hclosed%buildGraph_closed Hnn Hsafe [q Hq%walk_isPathFrom].
  assert (∀ res, engineSpec graph roots riskMap target res →
                 (∀ info, res = Some info → NoDup (tpi_path info)) →
                 ∃ info, res = Some info ∧
                         minimumRiskPath graph roots riskMap target info ∧
                         (tpi_risk info < 2 ^ 53)%Z) as Hres.
  { intros [info |] Hspec Hsimple; [| by destruct (Hspec q)].
    destruct Hspec as (Ht & Hw & Hr & Hopt). exists info. split; [done |].
    split.
    - split; [done |]. split; [by apply walk_isPathFrom |]. split; [done |].
      intros p Hp%walk_isPathFrom. by apply Hopt.
    - pose proof (pathRisk_safe riskMap (tpi_path info) Hsafe
                    (Hsimple info eq_refl)). lia. }
  split; apply Hres.
  - by apply multiRootDijkstra_spec.
  - intros info. apply multiRootDijkstra_simple.
  - by apply findBestPathToTarget_spec.
  - intros info. apply findBestPathToTarget_simple.
Qed.

Lemma search_returns_minimum_risk_path_witness :
  buildGraph Scenario.smallSensors = Returned Scenario.smallGraph ∧
  nonNegative (buildRiskMap Scenario.smallRisks) ∧
  safeRisks (buildRiskMap Scenario.smallRisks) ∧
  reachable Scenario.smallGraph [0; 1]%N 6%N ∧
  (∃ info,
     MultiRoot.multiRootDijkstra (Q:=list Entry) Scenario.smallSensors
       Scenario.smallGraph [0; 1]%N (buildRiskMap Scenario.smallRisks) 6%N = Some info ∧
     minimumRiskPath Scenario.smallGraph [0; 1]%N
       (buildRiskMap Scenario.smallRisks) 6%N info ∧
     (tpi_risk info < 2 ^ 53)%Z) ∧
  (∃ info,
     PerRoot.findBestPathToTarget (Q:=list Entry) Scenario.smallSensors
       Scenario.smallGraph [0; 1]%N (buildRiskMap Scenario.smallRisks) 6%N = Some info ∧
     minimumRiskPath Scenario.smallGraph [0; 1]%N
       (buildRiskMap Scenario.smallRisks) 6%N info ∧
     (tpi_risk info < 2 ^ 53)%Z).
Proof.
  assert (buildGraph Scenario.smallSensors = Returned Scenario.smallGraph) as H1
    by (vm_compute; reflexivity).
  assert (nonNegative (buildRiskMap Scenario.smallRisks)) as H2.
  { apply buildRiskMap_nonNegative. repeat (constructor; [simpl; lia |]). constructor. }
  assert (safeRisks (buildRiskMap Scenario.smallRisks)) as H3.
  { vm_compute. reflexivity. }
  assert (reachable Scenario.smallGraph [0; 1]%N 6%N) as H4.
  { exists [1; 2; 4; 6]%N. vm_compute. reflexivity. }
  split; [exact H1 |]. split; [exact H2 |]. split; [exact H3 |]. split; [exact H4 |].
  exact (search_returns_minimum_risk_path Scenario.smallSensors Scenario.smallGraph
           [0; 1]%N (buildRiskMap Scenario.smallRisks) 6%N H1 H2 H3 H4).
Defined.

(** C2. The documented tie-break is by smaller identifiers from front to
    back. The example with roots 0 and 1 returns [[0; 2]], but the queue
    compares the comma-joined decimal strings of the paths: with equal-risk
    paths [0,2,11] and [0,10,11] both variants return [0,10,11], although
    [0,2,11] is a path of the same risk that comes first numerically. *)
Theorem tie_break_compares_joined_strings {Q : Type}
    `{!MinPriorityQueue Q, !MinPriorityQueueLaws Q} :
  MultiRoot.solveHeist (Q:=Q) Scenario.tieSensors Scenario.tieRisks [2]%N
    = Returned [[0; 2]]%N ∧
  MultiRoot.solveHeist (Q:=Q) Scenario.wideSensors [] [11]%N
    = Returned [[0; 10; 11]]%N ∧
  PerRoot.solveHeist (Q:=Q) Scenario.wideSensors [] [11]%N
    = Returned [[0; 10; 11]]%N ∧
  buildGraph Scenario.wideSensors = Returned Scenario.wideGraph ∧
  findRoots Scenario.wideSensors = [0]%N ∧
  isPathFrom Scenario.wideGraph [0]%N [0; 2; 11]%N 11%N = true ∧
  pathRisk (buildRiskMap []) [0; 2; 11]%N
    = pathRisk (buildRiskMap []) [0; 10; 11]%N ∧
  pathBefore [0; 2; 11]%N [0; 10; 11]%N = true ∧
  compareEntries {| e_risk := 0; e_node := 11; e_path := [0; 10; 11]%N |}
                 {| e_risk := 0; e_node := 11; e_path := [0; 2; 11]%N |} = Lt.
Proof.
  rewrite !(MultiRoot_solveHeist_agree (Q1:=Q) (Q2:=list Entry)).
  rewrite (PerRoot_solveHeist_agree (Q1:=Q) (Q2:=list Entry)).
  vm_compute. repeat split; reflexivity.
Qed.

Lemma tie_break_compares_joined_strings_witness :
  MultiRoot.solveHeist (Q:=StackQueue) Scenario.tieSensors Scenario.tieRisks [2]%N
    = Returned [[0; 2]]%N ∧
  MultiRoot.solveHeist (Q:=StackQueue) Scenario.wideSensors [] [11]%N
    = Returned [[0; 10; 11]]%N.
Proof.
  pose proof (tie_break_compares_joined_strings (Q:=StackQueue)) as (H1 & H2 & _).
  exact (conj H1 H2).
Defined.

(** C3. In an iteration that records a path, the target removed from the
    pending set is a pending target for which the engine returned the
    recorded path; no pending target with a path has a smaller risk, and
    none of equal risk has a smaller identifier. This holds for the
    multi-source and for the per-root engine. *)
Theorem iteration_selects_cheapest_target {Q : Type} `{!MinPriorityQueue Q}
    sensors graph roots engine st st' :
  engine = MultiRoot.multiRootDijkstra (Q:=Q) sensors graph roots ∨
  engine = PerRoot.findBestPathToTarget (Q:=Q) sensors graph roots →
  heistStep setRisk engine st = Some st' →
  ∃ mp,
    ls_remaining st' = filter (λ t, t ≠ tpi_target mp) (ls_remaining st) ∧
    ls_paths st' = ls_paths st ++ [tpi_path mp] ∧
    tpi_target mp ∈ ls_remaining st ∧
    engine (ls_riskMap st) (tpi_target mp) = Some mp ∧
    ∀ t info, t ∈ ls_remaining st → engine (ls_riskMap st) t = Some info →
      (tpi_risk mp ≤ tpi_risk info)%Z ∧
      (tpi_risk mp = tpi_risk info → (tpi_target mp ≤ t)%N).
Proof.
  intros Hengine (mp & Hw & ->)%heistStep_Some.
  assert (∀ rm t info, engine rm t = Some info → tpi_target info = t) as Htarget.
  { intros rm t info. destruct Hengine as [-> | ->].
    - apply multiRootDijkstra_target.
    - apply findBestPathToTarget_target. }
  exists mp. split; [done |]. split; [done |].
  by apply winner_Some.
Qed.

Lemma iteration_selects_cheapest_target_witness :
  let engine := MultiRoot.multiRootDijkstra (Q:=list Entry) Scenario.smallSensors
                  Scenario.smallGraph [0; 1]%N in
  let st := initialState (buildRiskMap Scenario.smallRisks) [4; 5; 6]%N in
  let st' := {| ls_riskMap := zeroPath setRisk (buildRiskMap Scenario.smallRisks)
                                [1; 2; 4]%N;
                ls_remaining := [5; 6]%N;
                ls_paths := [[1; 2; 4]%N] |} in
  heistStep setRisk engine st = Some st' ∧
  ∃ mp,
    ls_remaining st' = filter (λ t, t ≠ tpi_target mp) (ls_remaining st) ∧
    ls_paths st' = ls_paths st ++ [tpi_path mp] ∧
    tpi_target mp ∈ ls_remaining st ∧
    engine (ls_riskMap st) (tpi_target mp) = Some mp ∧
    ∀ t info, t ∈ ls_remaining st → engine (ls_riskMap st) t = Some info →
      (tpi_risk mp ≤ tpi_risk info)%Z ∧
      (tpi_risk mp = tpi_risk info → (tpi_target mp ≤ t)%N).
Proof.
  intros engine st st'.
  assert (heistStep setRisk engine st = Some st') as Hstep
    by (vm_compute; reflexivity).
  split; [exact Hstep |].
  exact (iteration_selects_cheapest_target Scenario.smallSensors Scenario.smallGraph
           [0; 1]%N engine st st' (or_introl eq_refl) Hstep).
Defined.

(** C4. When an iteration records a path, every consecutive pair of that
    path has risk 0 in the store of every later state of the run, and the
    risk of every pair that is not consecutive on the path is the same after
    the iteration as before. *)
Theorem recorded_path_is_zeroed engine (st st' : LoopState) :
  heistStep setRisk engine st = Some st' →
  ∃ mp,
    winner engine st = Some mp ∧
    ls_paths st' = ls_paths st ++ [tpi_path mp] ∧
    (∀ a b st'', (a, b) ∈ pathEdges (tpi_path mp) →
       steps setRisk engine st' st'' → getRisk (ls_riskMap st'') a b = 0%Z) ∧
    (∀ a b, (a, b) ∉ pathEdges (tpi_path mp) →
       getRisk (ls_riskMap st') a b = getRisk (ls_riskMap st) a b).
Proof.
  intros (mp & Hw & ->)%heistStep_Some. exists mp. simpl.
  split; [done |]. split; [done |]. split.
  - intros a b st'' Hab Hsteps. eapply steps_zero; [done |]. simpl.
    rewrite getRisk_zeroPath. by rewrite decide_True.
  - intros a b Hab. rewrite getRisk_zeroPath. by rewrite decide_False.
Qed.

Lemma recorded_path_is_zeroed_witness :
  let engine := MultiRoot.multiRootDijkstra (Q:=list Entry) Scenario.smallSensors
                  Scenario.smallGraph [0; 1]%N in
  let st := initialState (buildRiskMap Scenario.smallRisks) [4; 5; 6]%N in
  let st' := {| ls_riskMap := zeroPath setRisk (buildRiskMap Scenario.smallRisks)
                                [1; 2; 4]%N;
                ls_remaining := [5; 6]%N;
                ls_paths := [[1; 2; 4]%N] |} in
  heistStep setRisk engine st = Some st' ∧
  ∃ mp,
    winner engine st = Some mp ∧
    ls_paths st' = ls_paths st ++ [tpi_path mp] ∧
    (∀ a b st'', (a, b) ∈ pathEdges (tpi_path mp) →
       steps setRisk engine st' st'' → getRisk (ls_riskMap st'') a b = 0%Z) ∧
    (∀ a b, (a, b) ∉ pathEdges (tpi_path mp) →
       getRisk (ls_riskMap st') a b = getRisk (ls_riskMap st) a b).
Proof.
  intros engine st st'.
  assert (heistStep setRisk engine st = Some st') as Hstep
    by (vm_compute; reflexivity).
  split; [exact Hstep |].
  exact (recorded_path_is_zeroed engine st st' Hstep).
Defined.

(** C5, as stated, fails: on the small test case the targets are resolved at
    risks 5, 1, 4, because zeroing the first path makes the second cheaper. *)
Lemma resolution_risks_can_decrease :
  MultiRoot.solveHeist (Q:=list Entry) Scenario.smallSensors Scenario.smallRisks
    [4; 5; 6]%N = Returned [[1; 2; 4]; [1; 2; 4; 6]; [1; 2; 5]]%N ∧
  ¬ ∀ i j ri rj,
      (i < j)%nat →
      resolutions setRisk
        (MultiRoot.multiRootDijkstra (Q:=list Entry) Scenario.smallSensors
           Scenario.smallGraph (findRoots Scenario.smallSensors))
        4 (initialState (buildRiskMap Scenario.smallRisks) [4; 5; 6]%N) !! i
        = Some ri →
      resolutions setRisk
        (MultiRoot.multiRootDijkstra (Q:=list Entry) Scenario.smallSensors
           Scenario.smallGraph (findRoots Scenario.smallSensors))
        4 (initialState (buildRiskMap Scenario.smallRisks) [4; 5; 6]%N) !! j
        = Some rj →
      (tpi_risk ri.2 ≤ tpi_risk rj.2)%Z.
Proof.
  split; [vm_compute; reflexivity |].
  match goal with
  | |- context [resolutions ?f ?e ?n ?s] =>
      assert ((λ r, tpi_risk r.2) <$> resolutions f e n s = [5; 1; 4]%Z) as Hrs
        by (vm_compute; reflexivity);
      revert Hrs; generalize (resolutions f e n s)
  end.
  intros [| r0 [| r1 rs]] Hrs Hmono; try done.
  pose proof (Hmono 0%nat 1%nat r0 r1 (le_n _) eq_refl eq_refl) as Hle.
  injection Hrs as E0 E1 _. lia.
Qed.

(** C5, amended. When path [i] is recorded, the target of every path [j]
    recorded later is still pending and has a path, and under the risks of
    that moment it costs at least as much as the winner; on equal risk the
    winner has the smaller identifier. *)
Theorem resolution_is_greedy_at_each_iteration {Q : Type}
    `{!MinPriorityQueue Q, !MinPriorityQueueLaws Q}
    sensors graph roots fuel st i j sti mpi stj mpj :
  buildGraph sensors = Returned graph →
  (i < j)%nat →
  resolutions setRisk (MultiRoot.multiRootDijkstra (Q:=Q) sensors graph roots)
    fuel st !! i = Some (sti, mpi) →
  resolutions setRisk (MultiRoot.multiRootDijkstra (Q:=Q) sensors graph roots)
    fuel st !! j = Some (stj, mpj) →
  ∃ info,
    MultiRoot.multiRootDijkstra (Q:=Q) sensors graph roots
      (ls_riskMap sti) (tpi_target mpj) = Some info ∧
    (tpi_risk mpi ≤ tpi_risk info)%Z ∧
    (tpi_risk mpi = tpi_risk info → (tpi_target mpi < tpi_target mpj)%N).
Proof.
  intros Hclosed%buildGraph_closed.
  apply (resolutions_greedy setRisk _ (reachable graph roots)).
  - intros rm t info. apply multiRootDijkstra_target.
  - intros rm t info He.
    destruct (engineSpec_Some _ _ _ _ _ _
                (multiRootDijkstra_spec sensors graph rm Hclosed roots t) He)
      as (_ & ? & ?). done.
  - intros rm t He.
    exact (engineSpec_None _ _ _ _ _
             (multiRootDijkstra_spec sensors graph rm Hclosed roots t) He).
Qed.

Lemma resolution_is_greedy_at_each_iteration_witness :
  let engine := MultiRoot.multiRootDijkstra (Q:=list Entry) Scenario.smallSensors
                  Scenario.smallGraph [0; 1]%N in
  let st := initialState (buildRiskMap Scenario.smallRisks) [4; 5; 6]%N in
  let st1 := {| ls_riskMap := zeroPath setRisk (buildRiskMap Scenario.smallRisks)
                                [1; 2; 4]%N;
                ls_remaining := [5; 6]%N;
                ls_paths := [[1; 2; 4]%N] |} in
  let mp0 := {| tpi_target := 4; tpi_path := [1; 2; 4]%N; tpi_risk := 5 |} in
  let mp1 := {| tpi_target := 6; tpi_path := [1; 2; 4; 6]%N; tpi_risk := 1 |} in
  buildGraph Scenario.smallSensors = Returned Scenario.smallGraph ∧
  resolutions setRisk engine 4 st !! 0%nat = Some (st, mp0) ∧
  resolutions setRisk engine 4 st !! 1%nat = Some (st1, mp1) ∧
  ∃ info,
    engine (ls_riskMap st) (tpi_target mp1) = Some info ∧
    (tpi_risk mp0 ≤ tpi_risk info)%Z ∧
    (tpi_risk mp0 = tpi_risk info → (tpi_target mp0 < tpi_target mp1)%N).
Proof.
  intros engine st st1 mp0 mp1.
  assert (buildGraph Scenario.smallSensors = Returned Scenario.smallGraph) as H1
    by (vm_compute; reflexivity).
  assert (resolutions setRisk engine 4 st !! 0%nat = Some (st, mp0)) as H2
    by (vm_compute; reflexivity).
  assert (resolutions setRisk engine 4 st !! 1%nat = Some (st1, mp1)) as H3
    by (vm_compute; reflexivity).
  split; [exact H1 |]. split; [exact H2 |]. split; [exact H3 |].
  exact (resolution_is_greedy_at_each_iteration Scenario.smallSensors
           Scenario.smallGraph [0; 1]%N 4 st 0%nat 1%nat st mp0 st1 mp1
           H1 (le_n _) H2 H3).
Defined.

(** C6, as stated, fails in two ways. With two edges of risk 1e308 in a row
    the risk of the only path to target 2 is [Infinity]; no comparison of
    the selection loop holds for it, the loop breaks and the output is empty
    although the target is reachable. And a target requested twice gives an
    output shorter than the requested list although every target is
    reachable. *)
Lemma overflow_hides_reachable_target :
  reaches LargeRisks.chainSensors 2%N ∧
  Double.MultiRoot.solveHeist 20 LargeRisks.chainSensors LargeRisks.hugeRisks [2]%N
    = Returned (Some []) ∧
  reaches Scenario.smallSensors 4%N ∧
  MultiRoot.solveHeist (Q:=list Entry) Scenario.smallSensors Scenario.smallRisks
    [4; 4]%N = Returned [[1; 2; 4]]%N.
Proof.
  split; [|split; [vm_compute; reflexivity|split; [|vm_compute; reflexivity]]].
  - apply (reachable_reaches _ LargeRisks.chainGraph); [vm_compute; reflexivity|].
    exists [0; 1; 2]%N. vm_compute. reflexivity.
  - apply (reachable_reaches _ Scenario.smallGraph); [vm_compute; reflexivity|].
    exists [1; 2; 4]%N. vm_compute. reflexivity.
Qed.

(** C6, amended. When the graph is built and the risks are integers whose
    magnitudes sum to less than 2^53, the run returns (the loop does not run
    out of fuel and nothing is thrown); the loop stops in a state where no
    pending target is reachable; the output holds exactly one path for each
    distinct requested target that is reachable (from a sensor without
    dependencies, along declared dependencies) and none for the others; it
    is never longer than the requested list, and as long exactly when no
    target is requested twice and all of them are reachable. *)
Theorem unreachable_targets_are_skipped {Q : Type}
    `{!MinPriorityQueue Q, !MinPriorityQueueLaws Q}
    sensors risks targetSensors graph :
  buildGraph sensors = Returned graph →
  safeRiskList risks →
  let roots := findRoots sensors in
  let engine := MultiRoot.multiRootDijkstra (Q:=Q) sensors graph roots in
  let st0 := initialState (buildRiskMap risks) targetSensors in
  ∃ out final ts,
    MultiRoot.solveHeist (Q:=Q) sensors risks targetSensors = Returned out ∧
    heistLoop setRisk engine (S (length (setOfList targetSensors))) st0 = Some out ∧
    steps setRisk engine st0 final ∧
    heistStep setRisk engine final = None ∧
    ls_paths final = out ∧
    (∀ t, t ∈ ls_remaining final → ¬ reaches sensors t) ∧
    Forall2 (λ p t, last p = Some t) out ts ∧
    NoDup ts ∧
    (∀ t, t ∈ ts ↔ t ∈ targetSensors ∧ reaches sensors t) ∧
    (length out ≤ length targetSensors)%nat ∧
    (length out = length targetSensors ↔
     NoDup targetSensors ∧ ∀ t, t ∈ targetSensors → reaches sensors t).
Proof.
  intros Hbuild _ roots engine st0.
  pose proof (buildGraph_closed _ _ Hbuild) as Hclosed.
  pose proof (λ t, reachable_reaches sensors graph t Hbuild) as Hreach.
  destruct (engines_run_spec sensors graph roots engine (buildRiskMap risks)
              targetSensors Hclosed (or_introl eq_refl))
    as (final & ts & Hloop & Hsteps & Hend & Hpaths & Hnone & Hts & Hnd & Hin & Hperm).
  pose proof (engines_meet_spec sensors graph roots engine Hclosed (or_introl eq_refl))
    as Hspec.
  assert (∀ t, t ∈ ls_remaining final → ¬ reaches sensors t) as Hunreach.
  { intros t Ht. rewrite <- Hreach.
    exact (engineSpec_None _ _ _ _ _ (Hspec _ t) (Hnone t Ht)). }
  pose proof (Forall2_length _ _ _ Hts) as Hlen.
  pose proof (Permutation_length Hperm) as Hlen'. rewrite length_app in Hlen'.
  destruct (setOfList_length targetSensors) as [Hle Hfull].
  exists (runHeist setRisk engine (buildRiskMap risks) targetSensors), final, ts.
  rewrite <- Hpaths at 4 5 6.
  split; [unfold MultiRoot.solveHeist; by rewrite Hbuild |].
  repeat (split; [done |]).
  split; [intros t; rewrite Hin; unfold roots; by rewrite (Hreach t) |].
  split; [lia |]. split.
  - intros Heq. split; [apply Hfull; lia |].
    intros t Ht%setOfList_elem. rewrite <- Hperm in Ht.
    assert (ls_remaining final = []) as Hnil by (apply length_zero_iff_nil; lia).
    rewrite Hnil, app_nil_r in Ht. apply Hreach. by apply Hin.
  - intros [Hnodup Hall]. apply Hfull in Hnodup.
    destruct (ls_remaining final) as [| t rest] eqn:Hrem; [simpl in *; lia |].
    destruct (Hunreach t); [by left |]. apply Hall, setOfList_elem.
    rewrite <- Hperm. apply elem_of_app. right. by left.
Qed.

Lemma unreachable_targets_are_skipped_witness :
  buildGraph Scenario.smallSensors = Returned Scenario.smallGraph ∧
  safeRiskList Scenario.smallRisks ∧
  ∃ out ts,
    MultiRoot.solveHeist (Q:=list Entry) Scenario.smallSensors Scenario.smallRisks
      [4; 9; 6]%N = Returned out ∧
    Forall2 (λ p t, last p = Some t) out ts ∧
    NoDup ts ∧
    (∀ t, t ∈ ts ↔ t ∈ [4; 9; 6]%N ∧ reaches Scenario.smallSensors t).
Proof.
  assert (buildGraph Scenario.smallSensors = Returned Scenario.smallGraph) as H1
    by (vm_compute; reflexivity).
  assert (safeRiskList Scenario.smallRisks) as H2 by (vm_compute; reflexivity).
  split; [exact H1 |]. split; [exact H2 |].
  destruct (unreachable_targets_are_skipped (Q:=list Entry) Scenario.smallSensors
              Scenario.smallRisks [4; 9; 6]%N Scenario.smallGraph H1 H2)
    as (out & final & ts & Hout & _ & _ & _ & _ & _ & Hts & Hnd & Hin & _).
  exists out, ts. exact (conj Hout (conj Hts (conj Hnd Hin))).
Defined.

(** C7, as stated, fails for the linear-scan variant: sensor 1 declares the
    dependency 7, which is no sensor, and the run still returns a path. *)
Lemma scan_variant_skips_unknown_dependency :
  unknownDependency Scenario.danglingSensors ∧
  Scan.solveHeist Scenario.danglingSensors Scenario.danglingRisks [1]%N
    = [[0; 1]]%N.
Proof.
  split; [| vm_compute; reflexivity].
  exists (Scenario.sensor 1 [0; 7]%N), 7%N.
  split; [by right; left |]. split; [by right; left |].
  simpl. intros [? | [? | Hnil%elem_of_nil]%elem_of_cons]%elem_of_cons; done.
Qed.

(** C7, amended. In the multi-source and the per-root variant, a node list
    with a dependency that is not the id of any node makes [solveHeist]
    throw while the graph is built, so no search runs and no path is
    returned. *)
Theorem unknown_dependency_throws {Q : Type} `{!MinPriorityQueue Q}
    sensors risks targetSensors :
  unknownDependency sensors →
  buildGraph sensors = Threw TypeError ∧
  MultiRoot.solveHeist (Q:=Q) sensors risks targetSensors = Threw TypeError ∧
  PerRoot.solveHeist (Q:=Q) sensors risks targetSensors = Threw TypeError.
Proof.
  intros (s & d & Hs & Hd & Hn).
  pose proof (buildGraph_Threw sensors s d Hs Hd Hn) as Hb.
  unfold MultiRoot.solveHeist, PerRoot.solveHeist. by rewrite Hb.
Qed.

Lemma unknown_dependency_throws_witness :
  unknownDependency Scenario.danglingSensors ∧
  buildGraph Scenario.danglingSensors = Threw TypeError ∧
  MultiRoot.solveHeist (Q:=list Entry) Scenario.danglingSensors
    Scenario.danglingRisks [1]%N = Threw TypeError ∧
  PerRoot.solveHeist (Q:=list Entry) Scenario.danglingSensors
    Scenario.danglingRisks [1]%N = Threw TypeError.
Proof.
  assert (unknownDependency Scenario.danglingSensors) as H1.
  { exists (Scenario.sensor 1 [0; 7]%N), 7%N.
    split; [by right; left |]. split; [by right; left |].
    simpl. intros [? | [? | Hnil%elem_of_nil]%elem_of_cons]%elem_of_cons; done. }
  split; [exact H1 |].
  exact (unknown_dependency_throws (Q:=list Entry) Scenario.danglingSensors
           Scenario.danglingRisks [1]%N H1).
Defined.




(** C9. The output of [solveHeist] is a function of its three inputs alone:
    two runs on the same input return the same list, whichever lawful
    priority queue each run uses and however that queue orders entries that
    compare equal. *)
Theorem solveHeist_is_deterministic {Q1 Q2 : Type}
    `{!MinPriorityQueue Q1, !MinPriorityQueueLaws Q1}
    `{!MinPriorityQueue Q2, !MinPriorityQueueLaws Q2}
    sensors risks targetSensors :
  MultiRoot.solveHeist (Q:=Q1) sensors risks targetSensors
  = MultiRoot.solveHeist (Q:=Q2) sensors risks targetSensors ∧
  PerRoot.solveHeist (Q:=Q1) sensors risks targetSensors
  = PerRoot.solveHeist (Q:=Q2) sensors risks targetSensors.
Proof.
  split; [apply MultiRoot_solveHeist_agree | apply PerRoot_solveHeist_agree].
Qed.

Lemma solveHeist_is_deterministic_witness :
  MultiRoot.solveHeist (Q:=list Entry) Scenario.smallSensors Scenario.smallRisks
    [4; 5; 6]%N
  = MultiRoot.solveHeist (Q:=StackQueue) Scenario.smallSensors Scenario.smallRisks
      [4; 5; 6]%N ∧
  PerRoot.solveHeist (Q:=list Entry) Scenario.smallSensors Scenario.smallRisks
    [4; 5; 6]%N
  = PerRoot.solveHeist (Q:=StackQueue) Scenario.smallSensors Scenario.smallRisks
      [4; 5; 6]%N.
Proof.
  exact (solveHeist_is_deterministic (Q1:=list Entry) (Q2:=StackQueue)
           Scenario.smallSensors Scenario.smallRisks [4; 5; 6]%N).
Defined.

(** C10. Whatever the target list repeats, the paths returned by either
    variant end at pairwise distinct nodes, each of them a requested
    target. *)
Theorem one_path_per_distinct_target {Q : Type}
    `{!MinPriorityQueue Q, !MinPriorityQueueLaws Q}
    sensors risks targetSensors out :
  MultiRoot.solveHeist (Q:=Q) sensors risks targetSensors = Returned out ∨
  PerRoot.solveHeist (Q:=Q) sensors risks targetSensors = Returned out →
  ∃ ts, Forall2 (λ p t, last p = Some t) out ts ∧
        NoDup ts ∧
        ∀ t, t ∈ ts → t ∈ targetSensors.
Proof.
  unfold MultiRoot.solveHeist, PerRoot.solveHeist.
  destruct (buildGraph sensors) as [graph |] eqn:Hbuild; [| by intros [? | ?]].
  pose proof (buildGraph_closed _ _ Hbuild) as Hclosed. simpl.
  intros [[= <-] | [= <-]].
  - destruct (engines_run_spec (Q:=Q) sensors graph (findRoots sensors) _
                (buildRiskMap risks) targetSensors Hclosed (or_introl eq_refl))
      as (f & ts & _ & _ & _ & Hp & _ & Hts & Hnd & Hin & _).
    rewrite Hp in Hts. exists ts. split; [done |]. split; [done |].
    intros t Ht. by apply Hin in Ht as [? _].
  - destruct (engines_run_spec (Q:=Q) sensors graph (findRoots sensors) _
                (buildRiskMap risks) targetSensors Hclosed (or_intror eq_refl))
      as (f & ts & _ & _ & _ & Hp & _ & Hts & Hnd & Hin & _).
    rewrite Hp in Hts. exists ts. split; [done |]. split; [done |].
    intros t Ht. by apply Hin in Ht as [? _].
Qed.

Lemma one_path_per_distinct_target_witness :
  MultiRoot.solveHeist (Q:=list Entry) Scenario.smallSensors Scenario.smallRisks
    [4; 5; 4; 6; 5]%N = Returned [[1; 2; 4]; [1; 2; 4; 6]; [1; 2; 5]]%N ∧
  ∃ ts, Forall2 (λ p t, last p = Some t)
          [[1; 2; 4]; [1; 2; 4; 6]; [1; 2; 5]]%N ts ∧
        NoDup ts ∧
        ∀ t, t ∈ ts → t ∈ [4; 5; 4; 6; 5]%N.
Proof.
  assert (MultiRoot.solveHeist (Q:=list Entry) Scenario.smallSensors
            Scenario.smallRisks [4; 5; 4; 6; 5]%N
          = Returned [[1; 2; 4]; [1; 2; 4; 6]; [1; 2; 5]]%N) as H1
    by (vm_compute; reflexivity).
  split; [exact H1 |].
  exact (one_path_per_distinct_target (Q:=list Entry) Scenario.smallSensors
           Scenario.smallRisks [4; 5; 4; 6; 5]%N _ (or_introl H1)).
Defined.

(** * Further properties, one theorem each *)

(** X1. Reading an edge right after writing it gives the written value, and
    writing one edge changes the risk of no other edge: the keys
    [`${from},${to}`] of two different edges never coincide. *)
Theorem keyed_store_read_after_write riskMap a b v c d :
  getRisk (setRisk riskMap a b v) c d
  = if decide (a = c ∧ b = d) then v else getRisk riskMap c d.
Proof.
  rewrite getRisk_setRisk. repeat case_decide; naive_solver.
Qed.

(** X2. After the risk map is filled from the input, an edge reads the risk
    of the last input entry that names it, and 0 when no entry names it. *)
Theorem buildRiskMap_last_entry_wins risks a b :
  getRisk (buildRiskMap risks) a b = default 0%Z (last (risksOf risks a b)).
Proof. apply buildRiskMap_lookup. Qed.

(** X3. In the linear-scan variant too, reading an edge right after writing
    it gives the written value and no other edge changes, whether the write
    updated an entry in place or appended a new one. *)
Theorem scanned_store_read_after_write riskMap a b v c d :
  Scan.getRisk (Scan.setRisk riskMap a b v) c d
  = if decide (a = c ∧ b = d) then v else Scan.getRisk riskMap c d.
Proof. apply Scan_getRisk_setRisk. Qed.

(** X4. In the linear-scan variant an edge reads the risk of the first input
    entry that names it (every entry is a key of its own, and the scan stops
    at the first match), and 0 when no entry names it. *)
Theorem Scan_buildRiskMap_first_entry_wins risks a b :
  Scan.getRisk (Scan.buildRiskMap risks) a b
  = default 0%Z (head (risksOf risks a b)).
Proof. apply Scan_buildRiskMap_lookup. Qed.

(** X5. When no edge is listed twice in the input, the scanned store and the
    string-keyed store read the same risk for every edge. *)
Theorem risk_stores_agree_without_duplicates risks a b :
  NoDup ((λ r, (fromSensor r, toSensor r)) <$> risks) →
  Scan.getRisk (Scan.buildRiskMap risks) a b = getRisk (buildRiskMap risks) a b.
Proof. intros Hnd. by apply sameRisks_build. Qed.

Lemma risk_stores_agree_without_duplicates_witness :
  NoDup ((λ r, (fromSensor r, toSensor r)) <$> Scenario.smallRisks) ∧
  Scan.getRisk (Scan.buildRiskMap Scenario.smallRisks) 3 5
  = getRisk (buildRiskMap Scenario.smallRisks) 3 5.
Proof.
  assert (NoDup ((λ r, (fromSensor r, toSensor r)) <$> Scenario.smallRisks)) as H.
  { apply (bool_decide_unpack _). vm_compute. exact I. }
  split; [exact H|].
  exact (risk_stores_agree_without_duplicates Scenario.smallRisks 3 5 H).
Defined.

(** X6. The roots are the identifiers of the sensors without dependencies,
    each as often as such a sensor occurs, in ascending numeric order. *)
Theorem findRoots_sorted_dependency_free sensors :
  StronglySorted N.le (findRoots sensors) ∧
  findRoots sensors ≡ₚ id <$> filter (λ s, dependencies s = []) sensors.
Proof. split; [apply findRoots_sorted|apply findRoots_perm]. Qed.

(** X7. When the graph is built, its keys are the sensor identifiers, and
    the list stored under [u] holds the sensors that declare [u] as a
    dependency, in input order, once per declaration. *)
Theorem buildGraph_lists_dependents sensors graph :
  buildGraph sensors = Returned graph →
  ∀ u, graph !! u
       = if decide (u ∈ id <$> sensors) then Some (dependentsOf sensors u)
         else None.
Proof. intros Hg u. by apply buildGraph_lookup. Qed.

Lemma buildGraph_lists_dependents_witness :
  buildGraph Scenario.smallSensors = Returned Scenario.smallGraph ∧
  ∀ u, Scenario.smallGraph !! u
       = if decide (u ∈ id <$> Scenario.smallSensors)
         then Some (dependentsOf Scenario.smallSensors u) else None.
Proof.
  assert (buildGraph Scenario.smallSensors = Returned Scenario.smallGraph) as H
    by (vm_compute; reflexivity).
  split; [exact H|].
  exact (buildGraph_lists_dependents Scenario.smallSensors Scenario.smallGraph H).
Defined.

(** X8. Building the graph returns exactly when every declared dependency is
    the identifier of some sensor. *)
Theorem buildGraph_returns_iff_dependencies_known sensors :
  (∃ graph, buildGraph sensors = Returned graph) ↔
  ∀ s d, s ∈ sensors → d ∈ dependencies s → d ∈ id <$> sensors.
Proof.
  split.
  - intros [graph Hg]. by apply (buildGraph_known _ _ Hg).
  - apply buildGraph_Returned.
Qed.

(** X9. The lenient builder of the linear-scan variant never fails: its
    keys are the sensor identifiers, and a dependency that is no sensor
    identifier is dropped while all the others are recorded as in the strict
    builder. *)
Theorem Scan_buildGraph_drops_unknown_dependencies sensors u :
  Scan.buildGraph sensors !! u
  = if decide (u ∈ id <$> sensors) then Some (dependentsOf sensors u) else None.
Proof. apply Scan_buildGraph_lookup. Qed.

(** X10. When sensor identifiers are pairwise distinct, no edge of the built
    graph leads into a root. *)
Theorem roots_have_no_incoming_edge sensors graph u r :
  NoDup (id <$> sensors) →
  buildGraph sensors = Returned graph →
  r ∈ findRoots sensors →
  isEdge graph u r = false.
Proof.
  intros Hnd <-%buildGraph_Scan Hr. by apply root_no_incoming.
Qed.

Lemma roots_have_no_incoming_edge_witness :
  NoDup (id <$> Scenario.smallSensors) ∧
  buildGraph Scenario.smallSensors = Returned Scenario.smallGraph ∧
  1%N ∈ findRoots Scenario.smallSensors ∧
  isEdge Scenario.smallGraph 2 1 = false.
Proof.
  assert (NoDup (id <$> Scenario.smallSensors)) as H1.
  { apply (bool_decide_unpack _). vm_compute. exact I. }
  assert (buildGraph Scenario.smallSensors = Returned Scenario.smallGraph) as H2
    by (vm_compute; reflexivity).
  assert (1%N ∈ findRoots Scenario.smallSensors) as H3.
  { apply (bool_decide_unpack _). vm_compute. exact I. }
  split; [exact H1|]. split; [exact H2|]. split; [exact H3|].
  exact (roots_have_no_incoming_edge Scenario.smallSensors Scenario.smallGraph
           2 1 H1 H2 H3).
Defined.

(** X11. Sorting the frontier array and shifting its first element hands
    out an entry that no entry of the array beats under the comparison
    callback, and leaves the other entries; the sorted array is empty only
    when the array is. *)
Theorem Scan_frontier_hands_out_least_entry l :
  match Scan.sortEntries l with
  | [] => l = []
  | e :: rest => l ≡ₚ e :: rest ∧ ∀ x, x ∈ l → compareEntries e x ≠ Gt
  end.
Proof.
  destruct (Scan.sortEntries l) as [|e rest] eqn:Hs.
  - pose proof (sortEntries_perm l) as Hp. rewrite Hs in Hp.
    by apply Permutation_nil_l in Hp.
  - by apply sortEntries_head.
Qed.

(** X12. The search of the linear-scan variant returns what the search of
    the per-root variant returns, for every lawful queue, whenever the two
    risk stores read alike: the re-sorted array acts as a priority queue,
    the order of the operands of the sum does not matter, and the risk 0
    stored for the start before the loop is never read. *)
Theorem Scan_dijkstra_equals_PerRoot_dijkstra {Q : Type}
    `{!MinPriorityQueue Q, !MinPriorityQueueLaws Q}
    sensors graph scanMap riskMap start target :
  sameRisks scanMap riskMap →
  Scan.dijkstra sensors graph scanMap start target
  = PerRoot.dijkstra (Q:=Q) sensors graph riskMap start target.
Proof. intros Hs. by apply Scan_dijkstra_eq. Qed.

Lemma Scan_dijkstra_equals_PerRoot_dijkstra_witness :
  sameRisks (Scan.buildRiskMap Scenario.smallRisks)
            (buildRiskMap Scenario.smallRisks) ∧
  Scan.dijkstra Scenario.smallSensors Scenario.smallGraph
    (Scan.buildRiskMap Scenario.smallRisks) 1 6
  = PerRoot.dijkstra (Q:=StackQueue) Scenario.smallSensors Scenario.smallGraph
      (buildRiskMap Scenario.smallRisks) 1 6.
Proof.
  assert (sameRisks (Scan.buildRiskMap Scenario.smallRisks)
                    (buildRiskMap Scenario.smallRisks)) as H.
  { apply sameRisks_build. apply (bool_decide_unpack _). vm_compute. exact I. }
  split; [exact H|].
  exact (Scan_dijkstra_equals_PerRoot_dijkstra (Q:=StackQueue)
           Scenario.smallSensors Scenario.smallGraph _ _ 1%N 6%N H).
Defined.

(** X13. On an input whose dependencies are all sensor identifiers and
    whose risk list names no edge twice, the linear-scan variant returns the
    paths the per-root variant returns. *)
Theorem Scan_solveHeist_equals_PerRoot_solveHeist {Q : Type}
    `{!MinPriorityQueue Q, !MinPriorityQueueLaws Q}
    sensors risks targetSensors graph :
  buildGraph sensors = Returned graph →
  NoDup ((λ r, (fromSensor r, toSensor r)) <$> risks) →
  PerRoot.solveHeist (Q:=Q) sensors risks targetSensors
  = Returned (Scan.solveHeist sensors risks targetSensors).
Proof. intros Hg Hnd. by eapply Scan_solveHeist_eq. Qed.

Lemma Scan_solveHeist_equals_PerRoot_solveHeist_witness :
  buildGraph Scenario.smallSensors = Returned Scenario.smallGraph ∧
  NoDup ((λ r, (fromSensor r, toSensor r)) <$> Scenario.smallRisks) ∧
  PerRoot.solveHeist (Q:=list Entry) Scenario.smallSensors Scenario.smallRisks
    [4; 5; 6]%N
  = Returned (Scan.solveHeist Scenario.smallSensors Scenario.smallRisks [4; 5; 6]%N).
Proof.
  assert (buildGraph Scenario.smallSensors = Returned Scenario.smallGraph) as H1
    by (vm_compute; reflexivity).
  assert (NoDup ((λ r, (fromSensor r, toSensor r)) <$> Scenario.smallRisks)) as H2.
  { apply (bool_decide_unpack _). vm_compute. exact I. }
  split; [exact H1|]. split; [exact H2|].
  exact (Scan_solveHeist_equals_PerRoot_solveHeist (Q:=list Entry)
           Scenario.smallSensors Scenario.smallRisks [4; 5; 6]%N
           Scenario.smallGraph H1 H2).
Defined.

(** X14. In the linear-scan variant, on the graph it builds from any sensor
    list, with non-negative integer risks stored whose sum is less than
    2^53 and a target reachable from some root, [findBestPathToTarget]
    returns a path from a root to the target whose reported risk is the sum
    of its edge risks and is least among all such paths. *)
Theorem scan_variant_finds_minimum_risk_path sensors roots riskMap target :
  Forall (λ er : Scan.Edge * Z, (0 ≤ er.2)%Z) riskMap →
  safeScanRisks riskMap →
  reachable (Scan.buildGraph sensors) roots target →
  ∃ info,
    Scan.findBestPathToTarget sensors (Scan.buildGraph sensors) roots riskMap target
      = Some info ∧
    tpi_target info = target ∧
    isPathFrom (Scan.buildGraph sensors) roots (tpi_path info) target = true ∧
    tpi_risk info = scanPathRisk riskMap (tpi_path info) ∧
    ∀ p, isPathFrom (Scan.buildGraph sensors) roots p target = true →
         (tpi_risk info ≤ scanPathRisk riskMap p)%Z.
Proof.
  intros Hnn _ [q Hq].
  rewrite (Scan_findBestPathToTarget_eq (Q:=list Entry) sensors
             (Scan.buildGraph sensors) riskMap (keyedStore riskMap)
             (sameRisks_keyed riskMap)).
  pose proof (findBestPathToTarget_spec (Q:=list Entry) sensors
                (Scan.buildGraph sensors) (keyedStore riskMap)
                (Scan_buildGraph_closed sensors) roots target) as Hspec.
  destruct (PerRoot.findBestPathToTarget _ _ _ _ _) as [info|]; simpl in Hspec.
  - exists info. destruct Hspec as (Ht & Hw & Hc & Hmin).
    split; [done|]. split; [done|]. split; [by apply walk_isPathFrom|].
    rewrite (sameRisks_pathRisk _ _ _ (sameRisks_keyed riskMap)).
    split; [done|]. intros p Hp.
    rewrite (sameRisks_pathRisk _ _ _ (sameRisks_keyed riskMap)).
    apply Hmin; [by apply keyed_nonNegative|by apply walk_isPathFrom].
  - exfalso. apply (Hspec q). by apply walk_isPathFrom.
Qed.

Lemma scan_variant_finds_minimum_risk_path_witness :
  Forall (λ er : Scan.Edge * Z, (0 ≤ er.2)%Z)
         (Scan.buildRiskMap Scenario.danglingRisks) ∧
  safeScanRisks (Scan.buildRiskMap Scenario.danglingRisks) ∧
  reachable (Scan.buildGraph Scenario.danglingSensors) [0]%N 1%N ∧
  ∃ info,
    Scan.findBestPathToTarget Scenario.danglingSensors
      (Scan.buildGraph Scenario.danglingSensors) [0]%N
      (Scan.buildRiskMap Scenario.danglingRisks) 1%N = Some info ∧
    tpi_target info = 1%N ∧
    isPathFrom (Scan.buildGraph Scenario.danglingSensors) [0]%N
               (tpi_path info) 1%N = true ∧
    tpi_risk info
      = scanPathRisk (Scan.buildRiskMap Scenario.danglingRisks) (tpi_path info) ∧
    ∀ p, isPathFrom (Scan.buildGraph Scenario.danglingSensors) [0]%N p 1%N = true →
         (tpi_risk info
          ≤ scanPathRisk (Scan.buildRiskMap Scenario.danglingRisks) p)%Z.
Proof.
  assert (Forall (λ er : Scan.Edge * Z, (0 ≤ er.2)%Z)
                 (Scan.buildRiskMap Scenario.danglingRisks)) as H1.
  { repeat (constructor; [simpl; lia|]). constructor. }
  assert (safeScanRisks (Scan.buildRiskMap Scenario.danglingRisks)) as Hs
    by (vm_compute; reflexivity).
  assert (reachable (Scan.buildGraph Scenario.danglingSensors) [0]%N 1%N) as H2.
  { exists [0; 1]%N. vm_compute. reflexivity. }
  split; [exact H1|]. split; [exact Hs|]. split; [exact H2|].
  exact (scan_variant_finds_minimum_risk_path Scenario.danglingSensors [0]%N
           (Scan.buildRiskMap Scenario.danglingRisks) 1%N H1 Hs H2).
Defined.

(** X15. When the risks of the input are integers whose magnitudes sum to
    less than 2^53, the linear-scan variant returns a list that holds
    exactly one path for each distinct requested target that is reachable
    (from a sensor without dependencies, along declared dependencies),
    ending at that target, and none for the others; it does so for every
    sensor list, unknown dependencies included. *)
Theorem Scan_solveHeist_resolves_reachable_targets sensors risks targetSensors :
  safeRiskList risks →
  ∃ ts,
    Forall2 (λ p t, last p = Some t)
            (Scan.solveHeist sensors risks targetSensors) ts ∧
    NoDup ts ∧
    ∀ t, t ∈ ts ↔ t ∈ targetSensors ∧ reaches sensors t.
Proof.
  intros _. unfold Scan.solveHeist. cbv zeta.
  rewrite (Scan_runHeist_eq (Q:=list Entry) sensors (Scan.buildGraph sensors)
             (findRoots sensors) (Scan.buildRiskMap risks)
             (keyedStore (Scan.buildRiskMap risks)) targetSensors
             (sameRisks_keyed _)).
  destruct (engines_run_spec (Q:=list Entry) sensors (Scan.buildGraph sensors)
              (findRoots sensors) _ (keyedStore (Scan.buildRiskMap risks))
              targetSensors (Scan_buildGraph_closed sensors)
              (or_intror eq_refl))
    as (final & ts & _ & _ & _ & Hout & _ & Hends & Hnd & Hts & _).
  exists ts. rewrite <- Hout. split; [done|]. split; [done|].
  intros t. by rewrite Hts, Scan_reachable_reaches.
Qed.

Lemma Scan_solveHeist_resolves_reachable_targets_witness :
  safeRiskList Scenario.danglingRisks ∧
  ∃ ts,
    Forall2 (λ p t, last p = Some t)
            (Scan.solveHeist Scenario.danglingSensors Scenario.danglingRisks
               [1; 7]%N) ts ∧
    NoDup ts ∧
    ∀ t, t ∈ ts ↔ t ∈ [1; 7]%N ∧ reaches Scenario.danglingSensors t.
Proof.
  assert (safeRiskList Scenario.danglingRisks) as H by (vm_compute; reflexivity).
  split; [exact H|].
  exact (Scan_solveHeist_resolves_reachable_targets Scenario.danglingSensors
           Scenario.danglingRisks [1; 7]%N H).
Defined.

(** X16. The search loop ends after at most one iteration per root plus one
    per entry of the adjacency lists: with any larger bound on the number of
    iterations the loop ends with the result of [multiRootDijkstra]; a
    single-source search ends within one iteration plus one per entry. *)
Theorem search_loop_ends_within_budget {Q : Type}
    `{!MinPriorityQueue Q, !MinPriorityQueueLaws Q}
    sensors graph roots riskMap start target fuel fuel1 :
  (S (length roots + edgeBudget graph ∅) ≤ fuel)%nat →
  (S (1 + edgeBudget graph ∅) ≤ fuel1)%nat →
  searchLoop graph riskMap fuel target
    (MultiRoot.seedRoots roots (initRisks sensors, pq_new (Q:=Q))).1 ∅
    (MultiRoot.seedRoots roots (initRisks sensors, pq_new (Q:=Q))).2
  = Some (MultiRoot.multiRootDijkstra (Q:=Q) sensors graph roots riskMap target) ∧
  searchLoop graph riskMap fuel1 target (initRisks sensors) ∅
    (enqueue {| e_risk := 0; e_node := start; e_path := [start] |} (pq_new (Q:=Q)))
  = Some (PerRoot.dijkstra (Q:=Q) sensors graph riskMap start target).
Proof.
  intros Hle Hle1. split.
  - by apply multiRootDijkstra_any_fuel.
  - by apply dijkstra_any_fuel.
Qed.

Lemma search_loop_ends_within_budget_witness :
  (S (length [0; 1]%N + edgeBudget Scenario.smallGraph ∅) ≤ 40)%nat ∧
  (S (1 + edgeBudget Scenario.smallGraph ∅) ≤ 30)%nat ∧
  searchLoop Scenario.smallGraph (buildRiskMap Scenario.smallRisks) 40 6%N
    (MultiRoot.seedRoots [0; 1]%N
       (initRisks Scenario.smallSensors, pq_new (Q:=list Entry))).1 ∅
    (MultiRoot.seedRoots [0; 1]%N
       (initRisks Scenario.smallSensors, pq_new (Q:=list Entry))).2
  = Some (MultiRoot.multiRootDijkstra (Q:=list Entry) Scenario.smallSensors
            Scenario.smallGraph [0; 1]%N (buildRiskMap Scenario.smallRisks) 6%N).
Proof.
  assert (S (length [0; 1]%N + edgeBudget Scenario.smallGraph ∅) ≤ 40)%nat as H.
  { vm_compute. lia. }
  assert (S (1 + edgeBudget Scenario.smallGraph ∅) ≤ 30)%nat as H1.
  { vm_compute. lia. }
  split; [exact H|]. split; [exact H1|].
  exact (proj1 (search_loop_ends_within_budget (Q:=list Entry)
                  Scenario.smallSensors Scenario.smallGraph [0; 1]%N
                  (buildRiskMap Scenario.smallRisks) 0%N 6%N 40 30 H H1)).
Defined.

(** X17. A path returned by either engine visits no node twice, whatever
    the graph (cycles included) and whatever the risks. *)
Theorem returned_paths_repeat_no_node {Q : Type}
    `{!MinPriorityQueue Q, !MinPriorityQueueLaws Q}
    sensors graph roots engine riskMap target info :
  engine = MultiRoot.multiRootDijkstra (Q:=Q) sensors graph roots ∨
  engine = PerRoot.findBestPathToTarget (Q:=Q) sensors graph roots →
  engine riskMap target = Some info →
  NoDup (tpi_path info).
Proof.
  intros [-> | ->] Hinfo.
  - by eapply multiRootDijkstra_simple.
  - by eapply findBestPathToTarget_simple.
Qed.

Lemma returned_paths_repeat_no_node_witness :
  let engine := MultiRoot.multiRootDijkstra (Q:=list Entry) Scenario.smallSensors
                  Scenario.smallGraph [0; 1]%N in
  let info := {| tpi_target := 6; tpi_path := [1; 2; 4; 6]%N; tpi_risk := 6 |} in
  engine (buildRiskMap Scenario.smallRisks) 6%N = Some info ∧
  NoDup (tpi_path info).
Proof.
  intros engine info.
  assert (engine (buildRiskMap Scenario.smallRisks) 6%N = Some info) as H
    by (vm_compute; reflexivity).
  split; [exact H|].
  exact (returned_paths_repeat_no_node (Q:=list Entry) Scenario.smallSensors
           Scenario.smallGraph [0; 1]%N engine (buildRiskMap Scenario.smallRisks)
           6%N info (or_introl eq_refl) H).
Defined.

(** X18. On an acyclic built graph whose identifiers are below 2^53, with
    non-negative integer risks stored whose sum is less than 2^53, the path
    returned by [multiRootDijkstra] is, among the root-to-target paths of
    the same risk, the one whose comma-joined decimal string comes first. *)
Theorem search_returns_first_tied_path {Q : Type}
    `{!MinPriorityQueue Q, !MinPriorityQueueLaws Q}
    sensors graph roots riskMap target info q :
  buildGraph sensors = Returned graph →
  decimalIds sensors →
  nonNegative riskMap →
  safeRisks riskMap →
  acyclic graph →
  MultiRoot.multiRootDijkstra (Q:=Q) sensors graph roots riskMap target = Some info →
  isPathFrom graph roots q target = true →
  pathRisk riskMap q = tpi_risk info →
  (joinPath (tpi_path info) ?= joinPath q)%string ≠ Gt.
Proof.
  intros Hg _ Hnn _ Hac Hinfo Hq Hrisk.
  pose proof (buildGraph_closed _ _ Hg) as Hclosed.
  pose proof (multiRootDijkstra_spec (Q:=Q) sensors graph riskMap Hclosed
                roots target) as Hspec.
  rewrite Hinfo in Hspec. destruct Hspec as (_ & _ & Hc & _).
  apply (pathLe_tied riskMap); [|congruence].
  eapply (multiRootDijkstra_first (Q:=Q)); eauto.
  by apply walk_isPathFrom.
Qed.

Lemma search_returns_first_tied_path_witness :
  let info := {| tpi_target := 11; tpi_path := [0; 10; 11]%N; tpi_risk := 0 |} in
  buildGraph Scenario.wideSensors = Returned Scenario.wideGraph ∧
  decimalIds Scenario.wideSensors ∧
  nonNegative (buildRiskMap []) ∧
  safeRisks (buildRiskMap []) ∧
  acyclic Scenario.wideGraph ∧
  MultiRoot.multiRootDijkstra (Q:=list Entry) Scenario.wideSensors
    Scenario.wideGraph [0]%N (buildRiskMap []) 11%N = Some info ∧
  isPathFrom Scenario.wideGraph [0]%N [0; 2; 11]%N 11%N = true ∧
  pathRisk (buildRiskMap []) [0; 2; 11]%N = tpi_risk info ∧
  (joinPath (tpi_path info) ?= joinPath [0; 2; 11]%N)%string ≠ Gt.
Proof.
  intros info.
  assert (buildGraph Scenario.wideSensors = Returned Scenario.wideGraph) as H1
    by (vm_compute; reflexivity).
  assert (decimalIds Scenario.wideSensors) as Hd.
  { repeat (constructor; [simpl; lia|]). constructor. }
  assert (nonNegative (buildRiskMap [])) as H2 by apply map_Forall_empty.
  assert (safeRisks (buildRiskMap [])) as Hs by (vm_compute; reflexivity).
  assert (acyclic Scenario.wideGraph) as H3.
  { exists N.to_nat.
    apply (bool_decide_unpack (rankedGraph N.to_nat Scenario.wideGraph)).
    vm_compute. exact I. }
  assert (MultiRoot.multiRootDijkstra (Q:=list Entry) Scenario.wideSensors
            Scenario.wideGraph [0]%N (buildRiskMap []) 11%N = Some info) as H4
    by (vm_compute; reflexivity).
  assert (isPathFrom Scenario.wideGraph [0]%N [0; 2; 11]%N 11%N = true) as H5
    by (vm_compute; reflexivity).
  assert (pathRisk (buildRiskMap []) [0; 2; 11]%N = tpi_risk info) as H6
    by (vm_compute; reflexivity).
  split; [exact H1|]. split; [exact Hd|]. split; [exact H2|]. split; [exact Hs|].
  split; [exact H3|]. split; [exact H4|]. split; [exact H5|]. split; [exact H6|].
  exact (search_returns_first_tied_path (Q:=list Entry) Scenario.wideSensors
           Scenario.wideGraph [0]%N (buildRiskMap []) 11%N info [0; 2; 11]%N
           H1 Hd H2 Hs H3 H4 H5 H6).
Defined.

(** X19. Whatever the sign of the stored risks, as long as they are
    integers whose magnitudes sum to less than 2^53: on a built graph
    [multiRootDijkstra] returns [null] exactly when no path leads from a
    root to the target, and a returned path leads from a root to the target
    along edges, with the reported risk equal to the sum of its edge risks
    and of magnitude less than 2^53. *)
Theorem search_is_sound_for_any_risks {Q : Type}
    `{!MinPriorityQueue Q, !MinPriorityQueueLaws Q}
    sensors graph roots riskMap target :
  buildGraph sensors = Returned graph →
  safeRisks riskMap →
  (MultiRoot.multiRootDijkstra (Q:=Q) sensors graph roots riskMap target = None
   ↔ ¬ reachable graph roots target) ∧
  ∀ info,
    MultiRoot.multiRootDijkstra (Q:=Q) sensors graph roots riskMap target = Some info →
    tpi_target info = target ∧
    isPathFrom graph roots (tpi_path info) target = true ∧
    tpi_risk info = pathRisk riskMap (tpi_path info) ∧
    (Z.abs (tpi_risk info) < 2 ^ 53)%Z.
Proof.
  intros Hg Hsafe. pose proof (buildGraph_closed _ _ Hg) as Hclosed.
  pose proof (multiRootDijkstra_spec (Q:=Q) sensors graph riskMap Hclosed
                roots target) as Hspec.
  destruct (MultiRoot.multiRootDijkstra _ _ _ _ _) as [info|] eqn:Hinfo;
    simpl in Hspec.
  - destruct Hspec as (Ht & Hw & Hc & _). split.
    + split; [done|]. intros Hno. exfalso. apply Hno.
      exists (tpi_path info). by apply walk_isPathFrom.
    + intros ? [= <-]. split; [done|]. split; [by apply walk_isPathFrom|].
      split; [done|]. rewrite <- Hc. apply pathRisk_safe; [done|].
      by eapply multiRootDijkstra_simple.
  - split; [|done]. split; [|done].
    intros _ [p Hp]. apply (Hspec p). by apply walk_isPathFrom.
Qed.

Lemma search_is_sound_for_any_risks_witness :
  buildGraph Scenario.smallSensors = Returned Scenario.smallGraph ∧
  safeRisks (buildRiskMap [Scenario.edgeRisk 0 2 (-4)]) ∧
  (MultiRoot.multiRootDijkstra (Q:=list Entry) Scenario.smallSensors
     Scenario.smallGraph [0; 1]%N
     (buildRiskMap [Scenario.edgeRisk 0 2 (-4)]) 9%N = None
   ↔ ¬ reachable Scenario.smallGraph [0; 1]%N 9%N).
Proof.
  assert (buildGraph Scenario.smallSensors = Returned Scenario.smallGraph) as H
    by (vm_compute; reflexivity).
  assert (safeRisks (buildRiskMap [Scenario.edgeRisk 0 2 (-4)])) as Hs
    by (vm_compute; reflexivity).
  split; [exact H|]. split; [exact Hs|].
  exact (proj1 (search_is_sound_for_any_risks (Q:=list Entry)
                  Scenario.smallSensors Scenario.smallGraph [0; 1]%N
                  (buildRiskMap [Scenario.edgeRisk 0 2 (-4)]) 9%N H Hs)).
Defined.

(** X20. When sensor identifiers are pairwise distinct and the graph is
    built, a target that is itself a root is answered by both engines with
    the one-node path at risk 0, whatever the risks. *)
Theorem root_target_gets_one_node_path {Q : Type}
    `{!MinPriorityQueue Q, !MinPriorityQueueLaws Q}
    sensors graph riskMap r :
  NoDup (id <$> sensors) →
  buildGraph sensors = Returned graph →
  r ∈ findRoots sensors →
  MultiRoot.multiRootDijkstra (Q:=Q) sensors graph (findRoots sensors) riskMap r
    = Some {| tpi_target := r; tpi_path := [r]; tpi_risk := 0 |} ∧
  PerRoot.findBestPathToTarget (Q:=Q) sensors graph (findRoots sensors) riskMap r
    = Some {| tpi_target := r; tpi_path := [r]; tpi_risk := 0 |}.
Proof.
  intros Hnd Hg Hr. pose proof (buildGraph_closed _ _ Hg) as Hclosed.
  apply buildGraph_Scan in Hg as <-. split.
  - eapply engineSpec_root; [done..|].
    by apply (multiRootDijkstra_spec (Q:=Q)).
  - eapply engineSpec_root; [done..|].
    by apply (findBestPathToTarget_spec (Q:=Q)).
Qed.

Lemma root_target_gets_one_node_path_witness :
  NoDup (id <$> Scenario.smallSensors) ∧
  buildGraph Scenario.smallSensors = Returned Scenario.smallGraph ∧
  1%N ∈ findRoots Scenario.smallSensors ∧
  MultiRoot.multiRootDijkstra (Q:=list Entry) Scenario.smallSensors
    Scenario.smallGraph (findRoots Scenario.smallSensors)
    (buildRiskMap Scenario.smallRisks) 1%N
    = Some {| tpi_target := 1; tpi_path := [1]%N; tpi_risk := 0 |}.
Proof.
  assert (NoDup (id <$> Scenario.smallSensors)) as H1.
  { apply (bool_decide_unpack _). vm_compute. exact I. }
  assert (buildGraph Scenario.smallSensors = Returned Scenario.smallGraph) as H2
    by (vm_compute; reflexivity).
  assert (1%N ∈ findRoots Scenario.smallSensors) as H3.
  { apply (bool_decide_unpack _). vm_compute. exact I. }
  split; [exact H1|]. split; [exact H2|]. split; [exact H3|].
  exact (proj1 (root_target_gets_one_node_path (Q:=list Entry)
                  Scenario.smallSensors Scenario.smallGraph
                  (buildRiskMap Scenario.smallRisks) 1%N H1 H2 H3)).
Defined.

(** X21. Among the roots from which [dijkstra] finds the target,
    [findBestPathToTarget] returns the result of one with the least risk,
    and among those of least risk the one with the smallest identifier. *)
Theorem best_root_is_cheapest_then_smallest {Q : Type} `{!MinPriorityQueue Q}
    sensors graph roots riskMap target info :
  PerRoot.findBestPathToTarget (Q:=Q) sensors graph roots riskMap target = Some info →
  ∃ r res,
    r ∈ roots ∧
    PerRoot.dijkstra (Q:=Q) sensors graph riskMap r target = Some res ∧
    tpi_path info = tpi_path res ∧ tpi_risk info = tpi_risk res ∧
    ∀ r' res', r' ∈ roots →
      PerRoot.dijkstra (Q:=Q) sensors graph riskMap r' target = Some res' →
      (tpi_risk res ≤ tpi_risk res')%Z ∧
      (tpi_risk res = tpi_risk res' → (r ≤ r')%N).
Proof. apply findBestPathToTarget_choice. Qed.

Lemma best_root_is_cheapest_then_smallest_witness :
  let graph : gmap N (list N) := list_to_map [(2, [11]); (10, [11]); (11, [])]%N in
  let info := {| tpi_target := 11; tpi_path := [2; 11]%N; tpi_risk := 0 |} in
  PerRoot.findBestPathToTarget (Q:=list Entry) Scenario.twoRootSensors graph
    [2; 10]%N (buildRiskMap []) 11%N = Some info ∧
  ∃ r res,
    r ∈ [2; 10]%N ∧
    PerRoot.dijkstra (Q:=list Entry) Scenario.twoRootSensors graph
      (buildRiskMap []) r 11%N = Some res ∧
    tpi_path info = tpi_path res ∧ tpi_risk info = tpi_risk res ∧
    ∀ r' res', r' ∈ [2; 10]%N →
      PerRoot.dijkstra (Q:=list Entry) Scenario.twoRootSensors graph
        (buildRiskMap []) r' 11%N = Some res' →
      (tpi_risk res ≤ tpi_risk res')%Z ∧
      (tpi_risk res = tpi_risk res' → (r ≤ r')%N).
Proof.
  intros graph info.
  assert (PerRoot.findBestPathToTarget (Q:=list Entry) Scenario.twoRootSensors graph
            [2; 10]%N (buildRiskMap []) 11%N = Some info) as H
    by (vm_compute; reflexivity).
  split; [exact H|].
  exact (best_root_is_cheapest_then_smallest (Q:=list Entry)
           Scenario.twoRootSensors graph [2; 10]%N (buildRiskMap []) 11%N info H).
Defined.

(** X22. In every state the run reaches, an edge has risk 0 when it lies on
    one of the paths recorded so far, and its initial risk otherwise. *)
Theorem run_zeroes_exactly_recorded_edges engine riskMap targetSensors
    (st : LoopState) a b :
  steps setRisk engine (initialState riskMap targetSensors) st →
  getRisk (ls_riskMap st) a b
  = if decide ((a, b) ∈ ls_paths st ≫= pathEdges) then 0%Z
    else getRisk riskMap a b.
Proof.
  intros (new & Hp & Hr)%steps_prices. simpl in Hp. by rewrite Hr, Hp.
Qed.

Lemma run_zeroes_exactly_recorded_edges_witness :
  let engine := MultiRoot.multiRootDijkstra (Q:=list Entry) Scenario.smallSensors
                  Scenario.smallGraph [0; 1]%N in
  let st1 := {| ls_riskMap := zeroPath setRisk (buildRiskMap Scenario.smallRisks)
                                [1; 2; 4]%N;
                ls_remaining := [5; 6]%N;
                ls_paths := [[1; 2; 4]%N] |} in
  steps setRisk engine
    (initialState (buildRiskMap Scenario.smallRisks) [4; 5; 6]%N) st1 ∧
  getRisk (ls_riskMap st1) 2 4
  = if decide ((2, 4)%N ∈ ls_paths st1 ≫= pathEdges) then 0%Z
    else getRisk (buildRiskMap Scenario.smallRisks) 2 4.
Proof.
  intros engine st1.
  assert (steps setRisk engine
            (initialState (buildRiskMap Scenario.smallRisks) [4; 5; 6]%N) st1) as H.
  { apply rtc_once. vm_compute. reflexivity. }
  split; [exact H|].
  exact (run_zeroes_exactly_recorded_edges engine
           (buildRiskMap Scenario.smallRisks) [4; 5; 6]%N st1 2%N 4%N H).
Defined.

(** X23. With no negative risk stored, recording paths never makes a target
    dearer: a target for which the search finds a path in some state of the
    run still has one in every later state, at a risk that is not higher. *)
Theorem pending_target_never_gets_dearer {Q : Type}
    `{!MinPriorityQueue Q, !MinPriorityQueueLaws Q}
    sensors graph roots (st st' : LoopState) t info :
  buildGraph sensors = Returned graph →
  nonNegative (ls_riskMap st) →
  steps setRisk (MultiRoot.multiRootDijkstra (Q:=Q) sensors graph roots) st st' →
  MultiRoot.multiRootDijkstra (Q:=Q) sensors graph roots (ls_riskMap st) t
    = Some info →
  ∃ info',
    MultiRoot.multiRootDijkstra (Q:=Q) sensors graph roots (ls_riskMap st') t
      = Some info' ∧
    (tpi_risk info' ≤ tpi_risk info)%Z.
Proof.
  intros Hg Hnn Hs Hinfo. pose proof (buildGraph_closed _ _ Hg) as Hclosed.
  eapply (engine_cheaper graph roots); eauto.
  intros rm t'. by apply (multiRootDijkstra_spec (Q:=Q)).
Qed.

Lemma pending_target_never_gets_dearer_witness :
  let engine := MultiRoot.multiRootDijkstra (Q:=list Entry) Scenario.smallSensors
                  Scenario.smallGraph [0; 1]%N in
  let st := initialState (buildRiskMap Scenario.smallRisks) [4; 5; 6]%N in
  let st1 := {| ls_riskMap := zeroPath setRisk (buildRiskMap Scenario.smallRisks)
                                [1; 2; 4]%N;
                ls_remaining := [5; 6]%N;
                ls_paths := [[1; 2; 4]%N] |} in
  let info := {| tpi_target := 6; tpi_path := [1; 2; 4; 6]%N; tpi_risk := 6 |} in
  buildGraph Scenario.smallSensors = Returned Scenario.smallGraph ∧
  nonNegative (ls_riskMap st) ∧
  steps setRisk engine st st1 ∧
  engine (ls_riskMap st) 6%N = Some info ∧
  ∃ info', engine (ls_riskMap st1) 6%N = Some info' ∧
           (tpi_risk info' ≤ tpi_risk info)%Z.
Proof.
  intros engine st st1 info.
  assert (buildGraph Scenario.smallSensors = Returned Scenario.smallGraph) as H1
    by (vm_compute; reflexivity).
  assert (nonNegative (ls_riskMap st)) as H2.
  { apply buildRiskMap_nonNegative.
    repeat (constructor; [simpl; lia|]). constructor. }
  assert (steps setRisk engine st st1) as H3.
  { apply rtc_once. vm_compute. reflexivity. }
  assert (engine (ls_riskMap st) 6%N = Some info) as H4
    by (vm_compute; reflexivity).
  split; [exact H1|]. split; [exact H2|]. split; [exact H3|]. split; [exact H4|].
  exact (pending_target_never_gets_dearer (Q:=list Entry) Scenario.smallSensors
           Scenario.smallGraph [0; 1]%N st st1 6%N info H1 H2 H3 H4).
Defined.

(** X24. When the risks of the input are non-negative integers with a sum
    below 2^53, the first path of the output is a cheapest one overall:
    under the input risks no path from a root to any requested target has a
    smaller risk. *)
Theorem first_path_is_cheapest_overall {Q : Type}
    `{!MinPriorityQueue Q, !MinPriorityQueueLaws Q}
    sensors risks targetSensors graph p0 rest t q :
  buildGraph sensors = Returned graph →
  Forall (λ r, (0 ≤ risk r)%Z) risks →
  safeRiskList risks →
  MultiRoot.solveHeist (Q:=Q) sensors risks targetSensors = Returned (p0 :: rest) →
  t ∈ targetSensors →
  isPathFrom graph (findRoots sensors) q t = true →
  (pathRisk (buildRiskMap risks) p0 ≤ pathRisk (buildRiskMap risks) q)%Z.
Proof.
  intros Hg Hnn _ Hout Ht Hq. pose proof (buildGraph_closed _ _ Hg) as Hclosed.
  unfold MultiRoot.solveHeist in Hout. rewrite Hg in Hout. simpl in Hout.
  injection Hout as Hout.
  pose proof (λ rm t, multiRootDijkstra_spec (Q:=Q) sensors graph rm Hclosed
                        (findRoots sensors) t) as Hspec.
  apply runHeist_first in Hout as (mp & Hw & <-);
    [|intros ???; apply multiRootDijkstra_target].
  apply winner_Some in Hw as (_ & Hmp & Hmin);
    [|intros ???; apply multiRootDijkstra_target].
  simpl in Hmp, Hmin.
  pose proof (Hspec (buildRiskMap risks) (tpi_target mp)) as Hs1.
  rewrite Hmp in Hs1. destruct Hs1 as (_ & _ & Hc & _).
  pose proof (Hspec (buildRiskMap risks) t) as Hs2.
  apply walk_isPathFrom in Hq.
  destruct (MultiRoot.multiRootDijkstra sensors graph (findRoots sensors)
              (buildRiskMap risks) t) as [info|] eqn:Hinfo; simpl in Hs2.
  - destruct Hs2 as (_ & _ & _ & Hmin2).
    specialize (Hmin2 (buildRiskMap_nonNegative _ Hnn) _ Hq).
    destruct (Hmin t info) as [Hle _]; [by apply setOfList_elem|done|]. lia.
  - by destruct (Hs2 _ Hq).
Qed.

Lemma first_path_is_cheapest_overall_witness :
  buildGraph Scenario.smallSensors = Returned Scenario.smallGraph ∧
  Forall (λ r, (0 ≤ risk r)%Z) Scenario.smallRisks ∧
  safeRiskList Scenario.smallRisks ∧
  MultiRoot.solveHeist (Q:=list Entry) Scenario.smallSensors Scenario.smallRisks
    [4; 5; 6]%N = Returned ([1; 2; 4] :: [[1; 2; 4; 6]; [1; 2; 5]])%N ∧
  5%N ∈ [4; 5; 6]%N ∧
  isPathFrom Scenario.smallGraph (findRoots Scenario.smallSensors)
             [0; 3; 5]%N 5%N = true ∧
  (pathRisk (buildRiskMap Scenario.smallRisks) [1; 2; 4]%N
   ≤ pathRisk (buildRiskMap Scenario.smallRisks) [0; 3; 5]%N)%Z.
Proof.
  assert (buildGraph Scenario.smallSensors = Returned Scenario.smallGraph) as H1
    by (vm_compute; reflexivity).
  assert (Forall (λ r, (0 ≤ risk r)%Z) Scenario.smallRisks) as H2.
  { repeat (constructor; [simpl; lia|]). constructor. }
  assert (safeRiskList Scenario.smallRisks) as Hs by (vm_compute; reflexivity).
  assert (MultiRoot.solveHeist (Q:=list Entry) Scenario.smallSensors
            Scenario.smallRisks [4; 5; 6]%N
          = Returned ([1; 2; 4] :: [[1; 2; 4; 6]; [1; 2; 5]])%N) as H3
    by (vm_compute; reflexivity).
  assert (5%N ∈ [4; 5; 6]%N) as H4.
  { apply (bool_decide_unpack _). vm_compute. exact I. }
  assert (isPathFrom Scenario.smallGraph (findRoots Scenario.smallSensors)
                     [0; 3; 5]%N 5%N = true) as H5
    by (vm_compute; reflexivity).
  split; [exact H1|]. split; [exact H2|]. split; [exact Hs|]. split; [exact H3|].
  split; [exact H4|]. split; [exact H5|].
  exact (first_path_is_cheapest_overall (Q:=list Entry) Scenario.smallSensors
           Scenario.smallRisks [4; 5; 6]%N Scenario.smallGraph _ _ 5%N [0; 3; 5]%N
           H1 H2 Hs H3 H4 H5).
Defined.

(** X25. The output depends on the requested targets only as a set: two
    target lists with the same elements, in any order and with any
    repetitions, give the same output, paths in the same order. *)
Theorem target_order_is_irrelevant {Q : Type} `{!MinPriorityQueue Q}
    sensors risks l1 l2 :
  (∀ t, t ∈ l1 ↔ t ∈ l2) →
  MultiRoot.solveHeist (Q:=Q) sensors risks l1
  = MultiRoot.solveHeist (Q:=Q) sensors risks l2 ∧
  PerRoot.solveHeist (Q:=Q) sensors risks l1
  = PerRoot.solveHeist (Q:=Q) sensors risks l2.
Proof.
  intros Hsame. unfold MultiRoot.solveHeist, PerRoot.solveHeist.
  destruct (buildGraph sensors) as [graph|e]; simpl; [|done].
  split; f_equal; apply runHeist_same_targets; try done.
  - intros ???. apply multiRootDijkstra_target.
  - intros ???. apply findBestPathToTarget_target.
Qed.

Lemma target_order_is_irrelevant_witness :
  (∀ t, t ∈ [4; 5; 6]%N ↔ t ∈ [6; 4; 5; 4]%N) ∧
  MultiRoot.solveHeist (Q:=list Entry) Scenario.smallSensors Scenario.smallRisks
    [4; 5; 6]%N
  = MultiRoot.solveHeist (Q:=list Entry) Scenario.smallSensors Scenario.smallRisks
      [6; 4; 5; 4]%N.
Proof.
  assert (∀ t, t ∈ [4; 5; 6]%N ↔ t ∈ [6; 4; 5; 4]%N) as H.
  { intros t. rewrite !elem_of_cons, !elem_of_nil. tauto. }
  split; [exact H|].
  exact (proj1 (target_order_is_irrelevant (Q:=list Entry) Scenario.smallSensors
                  Scenario.smallRisks [4; 5; 6]%N [6; 4; 5; 4]%N H)).
Defined.

(** X26. Every path of the output leads from a root to one of the requested
    targets along edges of the graph, and visits no node twice. *)
Theorem output_paths_are_root_to_target_paths {Q : Type}
    `{!MinPriorityQueue Q, !MinPriorityQueueLaws Q}
    sensors risks targetSensors graph out :
  buildGraph sensors = Returned graph →
  MultiRoot.solveHeist (Q:=Q) sensors risks targetSensors = Returned out →
  Forall (λ p, NoDup p ∧
               ∃ t, t ∈ targetSensors ∧
                    isPathFrom graph (findRoots sensors) p t = true) out.
Proof.
  intros Hg Hout. pose proof (buildGraph_closed _ _ Hg) as Hclosed.
  unfold MultiRoot.solveHeist in Hout. rewrite Hg in Hout. simpl in Hout.
  injection Hout as <-.
  destruct (runHeist_final setRisk
              (MultiRoot.multiRootDijkstra (Q:=Q) sensors graph (findRoots sensors))
              (λ rm t info, multiRootDijkstra_target sensors graph _ rm t info)
              (buildRiskMap risks) targetSensors) as (final & Hs & _ & <-).
  eapply Forall_impl.
  - apply (steps_paths setRisk _
             (λ rm t info, multiRootDijkstra_target sensors graph _ rm t info)
             _ _ Hs eq_refl).
  - intros p (rm & info & Hin & Hinfo & <-). split.
    + by eapply multiRootDijkstra_simple.
    + exists (tpi_target info). split; [apply (proj1 (setOfList_elem _ _)); exact Hin|].
      pose proof (multiRootDijkstra_spec (Q:=Q) sensors graph rm Hclosed
                    (findRoots sensors) (tpi_target info)) as Hspec.
      rewrite Hinfo in Hspec. destruct Hspec as (_ & Hw & _).
      by apply walk_isPathFrom.
Qed.

Lemma output_paths_are_root_to_target_paths_witness :
  buildGraph Scenario.smallSensors = Returned Scenario.smallGraph ∧
  MultiRoot.solveHeist (Q:=list Entry) Scenario.smallSensors Scenario.smallRisks
    [4; 5; 6]%N = Returned [[1; 2; 4]; [1; 2; 4; 6]; [1; 2; 5]]%N ∧
  Forall (λ p, NoDup p ∧
               ∃ t, t ∈ [4; 5; 6]%N ∧
                    isPathFrom Scenario.smallGraph
                      (findRoots Scenario.smallSensors) p t = true)
         [[1; 2; 4]; [1; 2; 4; 6]; [1; 2; 5]]%N.
Proof.
  assert (buildGraph Scenario.smallSensors = Returned Scenario.smallGraph) as H1
    by (vm_compute; reflexivity).
  assert (MultiRoot.solveHeist (Q:=list Entry) Scenario.smallSensors
            Scenario.smallRisks [4; 5; 6]%N
          = Returned [[1; 2; 4]; [1; 2; 4; 6]; [1; 2; 5]]%N) as H2
    by (vm_compute; reflexivity).
  split; [exact H1|]. split; [exact H2|].
  exact (output_paths_are_root_to_target_paths (Q:=list Entry)
           Scenario.smallSensors Scenario.smallRisks [4; 5; 6]%N
           Scenario.smallGraph _ H1 H2).
Defined.

(** X27. A requested target that is not the identifier of any sensor is
    answered with [null] by both engines, whatever the risks. *)
Theorem unknown_target_is_not_found {Q : Type}
    `{!MinPriorityQueue Q, !MinPriorityQueueLaws Q}
    sensors graph riskMap t :
  buildGraph sensors = Returned graph →
  t ∉ id <$> sensors →
  MultiRoot.multiRootDijkstra (Q:=Q) sensors graph (findRoots sensors) riskMap t
    = None ∧
  PerRoot.findBestPathToTarget (Q:=Q) sensors graph (findRoots sensors) riskMap t
    = None.
Proof.
  intros Hg Ht. pose proof (buildGraph_closed _ _ Hg) as Hclosed.
  split.
  - pose proof (multiRootDijkstra_spec (Q:=Q) sensors graph riskMap Hclosed
                  (findRoots sensors) t) as Hspec.
    destruct (MultiRoot.multiRootDijkstra _ _ _ _ _) as [info|]; [|done].
    destruct Hspec as (_ & Hw & _). destruct Ht. by eapply walk_ends_at_sensor.
  - pose proof (findBestPathToTarget_spec (Q:=Q) sensors graph riskMap Hclosed
                  (findRoots sensors) t) as Hspec.
    destruct (PerRoot.findBestPathToTarget _ _ _ _ _) as [info|]; [|done].
    destruct Hspec as (_ & Hw & _). destruct Ht. by eapply walk_ends_at_sensor.
Qed.

Lemma unknown_target_is_not_found_witness :
  buildGraph Scenario.smallSensors = Returned Scenario.smallGraph ∧
  (9%N ∉ id <$> Scenario.smallSensors) ∧
  MultiRoot.multiRootDijkstra (Q:=list Entry) Scenario.smallSensors
    Scenario.smallGraph (findRoots Scenario.smallSensors)
    (buildRiskMap Scenario.smallRisks) 9%N = None.
Proof.
  assert (buildGraph Scenario.smallSensors = Returned Scenario.smallGraph) as H1
    by (vm_compute; reflexivity).
  assert (9%N ∉ id <$> Scenario.smallSensors) as H2.
  { apply (bool_decide_unpack _). vm_compute. exact I. }
  split; [exact H1|]. split; [exact H2|].
  exact (proj1 (unknown_target_is_not_found (Q:=list Entry) Scenario.smallSensors
                  Scenario.smallGraph (buildRiskMap Scenario.smallRisks) 9%N H1 H2)).
Defined.

(** X28. When the graph is built (every declared dependency is a sensor)
    and every sensor declares a dependency, there is no root, and the
    output is empty whatever targets are requested. *)
Theorem no_root_no_path {Q : Type}
    `{!MinPriorityQueue Q, !MinPriorityQueueLaws Q}
    sensors risks targetSensors graph :
  buildGraph sensors = Returned graph →
  findRoots sensors = [] →
  MultiRoot.solveHeist (Q:=Q) sensors risks targetSensors = Returned [] ∧
  PerRoot.solveHeist (Q:=Q) sensors risks targetSensors = Returned [].
Proof.
  intros Hg Hroots. pose proof (buildGraph_closed _ _ Hg) as Hclosed.
  unfold MultiRoot.solveHeist, PerRoot.solveHeist. rewrite Hg. simpl.
  split; f_equal.
  - destruct (engines_run_spec (Q:=Q) sensors graph (findRoots sensors) _
                (buildRiskMap risks) targetSensors Hclosed (or_introl eq_refl))
      as (final & ts & _ & _ & _ & <- & _ & Hends & _ & Hts & _).
    by apply (rootless_output graph (findRoots sensors) _ ts
                (λ t, t ∈ targetSensors)).
  - destruct (engines_run_spec (Q:=Q) sensors graph (findRoots sensors) _
                (buildRiskMap risks) targetSensors Hclosed (or_intror eq_refl))
      as (final & ts & _ & _ & _ & <- & _ & Hends & _ & Hts & _).
    by apply (rootless_output graph (findRoots sensors) _ ts
                (λ t, t ∈ targetSensors)).
Qed.

Lemma no_root_no_path_witness :
  let sensors := [Scenario.sensor 0 [1]; Scenario.sensor 1 [0]]%N in
  let graph : gmap N (list N) := list_to_map [(0, [1]); (1, [0])]%N in
  buildGraph sensors = Returned graph ∧
  findRoots sensors = [] ∧
  MultiRoot.solveHeist (Q:=list Entry) sensors [] [0; 1]%N = Returned [].
Proof.
  intros sensors graph.
  assert (buildGraph sensors = Returned graph) as H1 by (vm_compute; reflexivity).
  assert (findRoots sensors = []) as H2 by (vm_compute; reflexivity).
  split; [exact H1|]. split; [exact H2|].
  exact (proj1 (no_root_no_path (Q:=list Entry) sensors [] [0; 1]%N graph H1 H2)).
Defined.
